(** * MDEE: momentum contrast with a negative queue (moco3_module.py)

    A shallow embedding of the class [MDEE] of
    [src/project/moco/moco3_module.py]: the momentum update of the key
    encoder, the circular negative queue, the distributed batch shuffle,
    the logit assembly of [forward], the KNN negative miner and the two
    step functions.

    Tensors are lists (a matrix is the list of its rows), Python integers
    are [Z], exceptions are values of [exn], and the methods that mutate
    the module run in a state monad whose state survives an exception, as
    the attributes of a Python object do. *)

From Stdlib Require Import ZArith QArith Qabs String Lia.
From stdpp Require Import base list numbers sorting.

Set Default Proof Using "Type".

(** ** Scalars

    The entries of a torch tensor.  The arithmetic is kept abstract: every
    general theorem below holds for any interpretation of the operations,
    IEEE arithmetic included. *)

Class Scalar := {
  real : Type;
  f0 : real;
  f1 : real;
  fadd : real -> real -> real;
  fsub : real -> real -> real;
  fmul : real -> real -> real;
  fdiv : real -> real -> real;
  fneg : real -> real;
  fabs : real -> real;
  fsqrt : real -> real;
  fexp : real -> real;
  fmax : real -> real -> real;
  fltb : real -> real -> bool;
  feps : real  (* the default [eps] of [torch.nn.functional.normalize] *)
}.

Declare Scope real_scope.
Delimit Scope real_scope with real.
Infix "⊕" := fadd (at level 50, left associativity) : real_scope.
Infix "⊖" := fsub (at level 50, left associativity) : real_scope.
Infix "⊗" := fmul (at level 40, left associativity) : real_scope.
Infix "⊘" := fdiv (at level 40, left associativity) : real_scope.

(** ** Exceptions and fallible computations *)

Inductive exn : Set :=
| RuntimeError        (* torch: shapes that do not fit *)
| ZeroDivisionError   (* Python: [//] or [%] by zero *)
| UnboundLocalError   (* Python: a local read before any assignment *)
| IndexError
| ValueError
| TypeError.          (* Python: an argument of a type the callee refuses *)

#[global] Instance exn_eq_dec : EqDecision exn.
Proof. solve_decision. Defined.

#[global] Instance sum_exn_ret : MRet (sum exn) := fun _ a => inr a.
#[global] Instance sum_exn_bind : MBind (sum exn) :=
  fun _ _ f m => match m with inl e => inl e | inr a => f a end.

Definition raise {A} (e : exn) : exn + A := inl e.

(** [x !! i] on a tensor, raising [IndexError] out of range. *)
Definition item {X} (l : list X) (i : nat) : exn + X :=
  match l !! i with Some x => inr x | None => inl IndexError end.

Fixpoint traverse {X Y} (f : X -> exn + Y) (l : list X) : exn + list Y :=
  match l with
  | [] => inr []
  | x :: l' => y ← f x; ys ← traverse f l'; inr (y :: ys)
  end.

(** ** Tensors *)

Abbreviation Vec := (list real).
Abbreviation Mat := (list (list real)).      (* rows *)
Abbreviation Tensor3 := (list (list (list real))).

(** The parameters of an encoder: one flattened tensor per parameter. *)
Abbreviation Params := (list (list real)).

Section Tensors.
Context `{Scalar}.
Local Open Scope real_scope.

(** [t.sum()] over one axis. *)
Definition fsum (v : Vec) : real := foldl fadd f0 v.

Definition same_len {X Y} (u : list X) (v : list Y) : bool :=
  Nat.eqb (length u) (length v).

(** The shape of a matrix given as rows. *)
Definition has_shape (m : Mat) (r c : nat) : Prop :=
  length m = r ∧ Forall (fun row => length row = c) m.

Definition has_shape3 (t : Tensor3) (a b c : nat) : Prop :=
  length t = a ∧ Forall (fun m => has_shape m b c) t.

Definition ncols (m : Mat) : nat :=
  match m with [] => 0 | r :: _ => length r end.

Definition col (j : nat) (m : Mat) : Vec := map (fun r => nth j r f0) m.

(** [m.T] and [torch.transpose(m, 0, 1)] of a matrix. *)
Definition transpose (m : Mat) : Mat := map (fun j => col j m) (seq 0 (ncols m)).

Definition dot (u v : Vec) : real := fsum (zip_with fmul u v).

(** [torch.nn.functional.normalize(m, dim=1)]: each row divided by
    [max(||row||_2, eps)]. *)
Definition l2norm (v : Vec) : real := fsqrt (fsum (map (fun x => x ⊗ x) v)).
Definition normalize_row (v : Vec) : Vec :=
  map (fun x => x ⊘ fmax (l2norm v) feps) v.
Definition normalize (m : Mat) : Mat := map normalize_row m.

(** [torch.einsum("nc,nc->n", [q, k])].  Operands whose shapes differ
    raise; torch would also accept a dimension of size 1 against a larger
    one, which two encoders of one architecture never produce. *)
Definition einsum_nc_nc_n (q k : Mat) : exn + Vec :=
  if same_len q k && forallb (fun p => same_len p.1 p.2) (zip q k)
  then inr (zip_with dot q k)
  else raise RuntimeError.

(** [torch.einsum("nc,ck->nk", [q, m])]: row [n] of the result holds the
    products of row [n] of [q] with every column of [m]. *)
Definition einsum_nc_ck_nk (q m : Mat) : exn + Mat :=
  if forallb (fun row => same_len row m) q
  then inr (map (fun row => map (dot row) (transpose m)) q)
  else raise RuntimeError.

(** [torch.einsum('nc,njc->nc', [q, neg])]: the index [j] is absent from
    the output, so it is summed: [out[n][c] = sum_j q[n][c] * neg[n][j][c]]. *)
Definition einsum_nc_njc_nc (q : Mat) (neg : Tensor3) : exn + Mat :=
  if same_len q neg &&
     forallb (fun p => forallb (fun nb => same_len p.1 nb) p.2) (zip q neg)
  then inr (zip_with
              (fun row nbs =>
                 imap (fun c x => fsum (map (fun nb => x ⊗ nth c nb f0) nbs)) row)
              q neg)
  else raise RuntimeError.

(** [l_pos.unsqueeze(-1)] *)
Definition unsqueeze_last (v : Vec) : Mat := map (fun x => [x]) v.

(** [torch.cat([a, b], dim=1)] *)
Definition cat_dim1 (a b : Mat) : exn + Mat :=
  if same_len a b then inr (zip_with app a b) else raise RuntimeError.

(** [m /= t] *)
Definition div_scalar (m : Mat) (t : real) : Mat := map (map (fun x => x ⊘ t)) m.

(** [torch.zeros(n).type_as(logits)] *)
Definition zeros (n : nat) : Vec := replicate n f0.
End Tensors.

(** ** Python integers and slices *)

(** [a % n] on Python integers: the sign follows the divisor, as [Z.modulo]. *)
Definition py_mod (a n : Z) : exn + Z :=
  if (n =? 0)%Z then raise ZeroDivisionError else inr (a mod n)%Z.

(** [a // n] on Python integers. *)
Definition py_floordiv (a n : Z) : exn + Z :=
  if (n =? 0)%Z then raise ZeroDivisionError else inr (a / n)%Z.

(** A slice bound [x] on an axis of length [n]: a negative bound counts from
    the end, and the result is clamped to [0, n]. *)
Definition slice_bound (n x : Z) : Z :=
  if (x <? 0)%Z then Z.max 0 (x + n) else Z.min x n.

(** ** The module *)

Inductive Plugin : Set := DDPPlugin | DDP2Plugin | SingleDevicePlugin.

Record Trainer := { training_type_plugin : Plugin }.

(** [MDEE._use_ddp_or_ddp2] *)
Definition _use_ddp_or_ddp2 (trainer : Trainer) : bool :=
  match training_type_plugin trainer with
  | DDPPlugin | DDP2Plugin => true
  | SingleDevicePlugin => false
  end.

(** The two registered buffer pairs: [queue]/[queue_ptr] and
    [val_queue]/[val_queue_ptr].  A method that receives a buffer receives a
    reference to it, hence the name and not the value. *)
Inductive Buffer : Set := Train | Val.

#[global] Instance Buffer_eq_dec : EqDecision Buffer.
Proof. solve_decision. Defined.

(** One entry per call made by a step, in call order. *)
Inductive Event : Set :=
| CallMomentumUpdate
| CallForward (queue : Buffer)
| CallKnnApprox
| CallDequeueAndEnqueue (queue_ptr queue : Buffer)
| CallCrossEntropy
| CallKmeansLoss
| CallPrecisionAtK
| CallLogDict.

#[global] Instance Event_eq_dec : EqDecision Event.
Proof. solve_decision. Defined.

Section Module.
Context `{Scalar}.
Local Open Scope real_scope.

(** [self.hparams], as saved by [save_hyperparameters] in [__init__]. *)
Record HParams := {
  emb_dim : nat;
  num_negatives : Z;
  encoder_momentum : real;
  softmax_temperature : real;
  batch_size : Z;
  use_knn : bool;
  use_kmeans : bool;
  alpha : real;
  topk : Z;
  metric : string
}.

(** The mutable attributes of an [MDEE] instance. *)
Record Model := {
  encoder_q : Params;
  encoder_k : Params;
  queue : Mat;            (* emb_dim x num_negatives *)
  queue_ptr : Z;
  val_queue : Mat;
  val_queue_ptr : Z
}.

Definition set_encoder_q (p : Params) (s : Model) : Model :=
  {| encoder_q := p; encoder_k := encoder_k s; queue := queue s;
     queue_ptr := queue_ptr s; val_queue := val_queue s;
     val_queue_ptr := val_queue_ptr s |}.

Definition set_encoder_k (p : Params) (s : Model) : Model :=
  {| encoder_q := encoder_q s; encoder_k := p; queue := queue s;
     queue_ptr := queue_ptr s; val_queue := val_queue s;
     val_queue_ptr := val_queue_ptr s |}.

Definition get_queue (b : Buffer) (s : Model) : Mat :=
  match b with Train => queue s | Val => val_queue s end.

Definition get_ptr (b : Buffer) (s : Model) : Z :=
  match b with Train => queue_ptr s | Val => val_queue_ptr s end.

Definition set_queue (b : Buffer) (m : Mat) (s : Model) : Model :=
  match b with
  | Train =>
      {| encoder_q := encoder_q s; encoder_k := encoder_k s; queue := m;
         queue_ptr := queue_ptr s; val_queue := val_queue s;
         val_queue_ptr := val_queue_ptr s |}
  | Val =>
      {| encoder_q := encoder_q s; encoder_k := encoder_k s; queue := queue s;
         queue_ptr := queue_ptr s; val_queue := m;
         val_queue_ptr := val_queue_ptr s |}
  end.

Definition set_ptr (b : Buffer) (p : Z) (s : Model) : Model :=
  match b with
  | Train =>
      {| encoder_q := encoder_q s; encoder_k := encoder_k s; queue := queue s;
         queue_ptr := p; val_queue := val_queue s;
         val_queue_ptr := val_queue_ptr s |}
  | Val =>
      {| encoder_q := encoder_q s; encoder_k := encoder_k s; queue := queue s;
         queue_ptr := queue_ptr s; val_queue := val_queue s;
         val_queue_ptr := p |}
  end.

(** *** The monad of the methods

    A method reads and writes the module, may raise, and leaves a trace of
    the calls it made.  What was written before an exception stays
    written. *)
Record Out (A : Type) := MkOut {
  result : exn + A;
  final : Model;
  calls : list Event
}.
Global Arguments MkOut {A} _ _ _.
Global Arguments result {A} _.
Global Arguments final {A} _.
Global Arguments calls {A} _.

Definition M (A : Type) : Type := Model -> Out A.

Global Instance M_ret : MRet M := fun _ a s => MkOut (inr a) s [].
Global Instance M_bind : MBind M := fun _ _ f m s =>
  let o := m s in
  match result o with
  | inl e => MkOut (inl e) (final o) (calls o)
  | inr a => let o' := f a (final o) in
             MkOut (result o') (final o') (calls o ++ calls o')
  end.

Definition get : M Model := fun s => MkOut (inr s) s [].
Definition modify (f : Model -> Model) : M unit := fun s => MkOut (inr tt) (f s) [].
Definition emit (e : Event) : M unit := fun s => MkOut (inr tt) s [e].
Definition lift {A} (r : exn + A) : M A := fun s => MkOut r s [].
End Module.

(** ** torch.distributed, as seen from one worker

    A collective call returns the tensors of every worker; [world] lists
    what the workers contribute, by ascending rank, and the slot of the
    calling worker holds the tensor it passes itself. *)

(** [concat_all_gather(tensor)]: [all_gather], then [torch.cat(_, dim=0)]. *)
Definition concat_all_gather {X} (world : list (list X)) (rank : nat)
    (tensor : list X) : list X :=
  concat (<[rank := tensor]> world).

(** [t.view(n, -1)] of a one-axis tensor: [n] rows of equal length. *)
Definition view_rows {X} (n : nat) (t : list X) : exn + list (list X) :=
  if (n =? 0)%nat then raise RuntimeError
  else if (length t mod n =? 0)%nat
       then inr (map (fun i => take (length t / n) (drop (i * (length t / n)) t))
                     (seq 0 n))
       else raise RuntimeError.

(** [x[idx]] with a tensor of indices. *)
Definition index_rows {X} (x : list X) (idx : list nat) : exn + list X :=
  traverse (item x) idx.

(** [torch.argsort] of a tensor of indices: the positions of the entries in
    ascending order of value. *)
Definition by_value (a b : nat * nat) : Prop := (a.1 <= b.1)%nat.

#[global] Instance by_value_dec : RelDecision by_value.
Proof. intros a b. unfold by_value. apply _. Defined.

#[global] Instance by_value_total : Total by_value.
Proof. intros a b. unfold by_value. lia. Qed.

Definition argsort (t : list nat) : list nat :=
  (merge_sort by_value (zip t (seq 0 (length t)))).*2.

(** [MDEE._batch_shuffle_ddp].  [idx_shuffle] is the value of
    [torch.randperm(batch_size_all)] of rank 0, which the broadcast gives to
    every worker. *)
Definition _batch_shuffle_ddp {X} (world : list (list X)) (rank : nat)
    (idx_shuffle : list nat) (x : list X) : exn + (list X * list nat) :=
  let batch_size_this := length x in
  let x_gather := concat_all_gather world rank x in
  let batch_size_all := length x_gather in
  num_gpus ← py_floordiv (Z.of_nat batch_size_all) (Z.of_nat batch_size_this);
  let idx_unshuffle := argsort idx_shuffle in
  rows ← view_rows (Z.to_nat num_gpus) idx_shuffle;
  idx_this ← item rows rank;
  shuffled ← index_rows x_gather idx_this;
  mret (shuffled, idx_unshuffle).

(** [MDEE._batch_unshuffle_ddp] *)
Definition _batch_unshuffle_ddp {X} (world : list (list X)) (rank : nat)
    (x : list X) (idx_unshuffle : list nat) : exn + list X :=
  let batch_size_this := length x in
  let x_gather := concat_all_gather world rank x in
  let batch_size_all := length x_gather in
  num_gpus ← py_floordiv (Z.of_nat batch_size_all) (Z.of_nat batch_size_this);
  rows ← view_rows (Z.to_nat num_gpus) idx_unshuffle;
  idx_this ← item rows rank;
  index_rows x_gather idx_this.

(** ** The methods of [MDEE] *)

Section Methods.
Context `{Scalar}.
Local Open Scope real_scope.

(** An image is opaque; a batch of images is the list of them. *)
Context {Img : Type}.

(** [self.hparams] and [self.trainer]. *)
Context (hp : HParams) (trainer : Trainer).

(** The collaborators: the forward function of the backbone (one
    architecture for both encoders, applied to a whole batch), the linear
    head of the clustering loss, and the two metric functions of the
    libraries. *)
Context (encoder_apply : Params -> list Img -> Mat).
Context (encoder_kmeans : Mat -> Mat).
Context (cross_entropy : Mat -> Vec -> exn + real).
Context (precision_at_k : Mat -> Vec -> exn + real * real).

(** What the other workers contribute to the collective calls of one
    step. *)
Record Dist := {
  rank : nat;                       (* torch.distributed.get_rank() *)
  world_img_k : list (list Img);    (* gathered by _batch_shuffle_ddp *)
  randperm : list nat;              (* the permutation broadcast by rank 0 *)
  world_key : list Mat;             (* gathered by _batch_unshuffle_ddp *)
  world_keys : list Mat             (* gathered by _dequeue_and_enqueue *)
}.

(** *** _momentum_update_key_encoder *)

Definition tensor_scale (t : Vec) (c : real) : Vec := map (fun x => x ⊗ c) t.

(** [a + b] of two parameter tensors of one shape. *)
Definition tensor_add (a b : Vec) : exn + Vec :=
  if same_len a b then inr (zip_with fadd a b) else raise RuntimeError.

Definition set_param_k (i : nat) (data : Vec) (s : Model) : Model :=
  set_encoder_k (<[i := data]> (encoder_k s)) s.

(** The body of the [for] loop over [zip(q.parameters(), k.parameters())],
    [i] being the position of the pair. *)
Fixpoint momentum_loop (i : nat) (pairs : list (Vec * Vec)) : M unit :=
  match pairs with
  | [] => mret tt
  | (param_q, param_k) :: rest =>
      let em := encoder_momentum hp in
      data ← lift (tensor_add (tensor_scale param_k em)
                              (tensor_scale param_q (f1 ⊖ em)));
      modify (set_param_k i data);;
      momentum_loop (S i) rest
  end.

Definition _momentum_update_key_encoder : M unit :=
  emit CallMomentumUpdate;;
  s ← get;
  momentum_loop 0 (zip (encoder_q s) (encoder_k s)).

(** *** _dequeue_and_enqueue *)

(** [queue[:, a:b] = keys.T].  The slice keeps the columns between the
    two clamped bounds; [keys.T] must have the shape of the slice, a
    dimension of size 1 being repeated (a row of [keys] is a column of
    [keys.T]). *)
Definition assign_columns_T (queue : Mat) (a b : Z) (keys : Mat) : exn + Mat :=
  let n := Z.of_nat (ncols queue) in
  let lo := Z.to_nat (slice_bound n a) in
  let hi := Z.to_nat (slice_bound n b) in
  let w := (hi - lo)%nat in
  if ((length keys =? w)%nat || (length keys =? 1)%nat) &&
     forallb (fun k => (length k =? length queue)%nat || (length k =? 1)%nat) keys
  then
    let src (i j : nat) : real :=
      let k := nth (if (length keys =? w)%nat then j else 0%nat) keys [] in
      nth (if (length k =? length queue)%nat then i else 0%nat) k f0 in
    inr (imap (fun i row =>
                 take lo row ++ map (src i) (seq 0 w) ++ drop (lo + w) row)
              queue)
  else raise RuntimeError.

(** [keys] after the gather at the head of [_dequeue_and_enqueue]. *)
Definition gathered_keys (dist : Dist) (keys : Mat) : Mat :=
  if _use_ddp_or_ddp2 trainer
  then concat_all_gather (world_keys dist) (rank dist) keys
  else keys.

Definition _dequeue_and_enqueue (dist : Dist) (keys : Mat)
    (queue_ptr queue : Buffer) : M unit :=
  emit (CallDequeueAndEnqueue queue_ptr queue);;
  let keys := gathered_keys dist keys in
  let batch_size' := Z.of_nat (length keys) in
  s ← get;
  let ptr := get_ptr queue_ptr s in
  if (batch_size' =? batch_size hp)%Z then
    q ← lift (assign_columns_T (get_queue queue s) ptr (ptr + batch_size') keys);
    modify (set_queue queue q);;
    ptr' ← lift (py_mod (ptr + batch_size') (num_negatives hp));
    modify (set_ptr queue_ptr ptr')
  else mret tt.

(** *** knn_approx *)

Definition sqdist (x y : Vec) : real :=
  fsum (map (fun d => d ⊗ d) (zip_with fsub x y)).

(** The symbolic distance matrix [D_ij], as the function of a query row and
    a queue entry; [None] when no branch of the [if]/[elif] chain assigns
    it. *)
Definition distance (name : string) : option (Vec -> Vec -> real) :=
  if String.eqb name "euclidean" then Some sqdist
  else if String.eqb name "manhattan" then
    Some (fun x y => fsum (map fabs (zip_with fsub x y)))
  else if String.eqb name "angular" then
    Some (fun x y => fneg (dot x y))
  else if String.eqb name "hyperbolic" then
    Some (fun x y => sqdist x y ⊘ (nth 0 x f0 ⊗ nth 0 y f0))
  else if String.eqb name "ang+hyper" then
    Some (fun x y => fneg (dot x y) ⊕ sqdist x y ⊘ (nth 0 x f0 ⊗ nth 0 y f0))
  else None.

(** Whether the formula of the metric reads the first coordinate. *)
Definition reads_first_coordinate (name : string) : bool :=
  String.eqb name "hyperbolic" || String.eqb name "ang+hyper".

Fixpoint insert_by_distance (x : nat * real) (l : list (nat * real))
    : list (nat * real) :=
  match l with
  | [] => [x]
  | y :: l' => if fltb y.2 x.2 then y :: insert_by_distance x l'
               else x :: y :: l'
  end.

(** [D_ij.argKmin(K, dim=1)] for one query: the indices of the [K]
    smallest distances, nearest first, the lower index first among equal
    distances.  With fewer than [K] candidates the places left over keep
    the index 0 the reduction starts from. *)
Definition argKmin (K : nat) (d : Vec) : list nat :=
  take K (foldr insert_by_distance [] (imap (fun j x => (j, x)) d)).*1
  ++ replicate (K - length d) 0%nat.

(** [self.queue] is read whatever queue the caller of [forward] holds.
    The distance is built first (an unknown metric name fails there, a
    query whose width is not the one of the queue is refused), then the
    reduction runs: [topk = 0] is refused with a [TypeError], an empty
    batch of queries fails with a [RuntimeError] when the indices are
    laid out as [batch x topk], and [topk] above the number of columns
    returns, the places left over pointing at column 0.  A negative
    [topk] is outside what the reduction is defined for and reported as
    [ValueError]. *)
Definition knn_approx (query : Mat) : M Tensor3 :=
  emit CallKnnApprox;;
  s ← get;
  let queue' := transpose (queue s) in
  match distance (metric hp) with
  | None => lift (raise UnboundLocalError)
  | Some D =>
      if forallb (fun x => same_len x (queue s)) query &&
         (negb (reads_first_coordinate (metric hp)) ||
          negb (length (queue s) =? 0)%nat)
      then
        if (topk hp <? 0)%Z then lift (raise ValueError)
        else if (topk hp =? 0)%Z then lift (raise TypeError)
        else if (length query =? 0)%nat then lift (raise RuntimeError)
        else
          let index_knn :=
            map (fun x => argKmin (Z.to_nat (topk hp)) (map (D x) queue')) query in
          lift (traverse (index_rows queue') index_knn)
      else lift (raise ValueError)
  end.

(** *** forward *)

Definition forward (dist : Dist) (img_q img_k : list Img) (queue : Buffer)
    : M (Mat * Vec * Mat * Mat) :=
  emit (CallForward queue);;
  s ← get;
  let query := normalize (encoder_apply (encoder_q s) img_q) in
  key ← (if _use_ddp_or_ddp2 trainer then
           '(img_k', idx_unshuffle) ←
             lift (_batch_shuffle_ddp (world_img_k dist) (rank dist)
                                      (randperm dist) img_k);
           let key := normalize (encoder_apply (encoder_k s) img_k') in
           lift (_batch_unshuffle_ddp (world_key dist) (rank dist)
                                      key idx_unshuffle)
         else mret (normalize (encoder_apply (encoder_k s) img_k)));
  l_pos ← lift (einsum_nc_nc_n query key);
  let l_pos := unsqueeze_last l_pos in
  l_neg ← (if use_knn hp then
             neg_examples ← knn_approx query;
             lift (einsum_nc_njc_nc query neg_examples)
           else
             let neg_examples := get_queue queue s in
             lift (einsum_nc_ck_nk query neg_examples));
  logits ← lift (cat_dim1 l_pos l_neg);
  let logits := div_scalar logits (softmax_temperature hp) in
  let labels := zeros (length logits) in
  mret (logits, labels, query, key).

(** *** kmeans_loss *)

(** [nn.Softmax(dim=1)] on one row. *)
Definition softmax_row (v : Vec) : Vec :=
  let e := map fexp v in map (fun x => x ⊘ fsum e) e.

(** [(a * b).sum()] *)
Definition mul_sum (a b : Mat) : real :=
  fsum (concat (zip_with (zip_with fmul) a b)).

Definition kmeans_loss (query key : Mat) : M real :=
  emit CallKmeansLoss;;
  let kmeans_query := encoder_kmeans (normalize query) in
  let kmeans_key := encoder_kmeans (normalize key) in
  let kmeans_query_labels :=
    map softmax_row (map (map (fun x => alpha hp ⊗ x)) kmeans_query) in
  let kmeans_key_labels :=
    map softmax_row (map (map (fun x => alpha hp ⊗ x)) kmeans_key) in
  mret (fneg (mul_sum kmeans_query_labels kmeans_query
              ⊕ mul_sum kmeans_key_labels kmeans_key) ⊘ alpha hp).

(** *** training_step and validation_step

    [img_1] and [img_2] are the two views of the batch, after the
    unpacking at the head of the step. *)

Definition training_step (dist : Dist) (img_1 img_2 : list Img) : M real :=
  _momentum_update_key_encoder;;
  '(output, target, query, keys) ← forward dist img_1 img_2 Train;
  _dequeue_and_enqueue dist keys Train Train;;
  emit CallCrossEntropy;;
  loss ← lift (cross_entropy output target);
  loss ← (if use_kmeans hp
          then l ← kmeans_loss query keys; mret (loss ⊕ l)
          else mret loss);
  emit CallPrecisionAtK;;
  '(acc1, acc5) ← lift (precision_at_k output target);
  emit CallLogDict;;
  mret loss.

Definition validation_step (dist : Dist) (img_1 img_2 : list Img)
    : M (real * real * real) :=
  '(output, target, query, keys) ← forward dist img_1 img_2 Val;
  _dequeue_and_enqueue dist keys Val Val;;
  emit CallCrossEntropy;;
  loss ← lift (cross_entropy output target);
  loss ← (if use_kmeans hp
          then l ← kmeans_loss query keys; mret (loss ⊕ l)
          else mret loss);
  emit CallPrecisionAtK;;
  '(acc1, acc5) ← lift (precision_at_k output target);
  mret (loss, acc1, acc5).

(** *** __init__

    The key encoder starts as a copy of the query encoder, both pointers
    at 0.  [queue0] and [val_queue0] are the two normalised random
    matrices of shape [emb_dim x num_negatives]. *)
Definition init (params : Params) (queue0 val_queue0 : Mat) : Model :=
  {| encoder_q := params; encoder_k := params;
     queue := queue0; queue_ptr := 0;
     val_queue := val_queue0; val_queue_ptr := 0 |}.

(** The states a module goes through: construction, then any sequence of
    method calls, and of optimizer steps on the query encoder between
    them.  The state left by a call that raised is one of them. *)
Inductive reachable (s0 : Model) : Model -> Prop :=
| reach_init : reachable s0 s0
| reach_optimizer s p :
    reachable s0 s -> reachable s0 (set_encoder_q p s)
| reach_momentum s :
    reachable s0 s -> reachable s0 (final (_momentum_update_key_encoder s))
| reach_enqueue s dist keys b :
    reachable s0 s ->
    reachable s0 (final (_dequeue_and_enqueue dist keys b b s))
| reach_training_step s dist img_1 img_2 :
    reachable s0 s -> reachable s0 (final (training_step dist img_1 img_2 s))
| reach_validation_step s dist img_1 img_2 :
    reachable s0 s -> reachable s0 (final (validation_step dist img_1 img_2 s)).

(** Successive calls of the enqueue on one buffer pair, each with its own
    batch of keys and its own peers, stopping at the first exception. *)
Fixpoint enqueue_all (b : Buffer) (batches : list (Dist * Mat)) : M unit :=
  match batches with
  | [] => mret tt
  | (dist, keys) :: rest =>
      _dequeue_and_enqueue dist keys b b;; enqueue_all b rest
  end.
End Methods.

(** ** A rational interpretation, for running the methods

    Exact rationals in lowest terms.  [fsqrt] is exact on the squares of
    rationals and [fexp] is a polynomial; the examples below only take the
    root of squares and leave the clustering loss, the one user of [fexp],
    disabled. *)

Module Bench.
Definition q_sqrt (x : Q) : Q := Qred (Z.sqrt (Qnum x) # Pos.sqrt (Qden x)).

#[export] Instance QScalar : Scalar := {|
  real := Q;
  f0 := 0%Q;
  f1 := 1%Q;
  fadd x y := Qred (x + y);
  fsub x y := Qred (x - y);
  fmul x y := Qred (x * y);
  fdiv x y := Qred (x / y);
  fneg x := Qred (- x);
  fabs x := Qred (Qabs x);
  fsqrt := q_sqrt;
  fexp x := Qred (1 + x + x * x / 2);
  fmax x y := if Qle_bool x y then y else x;
  fltb x y := negb (Qle_bool y x);
  feps := (1 # 1000000000000)%Q
|}.

(** A mock backbone: an image is its own feature row, to which the first
    parameter tensor is added as a bias. *)
Definition mock_encoder (p : Params) (imgs : list (list Q)) : Mat :=
  map (fun img => zip_with (fun x b => Qred (x + b)) img (nth 0%nat p [])) imgs.

Definition mock_kmeans (m : Mat) : Mat := m.
(** A stand-in loss that shows which logits a step computed: their sum. *)
Definition mock_cross_entropy (output : Mat) (target : Vec) : exn + real :=
  inr (fsum (concat output)).
Definition mock_precision_at_k (output : Mat) (target : Vec)
    : exn + real * real :=
  inr (0%Q, 0%Q).

Definition single : Trainer := {| training_type_plugin := SingleDevicePlugin |}.
Definition ddp : Trainer := {| training_type_plugin := DDPPlugin |}.

(** No other worker. *)
Definition alone : @Dist QScalar (list Q) :=
  {| rank := 0; world_img_k := [[]]; randperm := []; world_key := [[]];
     world_keys := [[]] |}.

(** [emb_dim=2, num_negatives=4, batch_size=2], the queue path. *)
Definition hp_queue : HParams :=
  {| emb_dim := 2; num_negatives := 4; encoder_momentum := (1 # 2)%Q;
     softmax_temperature := (1 # 2)%Q; batch_size := 2; use_knn := false;
     use_kmeans := false; alpha := (1 # 10)%Q; topk := 1;
     metric := "euclidean" |}.

(** The same with the KNN path, [topk=1]. *)
Definition hp_knn : HParams :=
  {| emb_dim := 2; num_negatives := 4; encoder_momentum := (1 # 2)%Q;
     softmax_temperature := (1 # 2)%Q; batch_size := 2; use_knn := true;
     use_kmeans := false; alpha := (1 # 10)%Q; topk := 1;
     metric := "euclidean" |}.

(** The KNN path with a metric name that has no branch. *)
Definition hp_cosine : HParams :=
  {| emb_dim := 2; num_negatives := 4; encoder_momentum := (1 # 2)%Q;
     softmax_temperature := (1 # 2)%Q; batch_size := 2; use_knn := true;
     use_kmeans := false; alpha := (1 # 10)%Q; topk := 1;
     metric := "cosine" |}.

(** Two views of a batch of two images. *)
Definition views_1 : list (list Q) := [[1%Q; 0%Q]; [0%Q; 1%Q]].
Definition views_2 : list (list Q) := [[3%Q; 4%Q]; [0%Q; 2%Q]].

(** A module with unit vectors in its queues: the training queue holds
    [(1,0)] and [(0,1)] twice each, the validation queue [(-1,0)] and
    [(0,-1)]. *)
Definition model0 : Model :=
  init [[0%Q; 0%Q]]
       [[1%Q; 0%Q; 1%Q; 0%Q]; [0%Q; 1%Q; 0%Q; 1%Q]]
       [[(-1)%Q; 0%Q; (-1)%Q; 0%Q]; [0%Q; (-1)%Q; 0%Q; (-1)%Q]].

(** Another content for a queue: the unit vector [(3/5, 4/5)] four
    times. *)
Definition other_queue : Mat :=
  [[3 # 5; 3 # 5; 3 # 5; 3 # 5]; [4 # 5; 4 # 5; 4 # 5; 4 # 5]]%Q.
End Bench.

Import Bench.

(** ** Vocabulary of the statements *)

Section Vocabulary.
Context `{Scalar}.
Local Open Scope real_scope.

(** The momentum blend of a key parameter with its query parameter. *)
Definition blend (em : real) (p : Vec * Vec) : Vec :=
  zip_with (fun q k => k ⊗ em ⊕ q ⊗ (f1 ⊖ em)) p.1 p.2.

(** Every key parameter that has a query parameter at its position,
    blended; the others as they are. *)
Fixpoint blend_all (em : real) (qs ks : Params) : Params :=
  match qs, ks with
  | q :: qs', k :: ks' => blend em (q, k) :: blend_all em qs' ks'
  | _, _ => ks
  end.

(** [keys], one key per row, stored in the columns [ptr], [ptr+1], ... of
    the queue: column [ptr + j] receives key [j]; the other columns stay. *)
Definition write_columns (queue : Mat) (ptr : nat) (keys : Mat) : Mat :=
  imap (fun i row =>
          take ptr row ++ map (fun k => nth i k f0) keys
               ++ drop (ptr + length keys) row)
       queue.

(** Both write pointers lie within the queue. *)
Definition ptr_in_range (hp : HParams) (s : Model) : Prop :=
  forall b, (0 <= get_ptr b s < num_negatives hp)%Z.

(** The metric names with a branch in [knn_approx]. *)
Definition supported_metrics : list string :=
  ["euclidean"; "manhattan"; "angular"; "hyperbolic"; "ang+hyper"]%string.

(** The key embeddings of [forward]: on one device the normalised output of
    the key encoder; under DDP the same around shuffle and unshuffle. *)
Definition forward_key {Img} (trainer : Trainer)
    (encoder_apply : Params -> list Img -> Mat)
    (dist : Dist) (img_k : list Img) (s : Model) : exn + Mat :=
  if _use_ddp_or_ddp2 trainer then
    '(img_k', idx_unshuffle) ←
      _batch_shuffle_ddp (world_img_k dist) (rank dist) (randperm dist) img_k;
    _batch_unshuffle_ddp (world_key dist) (rank dist)
      (normalize (encoder_apply (encoder_k s) img_k')) idx_unshuffle
  else inr (normalize (encoder_apply (encoder_k s) img_k)).

(** The calls of one training step, in the order of the source. *)
Definition training_calls (hp : HParams) : list Event :=
  [CallMomentumUpdate; CallForward Train]
  ++ (if use_knn hp then [CallKnnApprox] else [])
  ++ [CallDequeueAndEnqueue Train Train; CallCrossEntropy]
  ++ (if use_kmeans hp then [CallKmeansLoss] else [])
  ++ [CallPrecisionAtK; CallLogDict].

(** What the KNN path can see of the module. *)
Definition same_view (s1 s2 : Model) : Prop :=
  encoder_q s1 = encoder_q s2 /\ encoder_k s1 = encoder_k s2 /\
  queue s1 = queue s2.

(** Two runs that return the same and leave the same view. *)
Definition same_run {A} (m1 m2 : M A) (s1 s2 : Model) : Prop :=
  result (m1 s1) = result (m2 s2) /\
  same_view (final (m1 s1)) (final (m2 s2)).

(** A method keeps a property of the module, whether it returns or
    raises. *)
Definition preserves {A} (P : Model -> Prop) (m : M A) : Prop :=
  forall s, P s -> P (final (m s)).



(** [m[i, c]], when the matrix has that entry. *)
Definition entry (m : Mat) (i c : nat) : option real := m !! i ≫= (.!! c).

(** The calls of one validation step, in the order of the source. *)
Definition validation_calls (hp : HParams) : list Event :=
  [CallForward Val]
  ++ (if use_knn hp then [CallKnnApprox] else [])
  ++ [CallDequeueAndEnqueue Val Val; CallCrossEntropy]
  ++ (if use_kmeans hp then [CallKmeansLoss] else [])
  ++ [CallPrecisionAtK].
End Vocabulary.

(** * Properties *)

(** ** Running the monad *)

Section Run.
Context `{Scalar}.

Lemma run_bind {A B} (m : M A) (f : A -> M B) s :
  (m ≫= f) s =
  match result (m s) with
  | inl e => MkOut (inl e) (final (m s)) (calls (m s))
  | inr a => MkOut (result (f a (final (m s)))) (final (f a (final (m s))))
                   (calls (m s) ++ calls (f a (final (m s))))
  end.
Proof. reflexivity. Qed.

Lemma run_bind_ok {A B} (m : M A) (f : A -> M B) s a :
  result (m s) = inr a ->
  (m ≫= f) s =
  MkOut (result (f a (final (m s)))) (final (f a (final (m s))))
        (calls (m s) ++ calls (f a (final (m s)))).
Proof. intros E. rewrite run_bind, E. reflexivity. Qed.

Lemma run_bind_raise {A B} (m : M A) (f : A -> M B) s e :
  result (m s) = inl e ->
  (m ≫= f) s = MkOut (inl e) (final (m s)) (calls (m s)).
Proof. intros E. rewrite run_bind, E. reflexivity. Qed.

Lemma bind_ok_inv {A B} (m : M A) (f : A -> M B) s b :
  result ((m ≫= f) s) = inr b ->
  exists a, result (m s) = inr a /\
            result (f a (final (m s))) = inr b /\
            final ((m ≫= f) s) = final (f a (final (m s))).
Proof.
  rewrite run_bind. destruct (result (m s)) as [e|a]; cbn; [discriminate|].
  intros E. by exists a.
Qed.

Lemma result_bind {A B} (m : M A) (f : A -> M B) s a :
  result (m s) = inr a ->
  result ((m ≫= f) s) = result (f a (final (m s))).
Proof. intros E. by rewrite (run_bind_ok _ _ _ _ E). Qed.

Lemma out_eta {A} (o : Out A) : MkOut (result o) (final o) (calls o) = o.
Proof. destruct o; reflexivity. Qed.
End Run.

Section Preserves.
Context `{Scalar}.
Context (P : Model -> Prop).

Lemma preserves_ret {A} (a : A) : preserves P (mret a).
Proof. intros s Hs; exact Hs. Qed.

Lemma preserves_get : preserves P get.
Proof. intros s Hs; exact Hs. Qed.

Lemma preserves_emit e : preserves P (emit e).
Proof. intros s Hs; exact Hs. Qed.

Lemma preserves_lift {A} (r : exn + A) : preserves P (lift r).
Proof. intros s Hs; exact Hs. Qed.

Lemma preserves_modify f :
  (forall s, P s -> P (f s)) -> preserves P (modify f).
Proof. intros Hf s Hs; apply Hf, Hs. Qed.

Lemma preserves_bind {A B} (m : M A) (f : A -> M B) :
  preserves P m -> (forall a, preserves P (f a)) -> preserves P (m ≫= f).
Proof.
  intros Hm Hf s Hs. rewrite run_bind.
  destruct (result (m s)) as [e|a]; cbn; [by apply Hm|].
  by apply Hf, Hm.
Qed.
End Preserves.

(** Splits a method into its calls, down to the ones that write. *)
Ltac preserves_step :=
  first
    [ apply preserves_ret | apply preserves_get | apply preserves_emit
    | apply preserves_lift
    | apply preserves_bind; [|intros ?]
    | match goal with
      | |- preserves _ (if ?b then _ else _) => destruct b
      | |- preserves _ (match ?x with _ => _ end) => destruct x
      end ].

(** Unfolds the monad down to the [MkOut] it computes. *)
Ltac run :=
  unfold mbind, M_bind, mret, M_ret, emit, get, modify, lift; cbn.

(** ** The enqueue and the momentum update *)

Section Queue.
Context `{Scalar}.
Local Open Scope real_scope.
Context {Img : Type} (hp : HParams) (trainer : Trainer).

Local Abbreviation enqueue := (@_dequeue_and_enqueue _ Img hp trainer).
Local Abbreviation gathered := (@gathered_keys _ Img trainer).

(** The enqueue, once the batch has the configured size: the slice
    assignment, then the pointer. *)
Lemma enqueue_full_batch (dist : Dist) keys qp q s :
  Z.of_nat (length (gathered dist keys)) = batch_size hp ->
  enqueue dist keys qp q s =
  let ks := gathered dist keys in
  let ptr := get_ptr qp s in
  match assign_columns_T (get_queue q s) ptr (ptr + batch_size hp) ks with
  | inl e => MkOut (inl e) s [CallDequeueAndEnqueue qp q]
  | inr m =>
      match py_mod (ptr + batch_size hp) (num_negatives hp) with
      | inl e => MkOut (inl e) (set_queue q m s) [CallDequeueAndEnqueue qp q]
      | inr p => MkOut (inr tt) (set_ptr qp p (set_queue q m s))
                       [CallDequeueAndEnqueue qp q]
      end
  end.
Proof.
  intros E. unfold _dequeue_and_enqueue. run.
  rewrite E, Z.eqb_refl.
  destruct (assign_columns_T _ _ _ _) as [e|m]; cbn; [reflexivity|].
  destruct (py_mod _ _) as [e|p]; reflexivity.
Qed.

(** The enqueue of a batch of another size than the configured one. *)
Lemma enqueue_other_size (dist : Dist) keys qp q s :
  Z.of_nat (length (gathered dist keys)) <> batch_size hp ->
  enqueue dist keys qp q s = MkOut (inr tt) s [CallDequeueAndEnqueue qp q].
Proof.
  intros E. unfold _dequeue_and_enqueue. run.
  apply Z.eqb_neq in E. rewrite E. reflexivity.
Qed.

(** C3.  An enqueue whose batch, after the gather, does not have the
    configured size returns normally and leaves the module as it was:
    both queues and both pointers are unchanged. *)
Theorem enqueue_skips_size_mismatch (dist : Dist) keys qp q s :
  Z.of_nat (length (gathered dist keys)) <> batch_size hp ->
  let o := enqueue dist keys qp q s in
  result o = inr tt /\ final o = s /\
  (forall b, get_queue b (final o) = get_queue b s /\
             get_ptr b (final o) = get_ptr b s).
Proof.
  intros E o. subst o. rewrite (enqueue_other_size dist keys qp q s E).
  cbn. repeat split.
Qed.
End Queue.

Lemma enqueue_skips_size_mismatch_witness :
  let o := _dequeue_and_enqueue hp_queue single alone
             [[1%Q; 0%Q]] Train Train model0 in
  result o = inr tt /\ final o = model0 /\
  (forall b, get_queue b (final o) = get_queue b model0 /\
             get_ptr b (final o) = get_ptr b model0).
Proof.
  apply (enqueue_skips_size_mismatch hp_queue single alone).
  vm_compute. discriminate.
Defined.

Section Momentum.
Context `{Scalar}.
Local Open Scope real_scope.
Context (hp : HParams).

Lemma set_encoder_k_twice p p' s :
  set_encoder_k p (set_encoder_k p' s) = set_encoder_k p s.
Proof. reflexivity. Qed.

Lemma tensor_add_blend (pq pk : Vec) em :
  length pq = length pk ->
  tensor_add (tensor_scale pk em) (tensor_scale pq (f1 ⊖ em))
  = inr (blend em (pq, pk)).
Proof.
  intros E. unfold tensor_add, tensor_scale, same_len.
  rewrite !length_map, E, Nat.eqb_refl. f_equal.
  unfold blend; cbn. revert pk E.
  induction pq as [|q pq IH]; intros [|k pk] E; cbn in *; try congruence.
  f_equal. apply IH. congruence.
Qed.

Lemma set_encoder_k_same s : set_encoder_k (encoder_k s) s = s.
Proof. destruct s; reflexivity. Qed.

Lemma momentum_loop_run qs : forall ks pre s,
  encoder_k s = pre ++ ks ->
  Forall (fun p : Vec * Vec => length p.1 = length p.2) (zip qs ks) ->
  momentum_loop hp (length pre) (zip qs ks) s =
  MkOut (inr tt)
        (set_encoder_k (pre ++ blend_all (encoder_momentum hp) qs ks) s) [].
Proof.
  induction qs as [|q qs IH]; intros ks pre s Hk Hs.
  - cbn. rewrite <- Hk, set_encoder_k_same. reflexivity.
  - destruct ks as [|k ks].
    + cbn. rewrite <- Hk, set_encoder_k_same. reflexivity.
    + cbn [zip zip_with] in *.
      inversion Hs as [|? ? Hp Hr]; subst. cbn in Hp.
      cbn [momentum_loop]. run.
      rewrite (tensor_add_blend _ _ _ Hp). cbn.
      pose (data := blend (encoder_momentum hp) (q, k)).
      assert (Hk' : encoder_k (set_param_k (length pre) data s)
                    = (pre ++ [data]) ++ ks).
      { change (encoder_k (set_param_k (length pre) data s))
          with (<[length pre := data]> (encoder_k s)).
        rewrite Hk. etrans; [apply insert_app_r_alt; lia|].
        rewrite Nat.sub_diag. cbn. by rewrite <- app_assoc. }
      specialize (IH ks (pre ++ [data]) _ Hk' Hr).
      rewrite length_app in IH. cbn in IH.
      replace (length pre + 1)%nat with (S (length pre)) in IH by lia.
      fold data. rewrite IH. cbn.
      unfold set_param_k. rewrite set_encoder_k_twice.
      by rewrite <- app_assoc.
Qed.

Lemma blend_all_lookup em qs : forall ks i pq pk,
  qs !! i = Some pq -> ks !! i = Some pk ->
  blend_all em qs ks !! i = Some (blend em (pq, pk)).
Proof.
  induction qs as [|q qs IH]; intros [|k ks] [|i] pq pk Hq Hk;
    cbn in *; try done.
  - congruence.
  - by apply IH.
Qed.

(** C4.  One momentum update with [m = encoder_momentum] returns nothing,
    leaves the query encoder and the queues as they are, and for every
    (query, key) parameter pair replaces every entry [k] of the key
    parameter by [k*m + q*(1-m)], [q] being the entry of the query
    parameter at that position. *)
Theorem momentum_update_blends s :
  Forall (fun p : Vec * Vec => length p.1 = length p.2)
         (zip (encoder_q s) (encoder_k s)) ->
  let o := _momentum_update_key_encoder hp s in
  let m := encoder_momentum hp in
  result o = inr tt /\
  encoder_q (final o) = encoder_q s /\
  (forall b, get_queue b (final o) = get_queue b s /\
             get_ptr b (final o) = get_ptr b s) /\
  forall i j (pq pk : Vec) (q k : real),
    encoder_q s !! i = Some pq -> encoder_k s !! i = Some pk ->
    pq !! j = Some q -> pk !! j = Some k ->
    exists pk' : Vec,
      encoder_k (final o) !! i = Some pk' /\
      pk' !! j = Some (k ⊗ m ⊕ q ⊗ (f1 ⊖ m)).
Proof.
  intros Hs o m. subst o.
  unfold _momentum_update_key_encoder. run.
  pose proof (momentum_loop_run (encoder_q s) (encoder_k s) [] s eq_refl Hs)
    as E.
  change (length (@nil Vec)) with 0%nat in E. rewrite E.
  cbn. repeat split; try (destruct b; reflexivity).
  intros i j pq pk q k Hq Hk Hqj Hkj.
  eexists. split.
  - apply blend_all_lookup; eassumption.
  - unfold blend; cbn [fst snd].
    etrans; [apply lookup_zip_with|]. rewrite Hqj. cbn. rewrite Hkj.
    reflexivity.
Qed.
End Momentum.

Lemma momentum_update_blends_witness :
  let s := set_encoder_q [[1%Q; 3%Q]] model0 in
  let o := _momentum_update_key_encoder hp_queue s in
  result o = inr tt /\
  encoder_q (final o) = encoder_q s /\
  (forall b, get_queue b (final o) = get_queue b s /\
             get_ptr b (final o) = get_ptr b s) /\
  forall i j (pq pk : Vec) (q k : real),
    encoder_q s !! i = Some pq -> encoder_k s !! i = Some pk ->
    pq !! j = Some q -> pk !! j = Some k ->
    exists pk' : Vec,
      encoder_k (final o) !! i = Some pk' /\
      pk' !! j = Some (fadd (fmul k (1 # 2)%Q) (fmul q (fsub f1 (1 # 2)%Q))).
Proof.
  intros s. apply (momentum_update_blends hp_queue s).
  repeat constructor.
Defined.

(** ** What each method may write *)

Section Frames.
Context `{Scalar}.
Local Open Scope real_scope.
Context {Img : Type} (hp : HParams) (trainer : Trainer).
Context (encoder_apply : Params -> list Img -> Mat).
Context (encoder_kmeans : Mat -> Mat).
Context (cross_entropy : Mat -> Vec -> exn + real).
Context (precision_at_k : Mat -> Vec -> exn + real * real).

Local Abbreviation enqueue := (@_dequeue_and_enqueue _ Img hp trainer).
Local Abbreviation gathered := (@gathered_keys _ Img trainer).
Local Abbreviation train_step :=
  (training_step hp trainer encoder_apply encoder_kmeans cross_entropy
                 precision_at_k).
Local Abbreviation val_step :=
  (validation_step hp trainer encoder_apply encoder_kmeans cross_entropy
                   precision_at_k).

Lemma get_ptr_set_queue b q m s : get_ptr b (set_queue q m s) = get_ptr b s.
Proof. destruct b, q; reflexivity. Qed.

Lemma get_ptr_set_ptr b qp p s :
  get_ptr b (set_ptr qp p s) = if decide (b = qp) then p else get_ptr b s.
Proof. destruct b, qp; reflexivity. Qed.

Lemma get_queue_set_ptr b qp p s : get_queue b (set_ptr qp p s) = get_queue b s.
Proof. destruct b, qp; reflexivity. Qed.

Lemma get_queue_set_queue b q m s :
  get_queue b (set_queue q m s) = if decide (b = q) then m else get_queue b s.
Proof. destruct b, q; reflexivity. Qed.

(** [knn_approx], [kmeans_loss] and [forward] write nothing. *)
Lemma knn_approx_preserves P query : preserves P (knn_approx hp query).
Proof. unfold knn_approx. repeat preserves_step. Qed.

Lemma kmeans_loss_preserves P query key :
  preserves P (kmeans_loss hp encoder_kmeans query key).
Proof. unfold kmeans_loss. repeat preserves_step. Qed.

Lemma forward_preserves P (dist : Dist) img_q img_k b :
  preserves P (forward hp trainer encoder_apply dist img_q img_k b).
Proof.
  unfold forward.
  repeat first [apply knn_approx_preserves | preserves_step].
Qed.

(** The momentum update writes the key encoder only. *)
Lemma momentum_loop_preserves P pairs : forall i,
  (forall p s, P s -> P (set_encoder_k p s)) ->
  preserves P (momentum_loop hp i pairs).
Proof.
  induction pairs as [|[pq pk] rest IH]; intros i HP; cbn [momentum_loop].
  - apply preserves_ret.
  - repeat preserves_step; [|by apply IH].
    apply preserves_modify. intros s Hs. by apply HP.
Qed.

Lemma momentum_update_preserves P :
  (forall p s, P s -> P (set_encoder_k p s)) ->
  preserves P (_momentum_update_key_encoder hp).
Proof.
  intros HP. unfold _momentum_update_key_encoder.
  repeat preserves_step. by apply momentum_loop_preserves.
Qed.

(** The enqueue writes the queue it was given, then the pointer it was
    given. *)
Lemma enqueue_preserves P (dist : Dist) keys qp q :
  (forall m s, P s -> P (set_queue q m s)) ->
  (forall s, P s ->
     num_negatives hp <> 0%Z ->
     P (set_ptr qp ((get_ptr qp s + batch_size hp) mod num_negatives hp)%Z s)) ->
  preserves P (enqueue dist keys qp q).
Proof.
  intros Hq Hp s Hs.
  destruct (decide (Z.of_nat (length (gathered dist keys)) = batch_size hp))
    as [E|E].
  - rewrite (enqueue_full_batch hp trainer dist keys qp q s E). cbn zeta.
    destruct (assign_columns_T _ _ _ _) as [e|m]; [exact Hs|].
    unfold py_mod. destruct (Z.eqb_spec (num_negatives hp) 0) as [E0|E0]; cbn.
    + by apply Hq.
    + rewrite <- (get_ptr_set_queue qp q m s). apply Hp; [by apply Hq|done].
  - by rewrite (enqueue_other_size hp trainer dist keys qp q s E).
Qed.

(** A step writes what its momentum update and its enqueue write. *)
Lemma training_step_preserves P (dist : Dist) img_1 img_2 :
  (forall p s, P s -> P (set_encoder_k p s)) ->
  (forall dist keys, preserves P (enqueue dist keys Train Train)) ->
  preserves P (train_step dist img_1 img_2).
Proof.
  intros Hk He. unfold training_step.
  repeat first
    [ by apply momentum_update_preserves | apply forward_preserves
    | apply kmeans_loss_preserves | apply He | preserves_step ].
Qed.

Lemma validation_step_preserves P (dist : Dist) img_1 img_2 :
  (forall dist keys, preserves P (enqueue dist keys Val Val)) ->
  preserves P (val_step dist img_1 img_2).
Proof.
  intros He. unfold validation_step.
  repeat first
    [ apply forward_preserves | apply kmeans_loss_preserves | apply He
    | preserves_step ].
Qed.
(** A training step leaves the validation queue and pointer as they are,
    a validation step the training queue, its pointer and both encoders. *)
Lemma steps_write_own_buffers (dist : Dist) img_1 img_2 s :
  (get_queue Val (final (train_step dist img_1 img_2 s)) = get_queue Val s /\
   get_ptr Val (final (train_step dist img_1 img_2 s)) = get_ptr Val s) /\
  (get_queue Train (final (val_step dist img_1 img_2 s)) = get_queue Train s /\
   get_ptr Train (final (val_step dist img_1 img_2 s)) = get_ptr Train s /\
   encoder_q (final (val_step dist img_1 img_2 s)) = encoder_q s /\
   encoder_k (final (val_step dist img_1 img_2 s)) = encoder_k s).
Proof.
  split.
  - apply (training_step_preserves
             (fun s' => get_queue Val s' = get_queue Val s /\
                        get_ptr Val s' = get_ptr Val s)); [done| |done].
    intros d k. apply enqueue_preserves.
    + intros m s' Hs'. by rewrite get_queue_set_queue, get_ptr_set_queue.
    + intros s' Hs' _. by rewrite get_queue_set_ptr, get_ptr_set_ptr.
  - apply (validation_step_preserves
             (fun s' => get_queue Train s' = get_queue Train s /\
                        get_ptr Train s' = get_ptr Train s /\
                        encoder_q s' = encoder_q s /\
                        encoder_k s' = encoder_k s)); [|done].
    intros d k. apply enqueue_preserves.
    + intros m s' Hs'. by rewrite get_queue_set_queue, get_ptr_set_queue.
    + intros s' Hs' _. by rewrite get_queue_set_ptr, get_ptr_set_ptr.
Qed.
End Frames.

(** ** The slice assignment of the enqueue *)

Section Assign.
Context `{Scalar}.
Local Open Scope real_scope.

Lemma ncols_shape (m : Mat) D N : has_shape m D N -> (0 < D)%nat -> ncols m = N.
Proof.
  intros [Hl Hr] HD. destruct m as [|r m]; cbn in *; [lia|].
  by inversion Hr.
Qed.

Lemma slice_bound_id n x : (0 <= x <= n)%Z -> slice_bound n x = x.
Proof. intros Hx. unfold slice_bound. destruct (Z.ltb_spec x 0); lia. Qed.

Lemma slice_bound_clamp n x : (0 <= n <= x)%Z -> slice_bound n x = n.
Proof. intros Hx. unfold slice_bound. destruct (Z.ltb_spec x 0); lia. Qed.

(** A batch that fits before the end of the queue is written in place. *)
Lemma assign_columns_T_fits (queue keys : Mat) D N (ptr : Z) :
  has_shape queue D N -> (0 < D)%nat ->
  Forall (fun k => length k = D) keys ->
  (0 <= ptr)%Z -> (ptr + Z.of_nat (length keys) <= Z.of_nat N)%Z ->
  assign_columns_T queue ptr (ptr + Z.of_nat (length keys)) keys
  = inr (write_columns queue (Z.to_nat ptr) keys).
Proof.
  intros Hq HD Hk Hp Hfit. unfold assign_columns_T.
  rewrite (ncols_shape _ _ _ Hq HD).
  rewrite !slice_bound_id by lia.
  replace (Z.to_nat (ptr + Z.of_nat (length keys)) - Z.to_nat ptr)%nat
    with (length keys) by lia.
  rewrite Nat.eqb_refl. cbn [orb andb].
  destruct Hq as [Hl Hr].
  replace (forallb _ keys) with true; cycle 1.
  { symmetry. apply forallb_forall. intros k Hin.
    rewrite Forall_forall in Hk.
    rewrite (Hk k) by (by apply list_elem_of_In).
    by rewrite Hl, Nat.eqb_refl. }
  f_equal. unfold write_columns. apply imap_ext. intros i row Hi. cbn beta.
  f_equal. f_equal.
  apply list_eq. intros j.
  rewrite !list_lookup_fmap.
  destruct (keys !! j) as [k|] eqn:Ej; cbn.
  - rewrite lookup_seq_lt by (by eapply lookup_lt_Some). cbn.
    f_equal. rewrite (nth_lookup_Some _ _ _ _ Ej).
    rewrite Forall_forall in Hk.
    rewrite (Hk k) by (by eapply list_elem_of_lookup_2).
    by rewrite Hl, Nat.eqb_refl.
  - rewrite lookup_seq_ge; [done|]. by apply lookup_ge_None.
Qed.

(** A batch that would run past the end of the queue is refused. *)
Lemma assign_columns_T_only_fits (queue keys m : Mat) D N (ptr : Z) :
  has_shape queue D N -> (0 < D)%nat ->
  (0 <= ptr < Z.of_nat N)%Z ->
  assign_columns_T queue ptr (ptr + Z.of_nat (length keys)) keys = inr m ->
  (ptr + Z.of_nat (length keys) <= Z.of_nat N)%Z.
Proof.
  intros Hq HD Hp. unfold assign_columns_T.
  rewrite (ncols_shape _ _ _ Hq HD).
  rewrite (slice_bound_id _ ptr) by lia.
  destruct (Z.le_gt_cases (ptr + Z.of_nat (length keys)) (Z.of_nat N))
    as [Hle|Hgt]; [done|].
  rewrite slice_bound_clamp by lia.
  destruct (Nat.eqb_spec (length keys) (Z.to_nat (Z.of_nat N) - Z.to_nat ptr))
    as [E|_]; [lia|].
  destruct (Nat.eqb_spec (length keys) 1) as [E|_]; [lia|].
  cbn. discriminate.
Qed.

Lemma write_columns_shape (queue keys : Mat) D N ptr :
  has_shape queue D N -> (ptr + length keys <= N)%nat ->
  has_shape (write_columns queue ptr keys) D N.
Proof.
  intros [Hl Hr] Hfit. unfold write_columns. split.
  - by rewrite length_imap.
  - apply Forall_forall. intros row Hin.
    apply list_elem_of_lookup_1 in Hin as [i Hi].
    rewrite list_lookup_imap in Hi.
    destruct (queue !! i) as [r|] eqn:Er; [|done]. cbn in Hi.
    injection Hi as <-.
    assert (length r = N).
    { rewrite Forall_forall in Hr. apply Hr. by eapply list_elem_of_lookup_2. }
    rewrite !length_app, length_take, length_map, length_drop. lia.
Qed.

(** Entry [(i, c)] of the queue after the write. *)
Lemma write_columns_lookup (queue keys : Mat) D N ptr i c row :
  has_shape queue D N -> (ptr + length keys <= N)%nat ->
  queue !! i = Some row -> (c < N)%nat ->
  exists row', write_columns queue ptr keys !! i = Some row' /\
    row' !! c =
    if decide (ptr <= c < ptr + length keys)%nat
    then (fun k => nth i k f0) <$> keys !! (c - ptr)%nat
    else row !! c.
Proof.
  intros [Hl Hr] Hfit Hi Hc. unfold write_columns.
  rewrite list_lookup_imap, Hi. cbn. eexists; split; [reflexivity|].
  assert (length row = N).
  { rewrite Forall_forall in Hr. apply Hr. by eapply list_elem_of_lookup_2. }
  case_decide as Hin.
  - rewrite lookup_app_r by (rewrite length_take; lia).
    rewrite length_take, Nat.min_l by lia.
    rewrite lookup_app_l by (rewrite length_map; lia).
    by rewrite list_lookup_fmap.
  - destruct (decide (c < ptr)%nat).
    + rewrite lookup_app_l by (rewrite length_take; lia).
      by rewrite lookup_take_lt.
    + rewrite lookup_app_r by (rewrite length_take; lia).
      rewrite length_take, Nat.min_l by lia.
      rewrite lookup_app_r by (rewrite length_map; lia).
      rewrite length_map, lookup_drop. f_equal. lia.
Qed.
End Assign.

(** ** The write pointer *)

Section Pointer.
Context `{Scalar}.
Local Open Scope real_scope.
Context {Img : Type} (hp : HParams) (trainer : Trainer).
Context (encoder_apply : Params -> list Img -> Mat).
Context (encoder_kmeans : Mat -> Mat).
Context (cross_entropy : Mat -> Vec -> exn + real).
Context (precision_at_k : Mat -> Vec -> exn + real * real).

Local Abbreviation enqueue := (@_dequeue_and_enqueue _ Img hp trainer).
Local Abbreviation gathered := (@gathered_keys _ Img trainer).
Local Abbreviation enqueue_many := (@enqueue_all _ Img hp trainer).
Local Abbreviation reach :=
  (reachable hp trainer encoder_apply encoder_kmeans cross_entropy
             precision_at_k).
Local Abbreviation N := (num_negatives hp).
Local Abbreviation bs := (batch_size hp).

(** A property of the buffers that the enqueue keeps holds in every
    reachable state. *)
Lemma reachable_invariant (P : Model -> Prop) s0 :
  P s0 ->
  (forall p s, P s -> P (set_encoder_q p s)) ->
  (forall p s, P s -> P (set_encoder_k p s)) ->
  (forall (dist : Dist) keys b, preserves P (enqueue dist keys b b)) ->
  forall s, reach s0 s -> P s.
Proof.
  intros H0 Hq Hk He s Hs. induction Hs as [|s p _ IH|s _ IH|s d k b _ IH
                                            |s d i1 i2 _ IH|s d i1 i2 _ IH].
  - exact H0.
  - by apply Hq.
  - by apply momentum_update_preserves.
  - by apply He.
  - apply training_step_preserves; [exact Hk| |exact IH].
    intros; apply He.
  - apply validation_step_preserves; [|exact IH].
    intros; apply He.
Qed.

Lemma enqueue_keeps_range (dist : Dist) keys qp q :
  (0 < N)%Z -> preserves (ptr_in_range hp) (enqueue dist keys qp q).
Proof.
  intros HN. apply enqueue_preserves.
  - intros m s Hs b. rewrite get_ptr_set_queue. apply Hs.
  - intros s Hs _ b. rewrite get_ptr_set_ptr. case_decide.
    + apply Z.mod_pos_bound, HN.
    + apply Hs.
Qed.

(** The enqueue of a full batch that fits: the keys go to the columns from
    the pointer on, the pointer moves by the batch size. *)
Lemma enqueue_writes (dist : Dist) keys qp q s D :
  (0 < N)%Z ->
  Z.of_nat (length (gathered dist keys)) = bs ->
  has_shape (get_queue q s) D (Z.to_nat N) -> (0 < D)%nat ->
  Forall (fun k => length k = D) (gathered dist keys) ->
  (0 <= get_ptr qp s)%Z -> (get_ptr qp s + bs <= N)%Z ->
  enqueue dist keys qp q s =
  MkOut (inr tt)
        (set_ptr qp ((get_ptr qp s + bs) mod N)%Z
           (set_queue q (write_columns (get_queue q s)
                                       (Z.to_nat (get_ptr qp s))
                                       (gathered dist keys)) s))
        [CallDequeueAndEnqueue qp q].
Proof.
  intros HN E Hq HD Hk Hp Hfit.
  rewrite (enqueue_full_batch hp trainer dist keys qp q s E). cbn zeta.
  assert (Ha : assign_columns_T (get_queue q s) (get_ptr qp s)
                 (get_ptr qp s + bs) (gathered dist keys)
               = inr (write_columns (get_queue q s) (Z.to_nat (get_ptr qp s))
                                    (gathered dist keys))).
  { rewrite <- E. apply (assign_columns_T_fits _ _ D (Z.to_nat N)); try done.
    lia. }
  rewrite Ha.
  unfold py_mod. destruct (Z.eqb_spec N 0) as [E0|E0]; [lia|]. reflexivity.
Qed.

Lemma enqueue_advances (dist : Dist) keys qp q s :
  Z.of_nat (length (gathered dist keys)) = bs ->
  result (enqueue dist keys qp q s) = inr tt ->
  get_ptr qp (final (enqueue dist keys qp q s))
  = ((get_ptr qp s + bs) mod N)%Z.
Proof.
  intros E. rewrite (enqueue_full_batch hp trainer dist keys qp q s E).
  cbn zeta. destruct (assign_columns_T _ _ _ _) as [e|m]; [discriminate|].
  unfold py_mod. destruct (Z.eqb_spec N 0) as [E0|E0]; cbn; [discriminate|].
  intros _. rewrite get_ptr_set_ptr. by rewrite decide_True.
Qed.

Lemma enqueue_all_advances b batches : forall s,
  (0 < N)%Z -> (0 <= get_ptr b s < N)%Z ->
  Forall (fun dk : Dist * Mat =>
            Z.of_nat (length (gathered dk.1 dk.2)) = bs) batches ->
  result (enqueue_many b batches s) = inr tt ->
  get_ptr b (final (enqueue_many b batches s))
  = ((get_ptr b s + Z.of_nat (length batches) * bs) mod N)%Z.
Proof.
  induction batches as [|[dist keys] rest IH]; intros s HN Hp Hf Hr.
  - cbn. rewrite Z.add_0_r, Z.mod_small; done.
  - inversion Hf as [|? ? Hfull Hrest]; subst. cbn in Hfull.
    cbn [enqueue_all] in *.
    apply bind_ok_inv in Hr as ([] & Hr1 & Hr2 & ->).
    pose proof (enqueue_advances dist keys b b s Hfull Hr1) as Hadv.
    rewrite IH; [|done| |done|done].
    + rewrite Hadv, Zplus_mod_idemp_l. f_equal. cbn [length]. lia.
    + rewrite Hadv. by apply Z.mod_pos_bound.
Qed.

Lemma mod_keeps_multiples (a : Z) :
  (0 < N)%Z -> (bs | N)%Z -> (bs | a)%Z -> (bs | a mod N)%Z.
Proof.
  intros HN HbN Hba. rewrite Z.mod_eq by lia.
  apply Z.divide_sub_r; [done|]. by apply Z.divide_mul_l.
Qed.

Lemma multiple_fits (p : Z) :
  (0 < bs)%Z -> (bs | N)%Z -> (bs | p)%Z -> (0 <= p < N)%Z -> (p + bs <= N)%Z.
Proof.
  intros Hb [n Hn] [a Ha] Hp.
  assert (a < n)%Z by (apply (Z.mul_lt_mono_pos_r bs); lia).
  rewrite Hn, Ha. replace (a * bs + bs)%Z with ((a + 1) * bs)%Z by lia.
  apply Z.mul_le_mono_nonneg_r; lia.
Qed.

Lemma enqueue_all_returns b batches D : forall s,
  (0 < N)%Z -> (0 < bs)%Z -> (bs | N)%Z -> (0 < D)%nat ->
  (bs | get_ptr b s)%Z -> (0 <= get_ptr b s < N)%Z ->
  has_shape (get_queue b s) D (Z.to_nat N) ->
  Forall (fun dk : Dist * Mat =>
            Z.of_nat (length (gathered dk.1 dk.2)) = bs /\
            Forall (fun k => length k = D) (gathered dk.1 dk.2)) batches ->
  result (enqueue_many b batches s) = inr tt.
Proof.
  induction batches as [|[dist keys] rest IH];
    intros s HN Hb HbN HD Hdiv Hp Hq Hf; [reflexivity|].
  inversion Hf as [|? ? [Hfull Hw] Hrest]; subst. cbn in Hfull, Hw.
  cbn [enqueue_all].
  pose proof (multiple_fits _ Hb HbN Hdiv Hp) as Hfit.
  pose proof (enqueue_writes dist keys b b s D HN Hfull Hq HD Hw
                (proj1 Hp) Hfit) as E.
  rewrite (run_bind_ok _ _ _ tt) by (by rewrite E). rewrite E. cbn.
  apply IH; try done.
  - rewrite get_ptr_set_ptr, decide_True by done.
    apply mod_keeps_multiples; [done|done|].
    apply Z.divide_add_r; [done|apply Z.divide_refl].
  - rewrite get_ptr_set_ptr, decide_True by done.
    by apply Z.mod_pos_bound.
  - rewrite get_queue_set_ptr, get_queue_set_queue, decide_True by done.
    apply write_columns_shape; [done|lia].
Qed.
(** C5.  With a queue of positive capacity [N], both write pointers stay
    within [0, N) in every state the module reaches; an enqueue that
    writes its batch moves the pointer it was given by the batch size
    modulo [N]; and [B] full batches enqueued from pointer 0 leave it at
    [(B * batch_size) mod N].  The [B] enqueues do return when [N] is a
    multiple of the batch size and the keys have the width of the
    queue. *)
Theorem pointer_in_range_and_advances :
  (0 < N)%Z ->
  (forall params q0 vq0 s,
     reach (init params q0 vq0) s -> ptr_in_range hp s) /\
  (forall (dist : Dist) keys qp q s,
     Z.of_nat (length (gathered dist keys)) = bs ->
     result (enqueue dist keys qp q s) = inr tt ->
     get_ptr qp (final (enqueue dist keys qp q s))
     = ((get_ptr qp s + bs) mod N)%Z) /\
  (forall b (batches : list (Dist * Mat)) s,
     get_ptr b s = 0%Z ->
     Forall (fun dk => Z.of_nat (length (gathered dk.1 dk.2)) = bs) batches ->
     result (enqueue_many b batches s) = inr tt ->
     get_ptr b (final (enqueue_many b batches s))
     = ((Z.of_nat (length batches) * bs) mod N)%Z) /\
  (forall b (batches : list (Dist * Mat)) s D,
     get_ptr b s = 0%Z -> (bs | N)%Z -> (0 < D)%nat ->
     has_shape (get_queue b s) D (Z.to_nat N) ->
     Forall (fun dk => Z.of_nat (length (gathered dk.1 dk.2)) = bs /\
                       Forall (fun k => length k = D) (gathered dk.1 dk.2))
            batches ->
     result (enqueue_many b batches s) = inr tt).
Proof.
  intros HN. split; [|split; [|split]].
  - intros params q0 vq0 s Hs.
    apply (reachable_invariant (ptr_in_range hp) (init params q0 vq0));
      try done.
    + intros []; cbn; lia.
    + intros. by apply enqueue_keeps_range.
  - intros. by apply enqueue_advances.
  - intros b batches s Hp Hf Hr.
    rewrite enqueue_all_advances; [|done|lia|done|done].
    by rewrite Hp.
  - intros b batches s D Hp HbN HD Hq Hf.
    destruct batches as [|dk rest]; [reflexivity|].
    assert (0 < bs)%Z.
    { inversion Hf as [|? ? [Hfull _] _]; subst.
      destruct (decide (bs = 0%Z)) as [E0|]; [|lia].
      rewrite E0 in HbN. apply Z.divide_0_l in HbN. lia. }
    apply (enqueue_all_returns b _ D); try done.
    + rewrite Hp. apply Z.divide_0_r.
    + lia.
Qed.

(** The pointers reached when every enqueue writes a full batch of zero
    keys into the training queue. *)
Lemma reach_multiples params q0 vq0 D :
  (0 < N)%Z -> (0 < bs)%Z -> (0 < D)%nat ->
  has_shape q0 D (Z.to_nat N) ->
  (forall s b, reach (init params q0 vq0) s -> (get_ptr b s + bs <= N)%Z) ->
  forall k : nat, (Z.of_nat k * bs < N)%Z ->
  exists s, reach (init params q0 vq0) s /\
            get_ptr Train s = (Z.of_nat k * bs)%Z /\
            has_shape (get_queue Train s) D (Z.to_nat N).
Proof.
  intros HN Hb HD Hq Hall k. induction k as [|k IH]; intros Hk.
  - exists (init params q0 vq0). split; [constructor|]. split; [reflexivity|done].
  - destruct IH as (s & Hs & Hp & Hsh); [lia|].
    pose (dist := {| rank := 0; world_img_k := @nil (list Img); randperm := [];
                     world_key := []; world_keys := [[]] |}).
    pose (keys := replicate (Z.to_nat bs) (replicate D f0)).
    assert (Hg : gathered dist keys = keys).
    { unfold gathered_keys. destruct (_use_ddp_or_ddp2 trainer); [|done].
      cbn. apply app_nil_r. }
    assert (Hfull : Z.of_nat (length (gathered dist keys)) = bs).
    { rewrite Hg. unfold keys. rewrite length_replicate. lia. }
    assert (Hw : Forall (fun k => length k = D) (gathered dist keys)).
    { rewrite Hg. apply Forall_replicate. apply length_replicate. }
    pose proof (Hall s Train Hs) as Hfit.
    pose proof (enqueue_writes dist keys Train Train s D HN Hfull Hsh HD Hw)
      as E.
    rewrite Hp in E. specialize (E ltac:(lia) ltac:(lia)).
    exists (final (enqueue dist keys Train Train s)).
    split; [by constructor|]. rewrite E. cbn. split.
    + rewrite Z.mod_small; lia.
    + apply write_columns_shape; [done|].
      rewrite Hg. unfold keys. rewrite length_replicate. lia.
Qed.

(** C10.  The enqueue stores a full batch in the columns
    [ptr, ptr + batch_size) by one slice assignment ([write_columns]) and
    never continues at column 0: from a pointer within the queue it
    returns only if [ptr + batch_size <= N], and it does return then.
    Every reachable pointer leaves that room exactly when [N] is a
    multiple of the batch size.  ([N] and the batch size positive, the
    queues of shape [D x N] with [D] positive.) *)
Theorem enqueue_writes_one_slice D :
  (0 < N)%Z -> (0 < bs)%Z -> (0 < D)%nat ->
  (forall (dist : Dist) keys qp q s,
     Z.of_nat (length (gathered dist keys)) = bs ->
     has_shape (get_queue q s) D (Z.to_nat N) ->
     (0 <= get_ptr qp s < N)%Z ->
     result (enqueue dist keys qp q s) = inr tt ->
     (get_ptr qp s + bs <= N)%Z /\
     (Forall (fun k => length k = D) (gathered dist keys) ->
      get_queue q (final (enqueue dist keys qp q s))
      = write_columns (get_queue q s) (Z.to_nat (get_ptr qp s))
                      (gathered dist keys))) /\
  (forall (dist : Dist) keys qp q s,
     Z.of_nat (length (gathered dist keys)) = bs ->
     has_shape (get_queue q s) D (Z.to_nat N) ->
     Forall (fun k => length k = D) (gathered dist keys) ->
     (0 <= get_ptr qp s)%Z -> (get_ptr qp s + bs <= N)%Z ->
     result (enqueue dist keys qp q s) = inr tt) /\
  (forall params q0 vq0,
     has_shape q0 D (Z.to_nat N) -> has_shape vq0 D (Z.to_nat N) ->
     ((forall s b, reach (init params q0 vq0) s ->
                   (get_ptr b s + bs <= N)%Z)
      <-> (bs | N)%Z)).
Proof.
  intros HN Hb HD. split; [|split].
  - intros dist keys qp q s Hfull Hq Hp Hr.
    assert (Hfit : (get_ptr qp s + bs <= N)%Z).
    { rewrite (enqueue_full_batch hp trainer dist keys qp q s Hfull) in Hr.
      cbn zeta in Hr.
      destruct (assign_columns_T _ _ _ _) as [e|m] eqn:Ea; [discriminate|].
      rewrite <- Hfull in Ea.
      apply (assign_columns_T_only_fits _ _ _ D (Z.to_nat N)) in Ea;
        [lia|done|done|lia]. }
    split; [exact Hfit|]. intros Hw.
    rewrite (enqueue_writes dist keys qp q s D) by (done || lia).
    cbn. by rewrite get_queue_set_ptr, get_queue_set_queue, decide_True.
  - intros dist keys qp q s Hfull Hq Hw Hp Hfit.
    by rewrite (enqueue_writes dist keys qp q s D).
  - intros params q0 vq0 Hq0 Hvq0. split.
    + intros Hall.
      destruct (decide (N mod bs = 0)%Z) as [E|E].
      { apply Z.mod_divide; [lia|done]. }
      exfalso.
      pose proof (Z.div_mod N bs ltac:(lia)) as Hdm.
      pose proof (Z.mod_pos_bound N bs Hb) as Hr.
      pose proof (Z.div_pos N bs ltac:(lia) Hb) as Hdiv.
      destruct (reach_multiples params q0 vq0 D HN Hb HD Hq0 Hall
                  (Z.to_nat (N / bs))) as (s & Hs & Hp & _); [lia|].
      pose proof (Hall s Train Hs). lia.
    + intros HbN s b Hs.
      assert (HP : forall b, (bs | get_ptr b s)%Z /\ (0 <= get_ptr b s < N)%Z).
      { apply (reachable_invariant
                 (fun s => forall b, (bs | get_ptr b s)%Z /\
                                     (0 <= get_ptr b s < N)%Z)
                 (init params q0 vq0)); try done.
        - intros []; cbn; (split; [apply Z.divide_0_r|lia]).
        - intros dist keys b'. apply enqueue_preserves.
          + intros m s' Hs' b''. rewrite get_ptr_set_queue. apply Hs'.
          + intros s' Hs' _ b''. rewrite get_ptr_set_ptr. case_decide.
            * split; [|by apply Z.mod_pos_bound].
              apply mod_keeps_multiples; [done|done|].
              apply Z.divide_add_r; [apply Hs'|apply Z.divide_refl].
            * apply Hs'. }
      destruct (HP b). by apply multiple_fits.
Qed.
End Pointer.


(** ** The KNN miner *)

Section Traverse.
Context {X Y : Type}.

Lemma traverse_ok (f : X -> exn + Y) (Q : Y -> Prop) l :
  Forall (fun x => exists y, f x = inr y /\ Q y) l ->
  exists ys, traverse f l = inr ys /\ length ys = length l /\ Forall Q ys.
Proof.
  induction 1 as [|x l (y & Ey & Hy) _ (ys & Eys & Hl & Hq)]; cbn.
  - by exists [].
  - exists (y :: ys). rewrite Ey. cbn. rewrite Eys. cbn.
    repeat split; [by f_equal|by constructor].
Qed.

Lemma traverse_inr_lookup (f : X -> exn + Y) l : forall ys,
  traverse f l = inr ys ->
  length ys = length l /\
  forall i x, l !! i = Some x -> exists y, ys !! i = Some y /\ f x = inr y.
Proof.
  induction l as [|x l IH]; intros ys E; cbn in E.
  - injection E as <-. split; [done|]. intros i x Hi. done.
  - destruct (f x) as [e|y] eqn:Ey; cbn in E; [discriminate|].
    destruct (traverse f l) as [e|ys'] eqn:Eys; cbn in E; [discriminate|].
    injection E as <-. destruct (IH ys' eq_refl) as [Hl Hlook].
    split; [cbn; by f_equal|].
    intros [|i] x' Hi; cbn in *.
    + injection Hi as <-. by exists y.
    + by apply Hlook.
Qed.
End Traverse.

Section Knn.
Context `{Scalar}.
Local Open Scope real_scope.
Context (hp : HParams).

Lemma insert_by_distance_perm x l : insert_by_distance x l ≡ₚ x :: l.
Proof.
  induction l as [|y l IH]; cbn; [done|].
  destruct (fltb y.2 x.2); [|done].
  rewrite IH. apply Permutation_swap.
Qed.

Lemma sort_by_distance_perm l : foldr insert_by_distance [] l ≡ₚ l.
Proof.
  induction l as [|x l IH]; cbn; [done|].
  by rewrite insert_by_distance_perm, IH.
Qed.

Lemma imap_pair_fst (d : Vec) : forall k,
  (imap (fun j x => ((k + j)%nat, x)) d).*1 = seq k (length d).
Proof.
  induction d as [|x d IH]; intros k; cbn; [done|].
  rewrite Nat.add_0_r. f_equal.
  rewrite <- (IH (S k)). f_equal. apply imap_ext. intros; cbn.
  f_equal. lia.
Qed.

Lemma sorted_by_distance_fst (d : Vec) :
  (foldr insert_by_distance [] (imap (fun j x => (j, x)) d)).*1
  ≡ₚ seq 0 (length d).
Proof. rewrite sort_by_distance_perm. by rewrite <- (imap_pair_fst d 0). Qed.

(** With enough candidates nothing is left over. *)
Lemma argKmin_enough K (d : Vec) :
  (K <= length d)%nat ->
  argKmin K d
  = take K (foldr insert_by_distance [] (imap (fun j x => (j, x)) d)).*1.
Proof.
  intros HK. unfold argKmin.
  replace (K - length d)%nat with 0%nat by lia. apply app_nil_r.
Qed.

Lemma argKmin_length K (d : Vec) : length (argKmin K d) = K.
Proof.
  unfold argKmin. pose proof (sorted_by_distance_fst d) as Hp.
  apply Permutation_length in Hp. rewrite length_seq in Hp.
  rewrite length_app, length_take, length_replicate. lia.
Qed.

Lemma argKmin_spec K (d : Vec) :
  (K <= length d)%nat ->
  length (argKmin K d) = K /\
  Forall (fun j => (j < length d)%nat) (argKmin K d).
Proof.
  intros HK. split; [apply argKmin_length|].
  rewrite (argKmin_enough K d HK).
  apply Forall_take. rewrite (sorted_by_distance_fst d). apply Forall_forall.
  intros j Hj. apply elem_of_seq in Hj. lia.
Qed.

Lemma argKmin_NoDup K (d : Vec) : (K <= length d)%nat -> NoDup (argKmin K d).
Proof.
  intros HK. rewrite (argKmin_enough K d HK).
  eapply sublist_NoDup; [|apply sublist_take].
  rewrite (sorted_by_distance_fst d). apply NoDup_seq.
Qed.






Lemma index_rows_ok (x : Mat) (idx : list nat) D :
  Forall (fun r => length r = D) x ->
  Forall (fun j => (j < length x)%nat) idx ->
  exists ys, index_rows x idx = inr ys /\ has_shape ys (length idx) D.
Proof.
  intros Hx Hidx.
  destruct (traverse_ok (item x) (fun r => length r = D) idx)
    as (ys & E & Hl & Hq).
  - eapply Forall_impl; [exact Hidx|]. intros j Hj. cbn in Hj.
    destruct (lookup_lt_is_Some_2 x j Hj) as [r Hr].
    exists r. unfold item. rewrite Hr. split; [done|].
    rewrite Forall_forall in Hx. apply Hx. by eapply list_elem_of_lookup_2.
  - exists ys. by repeat split.
Qed.

(** The gather of [knn_approx], whatever the distance. *)
Lemma knn_gather_shape (dist : Vec -> Vec -> real) (queue' query : Mat) K D :
  (K <= length queue')%nat ->
  Forall (fun r => length r = D) queue' ->
  exists t,
    traverse (index_rows queue')
             (map (fun x => argKmin K (map (dist x) queue')) query) = inr t /\
    has_shape3 t (length query) K D.
Proof.
  intros HK Hq.
  destruct (traverse_ok (index_rows queue') (fun m => has_shape m K D)
              (map (fun x => argKmin K (map (dist x) queue')) query))
    as (t & E & Hl & Ht).
  - apply Forall_fmap, Forall_forall. intros x _. cbn.
    destruct (argKmin_spec K (map (dist x) queue')) as [HlK Hlt].
    { by rewrite length_map. }
    rewrite length_map in Hlt.
    destruct (index_rows_ok queue' _ D Hq Hlt) as (ys & Ey & Hy).
    exists ys. split; [done|]. by rewrite HlK in Hy.
  - exists t. split; [done|]. split; [|done].
    by rewrite Hl, length_map.
Qed.

Lemma transpose_shape (m : Mat) D N :
  has_shape m D N -> (0 < D)%nat -> has_shape (transpose m) N D.
Proof.
  intros Hm HD. unfold transpose. rewrite (ncols_shape _ _ _ Hm HD).
  destruct Hm as [Hl _]. split.
  - by rewrite length_map, length_seq.
  - apply Forall_fmap, Forall_forall. intros j _. cbn.
    unfold col. by rewrite length_map.
Qed.

Lemma distance_unsupported name :
  ~ In name supported_metrics -> distance name = None.
Proof.
  intros Hn. unfold distance.
  repeat match goal with
  | |- context [String.eqb name ?m] =>
      destruct (String.eqb_spec name m) as [->|_];
        [exfalso; apply Hn; cbn; tauto|]
  end.
  reflexivity.
Qed.

Lemma distance_supported name :
  In name supported_metrics -> exists d, distance name = Some d.
Proof.
  cbn. intros [<-|[<-|[<-|[<-|[<-|[]]]]]]; cbn; eauto.
Qed.
(** [knn_approx] on a batch that is not empty, against a queue of the
    width of the queries, with [0 < topk]: the gather of the places
    [argKmin] returns for each query. *)
Lemma knn_approx_gathers query s B D N d :
  distance (metric hp) = Some d ->
  has_shape (queue s) D N -> (0 < D)%nat -> has_shape query B D ->
  (0 < B)%nat -> (0 < topk hp)%Z ->
  result (knn_approx hp query s)
  = traverse (index_rows (transpose (queue s)))
      (map (fun x => argKmin (Z.to_nat (topk hp))
                             (map (d x) (transpose (queue s)))) query).
Proof.
  intros Ed Hq HD Hquery HB Hk.
  unfold knn_approx, mbind, M_bind, emit, get, lift.
  cbn [result final calls]. rewrite Ed.
  replace (forallb _ query) with true; cycle 1.
  { symmetry. apply forallb_forall. intros x Hx.
    destruct Hquery as [_ Hw]. rewrite Forall_forall in Hw.
    unfold same_len. rewrite (Hw x) by (by apply list_elem_of_In).
    destruct Hq as [-> _]. apply Nat.eqb_refl. }
  replace (length (queue s) =? 0)%nat with false; cycle 1.
  { symmetry. apply Nat.eqb_neq. destruct Hq as [-> _]. lia. }
  rewrite orb_true_r. cbn [andb negb].
  replace (topk hp <? 0)%Z with false by (symmetry; apply Z.ltb_ge; lia).
  replace (topk hp =? 0)%Z with false by (symmetry; apply Z.eqb_neq; lia).
  replace (length query =? 0)%nat with false; [reflexivity|].
  symmetry. apply Nat.eqb_neq. destruct Hquery as [-> _]. lia.
Qed.


Lemma knn_approx_returns query s B D N :
  In (metric hp) supported_metrics ->
  has_shape (queue s) D N -> (0 < D)%nat -> has_shape query B D ->
  (0 < B)%nat -> (0 < topk hp <= Z.of_nat N)%Z ->
  exists t, result (knn_approx hp query s) = inr t /\
            has_shape3 t B (Z.to_nat (topk hp)) D.
Proof.
  intros Hin Hq HD Hquery HB Hk.
  destruct (distance_supported _ Hin) as [d Ed].
  pose proof (transpose_shape _ _ _ Hq HD) as [HlT HrT].
  destruct (knn_gather_shape d (transpose (queue s)) query
              (Z.to_nat (topk hp)) D) as (t & Et & Ht); [lia|done|].
  exists t. split; [|destruct Hquery as [<- _]; exact Ht].
  rewrite (knn_approx_gathers query s B D N d) by (done || lia).
  exact Et.
Qed.


End Knn.




(** ** The distributed shuffle *)

Section Argsort.
Lemma sorted_seq j n : Sorted le (seq j n).
Proof.
  revert j. induction n as [|n IH]; intros j; cbn; constructor; [apply IH|].
  destruct n; cbn; constructor. lia.
Qed.

(** On a permutation of [0, n) [argsort] is the inverse permutation. *)
Lemma argsort_spec (perm : list nat) n :
  perm ≡ₚ seq 0 n ->
  length (argsort perm) = n /\
  forall k, (k < n)%nat ->
    exists j, argsort perm !! k = Some j /\ perm !! j = Some k.
Proof.
  intros Hp. unfold argsort.
  assert (Hn : length perm = n).
  { apply Permutation_length in Hp. by rewrite length_seq in Hp. }
  rewrite Hn.
  set (l := zip perm (seq 0 n)).
  pose proof (merge_sort_Permutation by_value l) as Hsl.
  pose proof (Sorted_merge_sort by_value l) as Hsorted.
  set (sl := merge_sort by_value l) in *.
  assert (Hfst : sl.*1 = seq 0 n).
  { apply (Sorted_unique le).
    - eapply Sorted_fmap; [|exact Hsorted]. intros a b Hab. exact Hab.
    - apply sorted_seq.
    - rewrite Hsl. unfold l. rewrite fst_zip by (rewrite length_seq; lia).
      exact Hp. }
  assert (Hlen : length sl = n).
  { rewrite <- (length_fmap fst sl), Hfst. apply length_seq. }
  split; [by rewrite length_fmap|].
  intros k Hk.
  destruct (lookup_lt_is_Some_2 sl k) as [[a j] Hkj]; [lia|].
  assert (a = k) as ->.
  { pose proof (f_equal (fun t => t !! k) Hfst) as E. cbn in E.
    rewrite list_lookup_fmap, Hkj, lookup_seq_lt in E by done.
    cbn in E. by injection E. }
  exists j. split; [by rewrite list_lookup_fmap, Hkj|].
  assert (Hin : (k, j) ∈ l).
  { rewrite <- Hsl. by eapply list_elem_of_lookup_2. }
  unfold l in Hin.
  apply elem_of_lookup_zip_with in Hin as (i & y & z & [= -> ->] & Hy & Hz).
  apply lookup_seq in Hz as [-> _]. exact Hy.
Qed.

Lemma argsort_bound (perm : list nat) n :
  perm ≡ₚ seq 0 n -> Forall (fun j => (j < n)%nat) (argsort perm).
Proof.
  intros Hp. destruct (argsort_spec perm n Hp) as [Hl Hinv].
  assert (Hlp : length perm = n).
  { apply Permutation_length in Hp. by rewrite length_seq in Hp. }
  apply Forall_lookup. intros k j Hk.
  destruct (Hinv k) as (j' & Hj' & Hpj).
  { rewrite <- Hl. by eapply lookup_lt_Some. }
  rewrite Hk in Hj'. injection Hj' as <-.
  rewrite <- Hlp. by eapply lookup_lt_Some.
Qed.
End Argsort.

Section Shuffle.
Context {X : Type}.
Implicit Types (xs : list (list X)) (idx : list nat).

Lemma concat_mjoin xs : concat xs = mjoin xs.
Proof. induction xs as [|x xs IH]; csimpl; [done|]. by f_equal. Qed.

Lemma concat_same_length xs L :
  Forall (fun x => length x = L) xs -> length (concat xs) = (length xs * L)%nat.
Proof.
  intros Hl. rewrite concat_mjoin, length_join.
  by apply sum_list_fmap_same.
Qed.

Lemma concat_lookup xs L r i :
  Forall (fun x => length x = L) xs -> (i < L)%nat ->
  concat xs !! (r * L + i)%nat = xs !! r ≫= (.!! i).
Proof.
  intros Hl Hi. rewrite concat_mjoin.
  destruct (xs !! r) as [x|] eqn:Ex; cbn.
  - destruct (x !! i) as [v|] eqn:Ev.
    + apply join_lookup_Some_same_length'; [done|done|]. by exists x.
    + apply lookup_ge_None in Ev.
      rewrite Forall_forall in Hl.
      rewrite (Hl x) in Ev by (by eapply list_elem_of_lookup_2). lia.
  - apply lookup_ge_None. rewrite <- concat_mjoin, (concat_same_length _ L Hl).
    apply lookup_ge_None in Ex. nia.
Qed.

Lemma index_rows_spec (x : list X) idx :
  Forall (fun j => (j < length x)%nat) idx ->
  exists ys, index_rows x idx = inr ys /\
             length ys = length idx /\
             forall i j, idx !! i = Some j -> ys !! i = x !! j.
Proof.
  intros Hidx.
  destruct (traverse_ok (item x) (fun _ => True) idx) as (ys & E & Hl & _).
  { eapply Forall_impl; [exact Hidx|]. intros j Hj. cbn in Hj.
    destruct (lookup_lt_is_Some_2 x j Hj) as [v Hv].
    exists v. unfold item. by rewrite Hv. }
  exists ys. split; [exact E|]. split; [exact Hl|].
  intros i j Hij.
  destruct (traverse_inr_lookup _ _ _ E) as [_ Hlook].
  destruct (Hlook i j Hij) as (y & Hy & Hitem).
  unfold item in Hitem. destruct (x !! j); [|discriminate].
  injection Hitem as ->. exact Hy.
Qed.

Lemma view_rows_item {Y} W L r (t : list Y) :
  (0 < W)%nat -> length t = (W * L)%nat -> (r < W)%nat ->
  (rows ← view_rows W t; item rows r) = inr (take L (drop (r * L) t)).
Proof.
  intros HW Ht Hr. unfold view_rows.
  destruct (Nat.eqb_spec W 0) as [|_]; [lia|].
  rewrite Ht, (Nat.mul_comm W L), Nat.Div0.mod_mul, Nat.div_mul by lia.
  cbn. unfold item.
  rewrite list_lookup_fmap, lookup_seq_lt by done. reflexivity.
Qed.

(** The selection shared by shuffle and unshuffle: worker [r] receives the
    gathered rows at the positions of its slice of [idx]. *)
Lemma unshuffle_run xs L r x idx :
  (0 < L)%nat -> Forall (fun x => length x = L) xs ->
  xs !! r = Some x ->
  length idx = (length xs * L)%nat ->
  Forall (fun j => (j < length xs * L)%nat) idx ->
  exists y, _batch_unshuffle_ddp xs r x idx = inr y /\
            length y = L /\
            forall i, (i < L)%nat ->
              exists j, idx !! (r * L + i)%nat = Some j /\
                        y !! i = concat xs !! j.
Proof.
  intros HL Hxs Hx Hidx Hlt.
  pose proof (lookup_lt_Some _ _ _ Hx) as Hr.
  assert (Hxl : length x = L).
  { rewrite Forall_forall in Hxs. apply Hxs. by eapply list_elem_of_lookup_2. }
  unfold _batch_unshuffle_ddp, concat_all_gather.
  rewrite (list_insert_id _ _ _ Hx), (concat_same_length _ L Hxs), Hxl.
  unfold py_floordiv.
  destruct (Z.eqb_spec (Z.of_nat L) 0) as [|_]; [lia|]. cbn [mbind sum_exn_bind].
  replace (Z.to_nat (Z.of_nat (length xs * L) / Z.of_nat L)) with (length xs);
    cycle 1.
  { rewrite Nat2Z.inj_mul, Z.div_mul by lia. lia. }
  pose proof (view_rows_item (length xs) L r idx ltac:(lia) Hidx Hr) as Hv.
  destruct (view_rows (length xs) idx) as [e|rows]; cbn in Hv |- *;
    [discriminate|].
  rewrite Hv.
  destruct (index_rows_spec (concat xs) (take L (drop (r * L) idx)))
    as (y & Ey & Hly & Hy).
  { apply Forall_take, Forall_drop. rewrite (concat_same_length _ L Hxs).
    exact Hlt. }
  exists y. split; [exact Ey|]. split.
  - rewrite Hly, length_take, length_drop, Hidx. nia.
  - intros i Hi.
    destruct (lookup_lt_is_Some_2 idx (r * L + i)) as [j Hj]; [nia|].
    exists j. split; [exact Hj|]. apply Hy.
    by rewrite lookup_take_lt, lookup_drop.
Qed.

(** The worker's own slot of [world] is overwritten by the gather. *)
Lemma unshuffle_own_slot xs r x idx :
  _batch_unshuffle_ddp xs r x idx = _batch_unshuffle_ddp (<[r := x]> xs) r x idx.
Proof.
  unfold _batch_unshuffle_ddp, concat_all_gather.
  by rewrite list_insert_insert_eq.
Qed.

Lemma shuffle_as_unshuffle xs r idx x :
  _batch_shuffle_ddp xs r idx x =
  (y ← _batch_unshuffle_ddp xs r x idx; mret (y, argsort idx)).
Proof.
  unfold _batch_shuffle_ddp, _batch_unshuffle_ddp.
  destruct (py_floordiv _ _) as [e|n]; [reflexivity|]. cbn.
  destruct (view_rows _ _) as [e|rows]; [reflexivity|]. cbn.
  destruct (item rows r) as [e|idx_this]; reflexivity.
Qed.
(** C7.  With [W] workers holding [L >= 1] rows each and a permutation of
    [0, W*L) broadcast to all of them, shuffle returns on every worker,
    each with the same inverse permutation [inv] ([perm] and [inv] undo
    one another), and unshuffle applied on every worker to what the
    shuffles returned gives each worker its own rows back. *)
Theorem shuffle_unshuffle_roundtrip xs L (perm : list nat) :
  (0 < L)%nat -> Forall (fun x => length x = L) xs ->
  perm ≡ₚ seq 0 (length xs * L) ->
  exists (ys : list (list X)) (inv : list nat),
    length ys = length xs /\
    (forall k, (k < length xs * L)%nat ->
       (exists j, inv !! k = Some j /\ perm !! j = Some k) /\
       (exists j, perm !! k = Some j /\ inv !! j = Some k)) /\
    (forall r x, xs !! r = Some x ->
       exists y, ys !! r = Some y /\
                 _batch_shuffle_ddp xs r perm x = inr (y, inv) /\
                 _batch_unshuffle_ddp ys r y inv = inr x).
Proof.
  intros HL Hxs Hp.
  set (n := (length xs * L)%nat) in *.
  destruct (argsort_spec perm n Hp) as [Hlinv Hinv].
  assert (Hlp : length perm = n).
  { apply Permutation_length in Hp. by rewrite length_seq in Hp. }
  assert (Hplt : Forall (fun j => (j < n)%nat) perm).
  { rewrite Hp. apply Forall_forall. intros j Hj.
    apply elem_of_seq in Hj. lia. }
  assert (Hnd : NoDup perm) by (rewrite Hp; apply NoDup_seq).
  assert (Hilt : Forall (fun j => (j < n)%nat) (argsort perm)).
  { apply Forall_lookup. intros k j Hk.
    destruct (Hinv k) as (j' & Hj' & Hpj).
    { rewrite <- Hlinv. by eapply lookup_lt_Some. }
    rewrite Hk in Hj'. injection Hj' as <-.
    rewrite <- Hlp. by eapply lookup_lt_Some. }
  pose (out := fun r =>
    match xs !! r with
    | Some x => match _batch_unshuffle_ddp xs r x perm with
                | inr y => y
                | inl _ => []
                end
    | None => []
    end).
  assert (Hout : forall r x, xs !! r = Some x ->
    _batch_unshuffle_ddp xs r x perm = inr (out r) /\
    length (out r) = L /\
    forall i, (i < L)%nat ->
      exists j, perm !! (r * L + i)%nat = Some j /\
                out r !! i = concat xs !! j).
  { intros r x Hx.
    destruct (unshuffle_run xs L r x perm HL Hxs Hx Hlp Hplt)
      as (y & Ey & Hy).
    unfold out. rewrite Hx, Ey. by split. }
  set (ys := out <$> seq 0 (length xs)).
  assert (Hys : forall r x, xs !! r = Some x -> ys !! r = Some (out r)).
  { intros r x Hx. unfold ys.
    rewrite list_lookup_fmap, lookup_seq_lt by (by eapply lookup_lt_Some).
    reflexivity. }
  assert (Hlys : length ys = length xs).
  { unfold ys. by rewrite length_fmap, length_seq. }
  assert (Hysl : Forall (fun y => length y = L) ys).
  { apply Forall_lookup. intros r y Hy. unfold ys in Hy.
    rewrite list_lookup_fmap in Hy.
    destruct (seq 0 (length xs) !! r) as [r'|] eqn:Er; [|done].
    apply lookup_seq in Er as [-> Hr]. cbn in Hy. injection Hy as <-.
    destruct (lookup_lt_is_Some_2 xs r Hr) as [x Hx].
    by destruct (Hout r x Hx) as (_ & ? & _). }
  exists ys, (argsort perm). split; [exact Hlys|]. split.
  - intros k Hk. split; [by apply Hinv|].
    destruct (lookup_lt_is_Some_2 perm k) as [j Hj]; [lia|].
    exists j. split; [exact Hj|].
    destruct (Hinv j) as (k' & Hk' & Hpk').
    { rewrite Forall_forall in Hplt. apply Hplt.
      by eapply list_elem_of_lookup_2. }
    by rewrite (NoDup_lookup _ _ _ _ Hnd Hj Hpk').
  - intros r x Hx.
    destruct (Hout r x Hx) as (Eu & Hlo & Ho).
    exists (out r). split; [by eapply Hys|]. split.
    { rewrite shuffle_as_unshuffle, Eu. reflexivity. }
    pose proof (lookup_lt_Some _ _ _ Hx) as Hr.
    assert (Hxl : length x = L).
    { rewrite Forall_forall in Hxs. apply Hxs.
      by eapply list_elem_of_lookup_2. }
    destruct (unshuffle_run ys L r (out r) (argsort perm) HL Hysl
                (Hys r x Hx)) as (z & Ez & Hlz & Hz).
    { by rewrite Hlys. }
    { by rewrite Hlys. }
    rewrite Ez. f_equal. apply list_eq. intros i.
    destruct (decide (i < L)%nat) as [Hi|Hi]; cycle 1.
    { rewrite !lookup_ge_None_2 by lia. reflexivity. }
    destruct (Hz i Hi) as (j & Hj & ->).
    destruct (Hinv (r * L + i)%nat) as (j' & Hj' & Hpj); [unfold n; nia|].
    rewrite Hj in Hj'. injection Hj' as <-.
    assert (Hjn : (j < n)%nat).
    { rewrite Forall_forall in Hilt. apply Hilt.
      by eapply list_elem_of_lookup_2. }
    pose proof (Nat.div_mod_eq j L) as Hdm.
    pose proof (Nat.mod_upper_bound j L ltac:(lia)) as Hmod.
    set (r' := (j / L)%nat) in *. set (i' := (j mod L)%nat) in *.
    assert (Hr' : (r' < length xs)%nat) by (unfold n in Hjn; nia).
    replace j with (r' * L + i')%nat in * by lia.
    rewrite (concat_lookup ys L r' i' Hysl Hmod).
    destruct (lookup_lt_is_Some_2 xs r' Hr') as [x' Hx'].
    rewrite (Hys r' x' Hx'). cbn.
    destruct (Hout r' x' Hx') as (_ & _ & Ho').
    destruct (Ho' i' Hmod) as (j'' & Hj'' & ->).
    rewrite Hpj in Hj''. injection Hj'' as <-.
    rewrite (concat_lookup xs L r i Hxs Hi), Hx. reflexivity.
Qed.
End Shuffle.

(** With an empty local batch the shuffle divides by zero. *)
Lemma shuffle_empty_batch_raises :
  _batch_shuffle_ddp [[]] 0 [] (@nil nat) = inl ZeroDivisionError /\
  ~ exists y inv,
      _batch_shuffle_ddp [[]] 0 [] (@nil nat) = inr (y, inv) /\
      _batch_unshuffle_ddp [y] 0 y inv = inr [].
Proof.
  split; [reflexivity|]. intros (y & inv & E & _). discriminate E.
Qed.

Lemma shuffle_unshuffle_roundtrip_witness :
  exists (ys : list (list nat)) (inv : list nat),
    length ys = 2%nat /\
    (forall k, (k < 2 * 2)%nat ->
       (exists j, inv !! k = Some j /\ [2; 0; 3; 1] !! j = Some k) /\
       (exists j, [2; 0; 3; 1] !! k = Some j /\ inv !! j = Some k)) /\
    (forall r x, [[10; 11]; [12; 13]] !! r = Some x ->
       exists y, ys !! r = Some y /\
                 _batch_shuffle_ddp [[10; 11]; [12; 13]] r [2; 0; 3; 1] x
                 = inr (y, inv) /\
                 _batch_unshuffle_ddp ys r y inv = inr x).
Proof.
  apply (shuffle_unshuffle_roundtrip [[10; 11]; [12; 13]] 2 [2; 0; 3; 1])%nat.
  - lia.
  - repeat constructor.
  - apply (bool_decide_unpack _). vm_compute. exact I.
Defined.


(** ** The logits of [forward] *)

Section Forward.
Context `{Scalar}.
Local Open Scope real_scope.
Context {Img : Type} (hp : HParams) (trainer : Trainer).
Context (encoder_apply : Params -> list Img -> Mat).

Local Abbreviation fwd := (forward hp trainer encoder_apply).
Local Abbreviation T := (softmax_temperature hp).

Lemma normalize_shape (m : Mat) B D :
  has_shape m B D -> has_shape (normalize m) B D.
Proof.
  intros [Hl Hr]. unfold normalize. split; [by rewrite length_map|].
  apply Forall_fmap. eapply Forall_impl; [exact Hr|].
  intros row Hrow. cbn. unfold normalize_row. by rewrite length_map.
Qed.

Lemma einsum_nc_nc_n_inr (q k : Mat) v :
  einsum_nc_nc_n q k = inr v -> length q = length k /\ v = zip_with dot q k.
Proof.
  unfold einsum_nc_nc_n, same_len.
  destruct (Nat.eqb_spec (length q) (length k)) as [E|]; [|discriminate].
  destruct (forallb _ _); [|discriminate]. cbn. intros [= <-]. done.
Qed.

Lemma einsum_nc_nc_n_ok (q k : Mat) B D :
  has_shape q B D -> has_shape k B D ->
  einsum_nc_nc_n q k = inr (zip_with dot q k).
Proof.
  intros [Hlq Hq] [Hlk Hk]. unfold einsum_nc_nc_n, same_len.
  rewrite Hlq, Hlk, Nat.eqb_refl. cbn [andb].
  replace (forallb _ _) with true; [done|].
  symmetry. apply forallb_forall. intros [u v] Hin.
  apply list_elem_of_In, elem_of_zip_with in Hin as (u' & v' & [= <- <-] & Hu & Hv).
  rewrite Forall_forall in Hq, Hk. cbn.
  rewrite (Hq _ Hu), (Hk _ Hv). apply Nat.eqb_refl.
Qed.

Lemma einsum_nc_ck_nk_ok (q m : Mat) B D :
  has_shape q B D -> length m = D ->
  exists l_neg, einsum_nc_ck_nk q m = inr l_neg /\ length l_neg = B.
Proof.
  intros [Hlq Hq] Hm. unfold einsum_nc_ck_nk, same_len.
  replace (forallb _ q) with true.
  - eexists; split; [reflexivity|]. by rewrite length_map.
  - symmetry. apply forallb_forall. intros row Hin.
    rewrite Forall_forall in Hq.
    rewrite (Hq row) by (by apply list_elem_of_In).
    rewrite Hm. apply Nat.eqb_refl.
Qed.

Lemma einsum_nc_njc_nc_ok (q : Mat) (neg : Tensor3) B K D :
  has_shape q B D -> has_shape3 neg B K D ->
  exists l_neg, einsum_nc_njc_nc q neg = inr l_neg /\ has_shape l_neg B D.
Proof.
  intros [Hlq Hq] [Hln Hn]. unfold einsum_nc_njc_nc, same_len.
  rewrite Hlq, Hln, Nat.eqb_refl. cbn [andb].
  replace (forallb _ _) with true; cycle 1.
  { symmetry. apply forallb_forall. intros [row nbs] Hin.
    apply list_elem_of_In, elem_of_zip_with in Hin
      as (r' & n' & [= <- <-] & Hr & Hnb).
    cbn. apply forallb_forall. intros nb Hnbin.
    rewrite Forall_forall in Hq. rewrite Forall_forall in Hn.
    destruct (Hn _ Hnb) as [_ Hw]. rewrite Forall_forall in Hw.
    rewrite (Hq _ Hr), (Hw nb) by (by apply list_elem_of_In).
    apply Nat.eqb_refl. }
  eexists; split; [reflexivity|]. split.
  - rewrite length_zip_with. lia.
  - apply Forall_forall. intros row Hin.
    apply elem_of_zip_with in Hin as (r' & n' & -> & Hr & Hnb).
    rewrite length_imap. rewrite Forall_forall in Hq. by apply Hq.
Qed.

(** What [forward] has computed when it returns. *)
Lemma forward_inr (dist : Dist) img_q img_k b s logits labels query key :
  result (fwd dist img_q img_k b s) = inr (logits, labels, query, key) ->
  query = normalize (encoder_apply (encoder_q s) img_q) /\
  length query = length key /\
  labels = zeros (length logits) /\
  exists l_neg,
    length l_neg = length query /\
    logits = div_scalar
               (zip_with app (unsqueeze_last (zip_with dot query key)) l_neg) T /\
    result ((if use_knn hp
             then neg_examples ← knn_approx hp query;
                  lift (einsum_nc_njc_nc query neg_examples)
             else lift (einsum_nc_ck_nk query (get_queue b s))) s)
    = inr l_neg /\
    (_use_ddp_or_ddp2 trainer = false ->
     key = normalize (encoder_apply (encoder_k s) img_k)).
Proof.
  intros Hr. unfold forward in Hr.
  apply bind_ok_inv in Hr as ([] & _ & Hr & _).
  apply bind_ok_inv in Hr as (s' & Hs' & Hr & _).
  cbn in Hs'. injection Hs' as <-. cbn [final emit get] in Hr.
  apply bind_ok_inv in Hr as (key' & Hkey & Hr & _).
  assert (Hst : final ((if _use_ddp_or_ddp2 trainer
      then '(img_k', idx_unshuffle) ←
             lift (_batch_shuffle_ddp (world_img_k dist) (rank dist)
                                      (randperm dist) img_k);
           lift (_batch_unshuffle_ddp (world_key dist) (rank dist)
                   (normalize (encoder_apply (encoder_k s) img_k'))
                   idx_unshuffle)
      else mret (normalize (encoder_apply (encoder_k s) img_k))) s) = s).
  { destruct (_use_ddp_or_ddp2 trainer); [|reflexivity].
    rewrite run_bind. cbn.
    destruct (_batch_shuffle_ddp _ _ _ _) as [e|[x i]]; reflexivity. }
  rewrite Hst in Hr. clear Hst.
  assert (Hsingle : _use_ddp_or_ddp2 trainer = false ->
                    key' = normalize (encoder_apply (encoder_k s) img_k)).
  { intros E. rewrite E in Hkey. cbn in Hkey. by injection Hkey as <-. }
  clear Hkey.
  apply bind_ok_inv in Hr as (l_pos & Hpos & Hr & _).
  cbn in Hpos. apply einsum_nc_nc_n_inr in Hpos as [Hlen ->].
  cbn [final lift] in Hr.
  apply bind_ok_inv in Hr as (l_neg & Hneg & Hr & _).
  assert (Hst : final ((if use_knn hp
             then neg_examples ← knn_approx hp
                    (normalize (encoder_apply (encoder_q s) img_q));
                  lift (einsum_nc_njc_nc
                          (normalize (encoder_apply (encoder_q s) img_q))
                          neg_examples)
             else lift (einsum_nc_ck_nk
                          (normalize (encoder_apply (encoder_q s) img_q))
                          (get_queue b s))) s) = s).
  { destruct (use_knn hp); [|reflexivity].
    apply (preserves_bind (fun s' => s' = s)); [| |reflexivity].
    - apply knn_approx_preserves.
    - intros; apply preserves_lift. }
  rewrite Hst in Hr. clear Hst.
  apply bind_ok_inv in Hr as (raw & Hcat & Hr & _).
  cbn in Hcat. unfold cat_dim1, same_len in Hcat.
  destruct (Nat.eqb_spec
              (length (unsqueeze_last
                 (zip_with dot (normalize (encoder_apply (encoder_q s) img_q))
                           key')))
              (length l_neg)) as [El|]; [|discriminate].
  injection Hcat as <-. cbn in Hr. injection Hr as <- <- <- <-.
  unfold unsqueeze_last in El. rewrite length_map, length_zip_with in El.
  repeat split; try done.
  exists l_neg. repeat split; [lia|exact Hneg|exact Hsingle].
Qed.
Lemma same_run_bind {A B} (m1 m2 : M A) (f1 f2 : A -> M B) s1 s2 :
  same_run m1 m2 s1 s2 ->
  (forall a t1 t2, same_view t1 t2 -> same_run (f1 a) (f2 a) t1 t2) ->
  same_run (m1 ≫= f1) (m2 ≫= f2) s1 s2.
Proof.
  intros [Hr Hq] Hf. unfold same_run. rewrite !run_bind, Hr.
  destruct (result (m2 s2)) as [e|a]; cbn [result final]; [done|].
  by apply Hf.
Qed.

Lemma same_run_get_bind {B} (f1 f2 : Model -> M B) s1 s2 :
  same_run (f1 s1) (f2 s2) s1 s2 ->
  same_run (get ≫= f1) (get ≫= f2) s1 s2.
Proof. intros Hs. unfold same_run. by rewrite !run_bind. Qed.

Lemma same_run_const {A} (m : M A) s1 s2 :
  same_view s1 s2 ->
  (exists r c, forall s, m s = MkOut r s c) ->
  same_run m m s1 s2.
Proof. intros Hq (r & c & Hm). unfold same_run. by rewrite !Hm. Qed.

Lemma knn_approx_same_run query s1 s2 :
  same_view s1 s2 ->
  same_run (knn_approx hp query) (knn_approx hp query) s1 s2.
Proof.
  intros Hv. pose proof Hv as (_ & _ & Hq).
  unfold same_run, knn_approx. run. rewrite Hq.
  destruct (distance (metric hp)); [|done].
  destruct (_ && _); [|done].
  destruct (topk hp <? 0)%Z; [done|].
  destruct (topk hp =? 0)%Z; [done|].
  destruct (length query =? 0)%nat; done.
Qed.

(** On the KNN path [forward] reads the encoders and the training queue,
    and nothing else: not the queue it was given, not the validation
    queue. *)
Lemma knn_forward_reads (dist : Dist) img_q img_k b b' s1 s2 :
  use_knn hp = true ->
  encoder_q s1 = encoder_q s2 -> encoder_k s1 = encoder_k s2 ->
  queue s1 = queue s2 ->
  result (fwd dist img_q img_k b s1) = result (fwd dist img_q img_k b' s2).
Proof.
  intros E Hq Hk Hqueue.
  cut (same_run (fwd dist img_q img_k b) (fwd dist img_q img_k b') s1 s2);
    [by intros []|].
  unfold forward. rewrite E.
  apply same_run_bind.
  { split; [reflexivity|done]. }
  clear s1 s2 Hq Hk Hqueue.
  intros [] t1 t2 Ht. apply same_run_get_bind.
  destruct Ht as (Hq & Hk & Hqueue). rewrite Hq, Hk.
  assert (Ht : same_view t1 t2) by done.
  apply same_run_bind.
  { apply same_run_const; [exact Ht|].
    destruct (_use_ddp_or_ddp2 trainer).
    - destruct (_batch_shuffle_ddp (world_img_k dist) (rank dist)
                  (randperm dist) img_k) as [e|[x i]] eqn:Es.
      + exists (inl e), []. intros s. by rewrite run_bind.
      + exists (_batch_unshuffle_ddp (world_key dist) (rank dist)
                  (normalize (encoder_apply (encoder_k t2) x)) i), [].
        intros s. rewrite run_bind. reflexivity.
    - eexists _, []. reflexivity. }
  intros key u1 u2 Hu. apply same_run_bind.
  { apply same_run_const; [exact Hu|]. eexists _, []. reflexivity. }
  intros l_pos v1 v2 Hv. apply same_run_bind.
  { apply same_run_bind; [by apply knn_approx_same_run|].
    intros neg w1 w2 Hw. apply same_run_const; [exact Hw|].
    eexists _, []. reflexivity. }
  intros l_neg w1 w2 Hw. apply same_run_bind.
  { apply same_run_const; [exact Hw|]. eexists _, []. reflexivity. }
  intros logits x1 x2 Hx. apply same_run_const; [exact Hx|].
  eexists _, []. reflexivity.
Qed.

(** On the KNN path the result of [forward] depends neither on the queue
    it was given nor on the validation queue. *)
Lemma knn_forward_ignores_queue (dist : Dist) img_q img_k b b' s m :
  use_knn hp = true ->
  result (fwd dist img_q img_k b (set_queue Val m s))
  = result (fwd dist img_q img_k b' s).
Proof.
  intros E. apply knn_forward_reads; [exact E|reflexivity..].
Qed.

(** The block of [forward] that computes the keys writes nothing, calls
    nothing, and returns [forward_key]. *)
Lemma key_block_run (dist : Dist) img_k s t :
  (if _use_ddp_or_ddp2 trainer
   then '(img_k', idx_unshuffle) ←
          lift (_batch_shuffle_ddp (world_img_k dist) (rank dist)
                                   (randperm dist) img_k);
        lift (_batch_unshuffle_ddp (world_key dist) (rank dist)
                (normalize (encoder_apply (encoder_k s) img_k'))
                idx_unshuffle)
   else mret (normalize (encoder_apply (encoder_k s) img_k))) t
  = MkOut (forward_key trainer encoder_apply dist img_k s) t [].
Proof.
  unfold forward_key. destruct (_use_ddp_or_ddp2 trainer); [|reflexivity].
  rewrite run_bind. cbn [result final calls lift].
  destruct (_batch_shuffle_ddp _ _ _ _) as [e|[x i]]; reflexivity.
Qed.

Lemma forward_key_single (dist : Dist) img_k s :
  _use_ddp_or_ddp2 trainer = false ->
  forward_key trainer encoder_apply dist img_k s
  = inr (normalize (encoder_apply (encoder_k s) img_k)).
Proof. intros E. unfold forward_key. by rewrite E. Qed.

(** Under DDP, with [W] workers that each contribute [L >= 1] images and
    [L] keys of width [D] and a broadcast permutation of [0, W*L), the
    keys come back as an [L x D] matrix. *)
Lemma forward_key_ddp (dist : Dist) img_k s L D :
  _use_ddp_or_ddp2 trainer = true ->
  (0 < L)%nat -> length img_k = L ->
  (rank dist < length (world_img_k dist))%nat ->
  Forall (fun x => length x = L) (world_img_k dist) ->
  randperm dist ≡ₚ seq 0 (length (world_img_k dist) * L) ->
  length (world_key dist) = length (world_img_k dist) ->
  Forall (fun k => has_shape k L D) (world_key dist) ->
  (forall imgs, length imgs = L ->
                has_shape (encoder_apply (encoder_k s) imgs) L D) ->
  exists key, forward_key trainer encoder_apply dist img_k s = inr key /\
              has_shape key L D.
Proof.
  intros Hddp HL Himg Hr Hworld Hperm Hlk Hkeys Henc.
  unfold forward_key. rewrite Hddp.
  set (W := length (world_img_k dist)) in *.
  set (xs := <[rank dist := img_k]> (world_img_k dist)).
  assert (Hxs : Forall (fun x => length x = L) xs) by (by apply Forall_insert).
  assert (Hxr : xs !! rank dist = Some img_k)
    by (by apply list_lookup_insert_eq).
  assert (Hlx : length xs = W) by apply length_insert.
  assert (Hlp : length (randperm dist) = (W * L)%nat).
  { apply Permutation_length in Hperm. by rewrite length_seq in Hperm. }
  assert (Hplt : Forall (fun j => (j < W * L)%nat) (randperm dist)).
  { rewrite Hperm. apply Forall_forall. intros j Hj.
    apply elem_of_seq in Hj. lia. }
  destruct (unshuffle_run xs L (rank dist) img_k (randperm dist) HL Hxs Hxr)
    as (y & Ey & Hly & _); [by rewrite Hlx|by rewrite Hlx|].
  rewrite shuffle_as_unshuffle, unshuffle_own_slot. fold xs. rewrite Ey.
  cbn [mbind sum_exn_bind mret sum_exn_ret].
  set (key' := normalize (encoder_apply (encoder_k s) y)).
  assert (Hk' : has_shape key' L D) by (by apply normalize_shape, Henc).
  set (ys := <[rank dist := key']> (world_key dist)).
  assert (Hys : Forall (fun k => has_shape k L D) ys)
    by (by apply Forall_insert).
  assert (Hysl : Forall (fun k : Mat => length k = L) ys).
  { eapply Forall_impl; [exact Hys|]. by intros k [? _]. }
  assert (Hyr : ys !! rank dist = Some key').
  { apply list_lookup_insert_eq. by rewrite Hlk. }
  assert (Hly' : length ys = W).
  { unfold ys. by rewrite length_insert. }
  destruct (argsort_spec (randperm dist) (W * L) Hperm) as [Hla _].
  pose proof (argsort_bound (randperm dist) (W * L) Hperm) as Hilt.
  destruct (unshuffle_run ys L (rank dist) key' (argsort (randperm dist))
              HL Hysl Hyr) as (key & Ek & Hlkey & Hrows);
    [by rewrite Hly'|by rewrite Hly'|].
  rewrite unshuffle_own_slot. fold ys. exists key. split; [exact Ek|].
  split; [exact Hlkey|].
  apply Forall_lookup. intros i row Hi.
  destruct (Hrows i) as (j & _ & Hj).
  { rewrite <- Hlkey. by eapply lookup_lt_Some. }
  rewrite Hi in Hj. symmetry in Hj.
  apply list_elem_of_lookup_2, list_elem_of_In, in_concat in Hj
    as (k & Hk & Hin).
  rewrite Forall_forall in Hys.
  destruct (Hys k) as [_ Hw]; [by apply list_elem_of_In|].
  rewrite Forall_forall in Hw. by apply Hw, list_elem_of_In.
Qed.

Lemma forward_returns (dist : Dist) img_q img_k b s B D key :
  forward_key trainer encoder_apply dist img_k s = inr key ->
  has_shape (encoder_apply (encoder_q s) img_q) B D ->
  has_shape key B D ->
  (if use_knn hp
   then (0 < B)%nat /\ In (metric hp) supported_metrics /\ (0 < D)%nat /\
        exists N, has_shape (queue s) D N /\ (0 < topk hp <= Z.of_nat N)%Z
   else length (get_queue b s) = D) ->
  exists logits labels,
    result (fwd dist img_q img_k b s)
    = inr (logits, labels,
           normalize (encoder_apply (encoder_q s) img_q), key).
Proof.
  intros Hkey Hq Hk Hpath.
  apply normalize_shape in Hq.
  set (query := normalize (encoder_apply (encoder_q s) img_q)) in *.
  assert (Hneg : exists l_neg,
    result ((if use_knn hp
             then neg_examples ← knn_approx hp query;
                  lift (einsum_nc_njc_nc query neg_examples)
             else lift (einsum_nc_ck_nk query (get_queue b s))) s)
    = inr l_neg /\ length l_neg = B).
  { destruct (use_knn hp).
    - destruct Hpath as (HB & Hin & HD & N & HN & Hk').
      destruct (knn_approx_returns hp query s B D N Hin HN HD Hq HB Hk')
        as (t & Et & Ht).
      destruct (einsum_nc_njc_nc_ok query t B _ D Hq Ht)
        as (l_neg & El & [Hl _]).
      exists l_neg. split; [|done].
      rewrite (result_bind _ _ _ t Et). exact El.
    - destruct (einsum_nc_ck_nk_ok query (get_queue b s) B D Hq Hpath)
        as (l_neg & El & Hl).
      exists l_neg. split; [exact El|done]. }
  destruct Hneg as (l_neg & Eneg & Hl).
  assert (Hst : final ((if use_knn hp
             then neg_examples ← knn_approx hp query;
                  lift (einsum_nc_njc_nc query neg_examples)
             else lift (einsum_nc_ck_nk query (get_queue b s))) s) = s).
  { destruct (use_knn hp); [|reflexivity].
    apply (preserves_bind (fun s' => s' = s)); [| |reflexivity].
    - apply knn_approx_preserves.
    - intros; apply preserves_lift. }
  eexists _, _.
  unfold forward.
  rewrite (result_bind _ _ _ tt) by reflexivity. cbn [final emit].
  rewrite (result_bind _ _ _ s) by reflexivity. cbn [final get].
  fold query.
  rewrite (result_bind _ _ _ key) by (by rewrite key_block_run).
  rewrite key_block_run. cbn [final].
  rewrite (result_bind _ _ _ (zip_with dot query key))
    by (apply (einsum_nc_nc_n_ok query key B D Hq Hk)).
  cbn [final lift].
  rewrite (result_bind _ _ _ l_neg Eneg), Hst.
  rewrite (result_bind _ _ _
             (zip_with app (unsqueeze_last (zip_with dot query key)) l_neg)).
  - reflexivity.
  - cbn. unfold cat_dim1, same_len, unsqueeze_last.
    rewrite length_map, length_zip_with.
    destruct Hq as [-> _], Hk as [-> _]. rewrite Hl, Nat.min_id, Nat.eqb_refl.
    reflexivity.
Qed.

(** The keys [forward] returns are the ones its key block computed. *)
Lemma forward_inr_key (dist : Dist) img_q img_k b s logits labels query key :
  result (fwd dist img_q img_k b s) = inr (logits, labels, query, key) ->
  forward_key trainer encoder_apply dist img_k s = inr key.
Proof.
  intros Hr. unfold forward in Hr.
  apply bind_ok_inv in Hr as ([] & _ & Hr & _).
  apply bind_ok_inv in Hr as (s' & Hs' & Hr & _).
  cbn in Hs'. injection Hs' as <-. cbn [final emit get] in Hr.
  apply bind_ok_inv in Hr as (key' & Hkey & Hr & _).
  rewrite key_block_run in Hkey, Hr. cbn [result final] in Hkey, Hr.
  apply bind_ok_inv in Hr as (l_pos & _ & Hr & _).
  apply bind_ok_inv in Hr as (l_neg & _ & Hr & _).
  apply bind_ok_inv in Hr as (raw & _ & Hr & _).
  cbn in Hr. injection Hr as _ _ _ <-. exact Hkey.
Qed.
End Forward.



(** ** The order of a training step *)

Section Order.
Context `{Scalar}.
Local Open Scope real_scope.
Context {Img : Type} (hp : HParams) (trainer : Trainer).
Context (encoder_apply : Params -> list Img -> Mat).
Context (encoder_kmeans : Mat -> Mat).
Context (cross_entropy : Mat -> Vec -> exn + real).
Context (precision_at_k : Mat -> Vec -> exn + real * real).

Local Abbreviation enqueue := (@_dequeue_and_enqueue _ Img hp trainer).
Local Abbreviation fwd := (forward hp trainer encoder_apply).
Local Abbreviation train_step :=
  (training_step hp trainer encoder_apply encoder_kmeans cross_entropy
                 precision_at_k).

Lemma momentum_loop_calls pairs : forall i s,
  calls (momentum_loop hp i pairs s) = [].
Proof.
  induction pairs as [|[pq pk] rest IH]; intros i s; [reflexivity|].
  cbn [momentum_loop]. rewrite run_bind. cbn.
  destruct (tensor_add _ _) as [e|data]; [reflexivity|]. cbn.
  apply IH.
Qed.

Lemma momentum_update_calls s :
  calls (_momentum_update_key_encoder hp s) = [CallMomentumUpdate].
Proof.
  unfold _momentum_update_key_encoder.
  rewrite run_bind. cbn [result final calls emit].
  rewrite run_bind. cbn [result final calls get].
  rewrite (momentum_loop_calls (zip (encoder_q s) (encoder_k s)) 0 s).
  by destruct (result (momentum_loop hp 0 (zip (encoder_q s) (encoder_k s)) s)).
Qed.

Lemma enqueue_calls (dist : Dist) keys qp q s :
  calls (enqueue dist keys qp q s) = [CallDequeueAndEnqueue qp q].
Proof.
  destruct (decide (Z.of_nat (length (gathered_keys trainer dist keys))
                    = batch_size hp)) as [E|E].
  - rewrite (enqueue_full_batch hp trainer dist keys qp q s E). cbn zeta.
    destruct (assign_columns_T _ _ _ _); [reflexivity|].
    destruct (py_mod _ _); reflexivity.
  - by rewrite (enqueue_other_size hp trainer dist keys qp q s E).
Qed.

Lemma knn_approx_calls query s : calls (knn_approx hp query s) = [CallKnnApprox].
Proof.
  unfold knn_approx. run.
  destruct (distance (metric hp)); [|reflexivity].
  destruct (_ && _); [|reflexivity].
  destruct (topk hp <? 0)%Z; [reflexivity|].
  destruct (topk hp =? 0)%Z; [reflexivity|].
  destruct (length query =? 0)%nat; reflexivity.
Qed.

(** [forward] announces itself, then the miner when it gets to it. *)
Lemma forward_calls (dist : Dist) img_q img_k b s :
  exists l,
    calls (fwd dist img_q img_k b s) = CallForward b :: l /\
    l `prefix_of` (if use_knn hp then [CallKnnApprox] else []) /\
    (forall out, result (fwd dist img_q img_k b s) = inr out ->
                 l = if use_knn hp then [CallKnnApprox] else []).
Proof.
  unfold forward. rewrite run_bind. cbn [result final calls emit].
  rewrite run_bind. cbn [result final calls get].
  rewrite run_bind.
  match goal with |- context [result (?m s)] => set (kc := m s) end.
  assert (Hkc : calls kc = [] /\ final kc = s).
  { subst kc. destruct (_use_ddp_or_ddp2 trainer); [|done].
    rewrite run_bind. cbn.
    destruct (_batch_shuffle_ddp _ _ _ _) as [e|[x i]]; done. }
  destruct Hkc as [Hc Hf]. rewrite Hc, Hf.
  destruct (result kc) as [e|key]; cbn [result final calls app].
  { exists []. split; [done|]. split; [apply prefix_nil|]. discriminate. }
  rewrite run_bind. cbn [result final calls lift].
  destruct (einsum_nc_nc_n _ key) as [e|l_pos]; cbn [result final calls app].
  { exists []. split; [done|]. split; [apply prefix_nil|]. discriminate. }
  rewrite run_bind.
  match goal with |- context [result (?m s)] => set (nc := m s) end.
  assert (Hnc : calls nc = (if use_knn hp then [CallKnnApprox] else [])
                /\ final nc = s).
  { subst nc. destruct (use_knn hp); [|done].
    rewrite run_bind.
    pose proof (knn_approx_calls
                  (normalize (encoder_apply (encoder_q s) img_q)) s) as Ek.
    pose proof (knn_approx_preserves hp (fun s' => s' = s)
                  (normalize (encoder_apply (encoder_q s) img_q)) s eq_refl)
      as Es.
    destruct (result (knn_approx hp _ s)); cbn; rewrite Ek; [done|].
    rewrite Es. by rewrite app_nil_r. }
  destruct Hnc as [Hc' Hf']. rewrite Hc', Hf'.
  destruct (result nc) as [e|l_neg]; cbn [result final calls app].
  { eexists. split; [reflexivity|]. split; [done|]. discriminate. }
  rewrite run_bind. cbn [result final calls lift].
  destruct (cat_dim1 _ _) as [e|raw]; cbn [result final calls app];
    rewrite ?app_nil_r; eexists; (split; [reflexivity|]); split; done.
Qed.
(** A training step, stage by stage: what it returns, the state it leaves
    and the calls it made, according to the stage that stops it. *)
Lemma training_step_run (dist : Dist) img_1 img_2 s :
  let s1 := final (_momentum_update_key_encoder hp s) in
  let f := fwd dist img_1 img_2 Train s1 in
  train_step dist img_1 img_2 s =
  match result (_momentum_update_key_encoder hp s) with
  | inl e => MkOut (inl e) s1 [CallMomentumUpdate]
  | inr _ =>
      match result f with
      | inl e => MkOut (inl e) s1 (CallMomentumUpdate :: calls f)
      | inr (output, target, query, keys) =>
          let s3 := final (enqueue dist keys Train Train s1) in
          match result (enqueue dist keys Train Train s1) with
          | inl e =>
              MkOut (inl e) s3
                (CallMomentumUpdate
                   :: calls f ++ [CallDequeueAndEnqueue Train Train])
          | inr _ =>
              match cross_entropy output target with
              | inl e =>
                  MkOut (inl e) s3
                    (CallMomentumUpdate
                       :: calls f ++ [CallDequeueAndEnqueue Train Train;
                                      CallCrossEntropy])
              | inr ce =>
                  match precision_at_k output target with
                  | inl e =>
                      MkOut (inl e) s3
                        (CallMomentumUpdate
                           :: calls f
                           ++ [CallDequeueAndEnqueue Train Train;
                               CallCrossEntropy]
                           ++ (if use_kmeans hp then [CallKmeansLoss] else [])
                           ++ [CallPrecisionAtK])
                  | inr _ =>
                      MkOut
                        (if use_kmeans hp
                         then l ← result (kmeans_loss hp encoder_kmeans
                                            query keys s1);
                              mret (ce ⊕ l)
                         else inr ce)
                        s3
                        (CallMomentumUpdate
                           :: calls f
                           ++ [CallDequeueAndEnqueue Train Train;
                               CallCrossEntropy]
                           ++ (if use_kmeans hp then [CallKmeansLoss] else [])
                           ++ [CallPrecisionAtK; CallLogDict])
                  end
              end
          end
      end
  end.
Proof.
  intros s1 f. unfold training_step.
  rewrite run_bind. rewrite (momentum_update_calls s).
  destruct (result (_momentum_update_key_encoder hp s)) as [e|[]] eqn:E1;
    cbn [result final calls]; [reflexivity|].
  fold s1. rewrite run_bind. fold f.
  pose proof (forward_preserves hp trainer encoder_apply (fun s' => s' = s1)
                dist img_1 img_2 Train s1 eq_refl) as Ef2.
  fold f in Ef2. rewrite Ef2.
  destruct (result f) as [e|[[[output target] query] keys]] eqn:E2;
    cbn [result final calls app]; [reflexivity|].
  rewrite run_bind, (enqueue_calls dist keys Train Train s1).
  destruct (result (enqueue dist keys Train Train s1)) as [e|[]] eqn:E3;
    cbn [result final calls app]; [reflexivity|].
  set (s3 := final (enqueue dist keys Train Train s1)).
  rewrite run_bind. cbn [result final calls emit].
  rewrite run_bind. cbn [result final calls lift].
  destruct (cross_entropy output target) as [e|ce];
    cbn [result final calls app]; [reflexivity|].
  rewrite run_bind.
  assert (Hk :
    (if use_kmeans hp
     then l ← kmeans_loss hp encoder_kmeans query keys; mret (ce ⊕ l)
     else mret ce) s3
    = MkOut (if use_kmeans hp
             then l ← result (kmeans_loss hp encoder_kmeans query keys s1);
                  mret (ce ⊕ l)
             else inr ce)
            s3 (if use_kmeans hp then [CallKmeansLoss] else [])).
  { destruct (use_kmeans hp); reflexivity. }
  rewrite Hk. clear Hk.
  assert (Hl : exists loss,
    (if use_kmeans hp
     then l ← result (kmeans_loss hp encoder_kmeans query keys s1);
          mret (ce ⊕ l)
     else inr ce) = inr loss).
  { destruct (use_kmeans hp); eexists; reflexivity. }
  destruct Hl as [loss ->]. cbn [result final calls].
  rewrite run_bind. cbn [result final calls emit].
  rewrite run_bind. cbn [result final calls lift].
  destruct (precision_at_k output target) as [e|[acc1 acc5]];
    cbn [result final calls app].
  { rewrite ?app_nil_r. reflexivity. }
  repeat match goal with
  | |- context [(?m ≫= ?g) s3] =>
      change ((m ≫= g) s3) with (MkOut (inr loss) s3 [CallLogDict])
  end.
  cbn [result final calls app]. reflexivity.
Qed.

(** C8.  A training step runs, in this order, the momentum update,
    [forward], the enqueue on the training queue, the cross-entropy, the
    clustering loss when it is enabled, [precision_at_k] and the logging:
    its calls are a prefix of [training_calls], all of it when the step
    returns.  Each stage runs when the ones before it returned and its
    exception is the one of the step: [forward] runs on the module as the
    momentum update left it (on one device the keys come from the blended
    key encoder), the enqueue stores the keys [forward] returned, and
    only then the loss is computed from the logits and the all-zero
    target of [forward] and the accuracies from the same two.  The value
    returned is that loss.  The state the step leaves is the one the
    enqueue leaves, whether the loss and the metrics return or raise
    (the one the momentum update leaves when the step stops before the
    enqueue). *)
Theorem training_step_order (dist : Dist) img_1 img_2 s :
  let o := train_step dist img_1 img_2 s in
  let s1 := final (_momentum_update_key_encoder hp s) in
  calls o `prefix_of` training_calls hp /\
  (forall loss, result o = inr loss ->
     calls o = training_calls hp /\
     result (_momentum_update_key_encoder hp s) = inr tt /\
     exists output target query keys,
       result (fwd dist img_1 img_2 Train s1)
       = inr (output, target, query, keys) /\
       (_use_ddp_or_ddp2 trainer = false ->
        keys = normalize (encoder_apply (encoder_k s1) img_2)) /\
       result (enqueue dist keys Train Train s1) = inr tt /\
       final o = final (enqueue dist keys Train Train s1) /\
       target = zeros (length output) /\
       exists ce acc,
         cross_entropy output target = inr ce /\
         precision_at_k output target = inr acc /\
         if use_kmeans hp
         then exists l,
                result (kmeans_loss hp encoder_kmeans query keys s1) = inr l /\
                loss = ce ⊕ l
         else loss = ce) /\
  result o =
    (_ ← result (_momentum_update_key_encoder hp s);
     '(output, target, query, keys) ← result (fwd dist img_1 img_2 Train s1);
     _ ← result (enqueue dist keys Train Train s1);
     ce ← cross_entropy output target;
     loss ← (if use_kmeans hp
             then l ← result (kmeans_loss hp encoder_kmeans query keys s1);
                  mret (ce ⊕ l)
             else mret ce);
     _ ← precision_at_k output target;
     mret loss) /\
  final o =
    match result (_momentum_update_key_encoder hp s) with
    | inl _ => s1
    | inr _ =>
        match result (fwd dist img_1 img_2 Train s1) with
        | inl _ => s1
        | inr (_, _, _, keys) => final (enqueue dist keys Train Train s1)
        end
    end.
Proof.
  intros o s1. subst o.
  rewrite (training_step_run dist img_1 img_2 s). cbn zeta. fold s1.
  unfold training_calls.
  destruct (result (_momentum_update_key_encoder hp s)) as [e|[]] eqn:E1;
    cbn [result final calls].
  { split; [apply prefix_cons, prefix_nil|]. split; [discriminate|done]. }
  destruct (forward_calls dist img_1 img_2 Train s1)
    as (l & Ec2 & Hpre & Hfull).
  rewrite Ec2.
  destruct (result (fwd dist img_1 img_2 Train s1))
    as [e|[[[output target] query] keys]] eqn:E2; cbn [result final calls].
  { split; [|split; [discriminate|done]].
    cbn. do 2 apply prefix_cons. by apply prefix_app_r. }
  rewrite (Hfull _ eq_refl). clear Hpre Hfull Ec2 l.
  cbn [mbind sum_exn_bind].
  destruct (result (enqueue dist keys Train Train s1)) as [e|[]] eqn:E3;
    cbn [result final calls].
  { split; [|split; [discriminate|done]].
    cbn. do 2 apply prefix_cons.
    apply prefix_app, prefix_cons, prefix_nil. }
  cbn [mbind sum_exn_bind].
  destruct (cross_entropy output target) as [e|ce] eqn:Ece;
    cbn [result final calls].
  { split; [|split; [discriminate|done]].
    cbn. do 2 apply prefix_cons.
    apply prefix_app. do 2 apply prefix_cons. apply prefix_nil. }
  destruct (precision_at_k output target) as [e|acc] eqn:Eacc;
    cbn [result final calls].
  { split; [|split; [discriminate|]].
    - cbn. do 2 apply prefix_cons.
      apply prefix_app. do 2 apply prefix_cons.
      apply prefix_app, prefix_cons, prefix_nil.
    - split; [|done]. destruct (use_kmeans hp); reflexivity. }
  split; [reflexivity|]. split.
  - intros loss Hloss. split; [reflexivity|]. split; [reflexivity|].
    exists output, target, query, keys.
    apply forward_inr in E2 as (_ & _ & Htarget & _ & _ & _ & _ & Hkeys).
    split; [reflexivity|]. split; [exact Hkeys|]. split; [exact E3|].
    split; [reflexivity|]. split; [exact Htarget|].
    exists ce, acc. split; [exact Ece|]. split; [exact Eacc|].
    destruct (use_kmeans hp).
    + eexists. split; [reflexivity|]. cbn in Hloss. by injection Hloss.
    + by injection Hloss.
  - split; [|done]. destruct (use_kmeans hp); reflexivity.
Qed.
End Order.


(** ** Runs on the rational bench *)

Lemma pointer_in_range_and_advances_witness :
  let keys : Mat := [[1%Q; 0%Q]; [0%Q; 1%Q]] in
  get_ptr Train
    (final (enqueue_all hp_queue single Train
              [(alone, keys); (alone, keys); (alone, keys)] model0))
  = ((Z.of_nat 3 * 2) mod 4)%Z.
Proof.
  intros keys.
  apply (proj1 (proj2 (proj2
           (pointer_in_range_and_advances hp_queue single mock_encoder
              mock_kmeans mock_cross_entropy mock_precision_at_k eq_refl)))
         Train [(alone, keys); (alone, keys); (alone, keys)] model0).
  - reflexivity.
  - repeat constructor.
  - vm_compute. reflexivity.
Defined.

Lemma enqueue_writes_one_slice_witness :
  (forall s b,
     reachable hp_queue single mock_encoder mock_kmeans mock_cross_entropy
               mock_precision_at_k model0 s ->
     (get_ptr b s + 2 <= 4)%Z)
  <-> (2 | 4)%Z.
Proof.
  apply (proj2 (proj2
           (enqueue_writes_one_slice hp_queue single mock_encoder mock_kmeans
              mock_cross_entropy mock_precision_at_k 2%nat
              eq_refl eq_refl ltac:(lia)))
         [[0%Q; 0%Q]]
         [[1%Q; 0%Q; 1%Q; 0%Q]; [0%Q; 1%Q; 0%Q; 1%Q]]
         [[(-1)%Q; 0%Q; (-1)%Q; 0%Q]; [0%Q; (-1)%Q; 0%Q; (-1)%Q]]).
  - split; [reflexivity|]. repeat constructor.
  - split; [reflexivity|]. repeat constructor.
Defined.

Lemma training_step_order_witness :
  let o := training_step hp_queue single mock_encoder mock_kmeans
             mock_cross_entropy mock_precision_at_k alone views_1 views_2
             model0 in
  calls o = [CallMomentumUpdate; CallForward Train;
             CallDequeueAndEnqueue Train Train; CallCrossEntropy;
             CallPrecisionAtK; CallLogDict].
Proof.
  intros o.
  apply (proj1 (proj2 (training_step_order hp_queue single mock_encoder
                         mock_kmeans mock_cross_entropy mock_precision_at_k
                         alone views_1 views_2 model0)) (56 # 5)%Q).
  vm_compute. reflexivity.
Defined.

(** C1.  The KNN path at [emb_dim = 2], [topk = 1]: each query has one
    neighbour, yet the block of negative logits has two columns, one per
    embedding coordinate ([query[c] * neighbour[c]], not their sum), so the
    logits are [batch x (1 + emb_dim)] and not [batch x (1 + topk)]. *)
Theorem knn_logits_have_emb_dim_columns :
  topk hp_knn = 1%Z /\ emb_dim hp_knn = 2%nat /\
  result (knn_approx hp_knn [[1%Q; 0%Q]; [0%Q; 1%Q]] model0)
  = inr [[[1%Q; 0%Q]]; [[0%Q; 1%Q]]] /\
  result (forward hp_knn single mock_encoder alone views_1 views_2 Train model0)
  = inr ([[6 # 5; 2%Q; 0%Q]; [2%Q; 0%Q; 2%Q]],
         [0%Q; 0%Q],
         [[1%Q; 0%Q]; [0%Q; 1%Q]],
         [[3 # 5; 4 # 5]; [0%Q; 1%Q]]).
Proof. repeat split; vm_compute; reflexivity. Qed.

(** C2.  The KNN path in a validation step: the negatives are the
    neighbours found in the training queue.  Replacing the validation queue
    leaves the logits as they are, replacing the training queue changes
    them (and the loss computed from them); the step still writes the
    validation queue and pointer only. *)
Theorem knn_validation_reads_training_queue :
  let fwd_val := forward hp_knn single mock_encoder alone views_1 views_2 Val in
  let val_step := validation_step hp_knn single mock_encoder mock_kmeans
                    mock_cross_entropy mock_precision_at_k alone
                    views_1 views_2 in
  (forall m, result (fwd_val (set_queue Val m model0))
             = result (fwd_val model0)) /\
  result (fwd_val model0)
  = inr ([[6 # 5; 2%Q; 0%Q]; [2%Q; 0%Q; 2%Q]],
         [0%Q; 0%Q], [[1%Q; 0%Q]; [0%Q; 1%Q]], [[3 # 5; 4 # 5]; [0%Q; 1%Q]]) /\
  result (fwd_val (set_queue Train other_queue model0))
  = inr ([[6 # 5; 6 # 5; 0%Q]; [2%Q; 0%Q; 8 # 5]],
         [0%Q; 0%Q], [[1%Q; 0%Q]; [0%Q; 1%Q]], [[3 # 5; 4 # 5]; [0%Q; 1%Q]]) /\
  result (val_step model0) = inr ((36 # 5)%Q, 0%Q, 0%Q) /\
  result (val_step (set_queue Val other_queue model0))
  = inr ((36 # 5)%Q, 0%Q, 0%Q) /\
  result (val_step (set_queue Train other_queue model0))
  = inr (6%Q, 0%Q, 0%Q) /\
  queue (final (val_step model0)) = queue model0 /\
  queue_ptr (final (val_step model0)) = queue_ptr model0 /\
  val_queue_ptr (final (val_step model0)) = 2%Z.
Proof.
  intros fwd_val val_step. split.
  - intros m. apply knn_forward_ignores_queue. reflexivity.
  - repeat split; vm_compute; reflexivity.
Qed.


(** * Further properties *)

(** ** The buffers over the life of the module *)

Section Buffers.
Context `{Scalar}.
Local Open Scope real_scope.
Context {Img : Type} (hp : HParams) (trainer : Trainer).
Context (encoder_apply : Params -> list Img -> Mat).
Context (encoder_kmeans : Mat -> Mat).
Context (cross_entropy : Mat -> Vec -> exn + real).
Context (precision_at_k : Mat -> Vec -> exn + real * real).

Local Abbreviation enqueue := (@_dequeue_and_enqueue _ Img hp trainer).
Local Abbreviation gathered := (@gathered_keys _ Img trainer).
Local Abbreviation fwd := (forward hp trainer encoder_apply).
Local Abbreviation train_step :=
  (training_step hp trainer encoder_apply encoder_kmeans cross_entropy
                 precision_at_k).
Local Abbreviation val_step :=
  (validation_step hp trainer encoder_apply encoder_kmeans cross_entropy
                   precision_at_k).
Local Abbreviation reach :=
  (reachable hp trainer encoder_apply encoder_kmeans cross_entropy
             precision_at_k).
Local Abbreviation N := (num_negatives hp).
Local Abbreviation bs := (batch_size hp).

Lemma slice_bound_range n x : (0 <= n)%Z -> (0 <= slice_bound n x <= n)%Z.
Proof. intros Hn. unfold slice_bound. destruct (Z.ltb_spec x 0); lia. Qed.

(** Whatever the bounds and the keys, a slice assignment that goes
    through leaves a matrix of the shape of the queue. *)
Lemma assign_columns_T_shape (queue keys m : Mat) D W a b :
  has_shape queue D W ->
  assign_columns_T queue a b keys = inr m -> has_shape m D W.
Proof.
  intros [Hl Hr] E. unfold assign_columns_T in E.
  destruct (_ && _); [|discriminate]. injection E as <-.
  split; [by rewrite length_imap|].
  apply Forall_lookup. intros i row Hi.
  rewrite list_lookup_imap in Hi.
  destruct (queue !! i) as [r|] eqn:Er; [|done]. cbn in Hi. injection Hi as <-.
  assert (Hw : length r = W).
  { rewrite Forall_forall in Hr. apply Hr. by eapply list_elem_of_lookup_2. }
  assert (Hc : ncols queue = W).
  { destruct queue as [|r0 queue]; [done|]. cbn. by inversion Hr. }
  rewrite Hc.
  pose proof (slice_bound_range (Z.of_nat W) a ltac:(lia)).
  pose proof (slice_bound_range (Z.of_nat W) b ltac:(lia)).
  rewrite !length_app, length_take, length_map, length_seq, length_drop. lia.
Qed.

Lemma enqueue_keeps_shape (dist : Dist) keys qp q D W :
  preserves (fun s => forall b, has_shape (get_queue b s) D W)
            (enqueue dist keys qp q).
Proof.
  intros s Hs.
  destruct (decide (Z.of_nat (length (gathered dist keys)) = bs)) as [E|E].
  - rewrite (enqueue_full_batch hp trainer dist keys qp q s E). cbn zeta.
    destruct (assign_columns_T _ _ _ _) as [e|m] eqn:Ea; [exact Hs|].
    pose proof (assign_columns_T_shape _ _ _ _ _ _ _ (Hs q) Ea) as Hm.
    destruct (py_mod _ _) as [e|p]; cbn [final]; intros b';
      rewrite ?get_queue_set_ptr, get_queue_set_queue; case_decide; subst; auto.
  - by rewrite (enqueue_other_size hp trainer dist keys qp q s E).
Qed.

Lemma reach_shape params q0 vq0 D W s :
  has_shape q0 D W -> has_shape vq0 D W ->
  reach (init params q0 vq0) s -> forall b, has_shape (get_queue b s) D W.
Proof.
  intros Hq Hv Hs.
  apply (reachable_invariant hp trainer encoder_apply encoder_kmeans
           cross_entropy precision_at_k
           (fun s => forall b, has_shape (get_queue b s) D W)
           (init params q0 vq0)); [| | | |exact Hs].
  - by intros [].
  - intros p s' Hs' []; [apply (Hs' Train)|apply (Hs' Val)].
  - intros p s' Hs' []; [apply (Hs' Train)|apply (Hs' Val)].
  - intros. apply enqueue_keeps_shape.
Qed.

(** X1.  The two queues keep the shape they were built with: in every
    state the module reaches (after any sequence of steps, enqueues and
    optimizer steps, the ones that raised included) both are still
    [D x W] matrices.  An enqueue overwrites entries, it never adds or
    removes a row or a column. *)
Theorem queues_keep_shape params q0 vq0 D W s :
  has_shape q0 D W -> has_shape vq0 D W ->
  reach (init params q0 vq0) s ->
  has_shape (queue s) D W /\ has_shape (val_queue s) D W.
Proof.
  intros Hq Hv Hs. split.
  - apply (reach_shape params q0 vq0 D W s Hq Hv Hs Train).
  - apply (reach_shape params q0 vq0 D W s Hq Hv Hs Val).
Qed.

Lemma assign_columns_T_overflow (queue keys : Mat) D W (ptr : Z) :
  has_shape queue D W -> (0 < D)%nat -> (0 <= ptr < Z.of_nat W)%Z ->
  (Z.of_nat W < ptr + Z.of_nat (length keys))%Z ->
  assign_columns_T queue ptr (ptr + Z.of_nat (length keys)) keys
  = inl RuntimeError.
Proof.
  intros Hq HD Hp Hover. unfold assign_columns_T.
  rewrite (ncols_shape _ _ _ Hq HD).
  rewrite (slice_bound_id _ ptr) by lia.
  rewrite slice_bound_clamp by lia.
  destruct (Nat.eqb_spec (length keys) (Z.to_nat (Z.of_nat W) - Z.to_nat ptr))
    as [E|_]; [lia|].
  destruct (Nat.eqb_spec (length keys) 1) as [E|_]; [lia|].
  reflexivity.
Qed.

(** X2.  A full batch that does not fit between the pointer and the end
    of the queue is refused: the enqueue raises [RuntimeError] (the slice
    [queue[:, ptr:ptr+batch_size]] is narrower than [keys.T]) and the
    module is left exactly as it was, pointer included, so the same call
    fails again on every retry. *)
Theorem enqueue_overflow_raises (dist : Dist) keys qp q s D :
  Z.of_nat (length (gathered dist keys)) = bs ->
  has_shape (get_queue q s) D (Z.to_nat N) -> (0 < D)%nat ->
  (0 <= get_ptr qp s < N)%Z -> (N < get_ptr qp s + bs)%Z ->
  enqueue dist keys qp q s
  = MkOut (inl RuntimeError) s [CallDequeueAndEnqueue qp q].
Proof.
  intros E Hq HD Hp Hover.
  rewrite (enqueue_full_batch hp trainer dist keys qp q s E). cbn zeta.
  rewrite <- E.
  rewrite (assign_columns_T_overflow _ _ D (Z.to_nat N));
    [done|done|done|lia|lia].
Qed.

Lemma reach_aligned params q0 vq0 s :
  (0 < N)%Z -> (bs | N)%Z -> reach (init params q0 vq0) s ->
  forall b, (bs | get_ptr b s)%Z /\ (0 <= get_ptr b s < N)%Z.
Proof.
  intros HN HbN Hs.
  apply (reachable_invariant hp trainer encoder_apply encoder_kmeans
           cross_entropy precision_at_k
           (fun s => forall b, (bs | get_ptr b s)%Z /\
                               (0 <= get_ptr b s < N)%Z)
           (init params q0 vq0)); [| | | |exact Hs].
  - intros []; cbn; (split; [apply Z.divide_0_r|lia]).
  - intros p s' Hs' []; [apply (Hs' Train)|apply (Hs' Val)].
  - intros p s' Hs' []; [apply (Hs' Train)|apply (Hs' Val)].
  - intros dist keys b'. apply enqueue_preserves.
    + intros m s' Hs' b''. rewrite get_ptr_set_queue. apply Hs'.
    + intros s' Hs' _ b''. rewrite get_ptr_set_ptr. case_decide.
      * split; [|by apply Z.mod_pos_bound].
        apply mod_keeps_multiples; [done|done|].
        apply Z.divide_add_r; [apply Hs'|apply Z.divide_refl].
      * apply Hs'.
Qed.

(** X3.  When the capacity [N] is a multiple of the batch size, no
    enqueue ever fails: in every state the module reaches, an enqueue on
    either buffer pair returns, whatever the number of keys, as long as
    the keys have the width of the queue. *)
Theorem enqueue_returns_when_divisible params q0 vq0 D s
    (dist : Dist) keys b :
  (0 < N)%Z -> (0 < bs)%Z -> (bs | N)%Z -> (0 < D)%nat ->
  has_shape q0 D (Z.to_nat N) -> has_shape vq0 D (Z.to_nat N) ->
  reach (init params q0 vq0) s ->
  Forall (fun k => length k = D) (gathered dist keys) ->
  result (enqueue dist keys b b s) = inr tt.
Proof.
  intros HN Hb HbN HD Hq Hv Hs Hw.
  destruct (decide (Z.of_nat (length (gathered dist keys)) = bs)) as [E|E].
  - destruct (reach_aligned params q0 vq0 s HN HbN Hs b) as [Hdiv Hp].
    pose proof (multiple_fits hp _ Hb HbN Hdiv Hp) as Hfit.
    pose proof (reach_shape params q0 vq0 D _ s Hq Hv Hs b) as Hsh.
    by rewrite (enqueue_writes hp trainer dist keys b b s D HN E Hsh HD Hw
                  (proj1 Hp) Hfit).
  - by rewrite (enqueue_other_size hp trainer dist keys b b s E).
Qed.

(** X4.  [forward], [knn_approx] and [kmeans_loss] only read the module:
    whether they return or raise, the encoder parameters, both queues and
    both pointers are afterwards what they were before the call. *)
Theorem forward_writes_nothing (dist : Dist) img_q img_k b query key s :
  final (fwd dist img_q img_k b s) = s /\
  final (knn_approx hp query s) = s /\
  final (kmeans_loss hp encoder_kmeans query key s) = s.
Proof.
  split; [|split].
  - by apply (forward_preserves hp trainer encoder_apply (fun s' => s' = s)).
  - by apply (knn_approx_preserves hp (fun s' => s' = s)).
  - by apply (kmeans_loss_preserves hp encoder_kmeans (fun s' => s' = s)).
Qed.

Lemma encoders_set_queue b m s :
  encoder_q (set_queue b m s) = encoder_q s /\
  encoder_k (set_queue b m s) = encoder_k s.
Proof. by destruct b. Qed.

Lemma encoders_set_ptr b p s :
  encoder_q (set_ptr b p s) = encoder_q s /\
  encoder_k (set_ptr b p s) = encoder_k s.
Proof. by destruct b. Qed.

(** The enqueue on the buffer pair [b] writes that pair only. *)
Lemma enqueue_frame (dist : Dist) keys b s0 :
  preserves (fun s => encoder_q s = encoder_q s0 /\
                      encoder_k s = encoder_k s0 /\
                      forall b', b' <> b ->
                        get_queue b' s = get_queue b' s0 /\
                        get_ptr b' s = get_ptr b' s0)
            (enqueue dist keys b b).
Proof.
  apply enqueue_preserves.
  - intros m s (Hq & Hk & Hb).
    destruct (encoders_set_queue b m s) as [-> ->].
    split; [done|]. split; [done|]. intros b' Hb'.
    rewrite get_queue_set_queue, get_ptr_set_queue, decide_False by done.
    by apply Hb.
  - intros s (Hq & Hk & Hb) _.
    destruct (encoders_set_ptr b ((get_ptr b s + bs) mod N)%Z s) as [-> ->].
    split; [done|]. split; [done|]. intros b' Hb'.
    rewrite get_queue_set_ptr, get_ptr_set_ptr, decide_False by done.
    by apply Hb.
Qed.

(** X5.  What each writer leaves alone, whether it returns or raises.  A
    training step never writes the query encoder, the validation queue or
    its pointer; a validation step never writes either encoder, the
    training queue or its pointer; an enqueue on one buffer pair never
    writes the encoders or the other pair. *)
Theorem writers_leave_the_rest (dist : Dist) img_1 img_2 keys b s :
  let t := final (train_step dist img_1 img_2 s) in
  let v := final (val_step dist img_1 img_2 s) in
  let e := final (enqueue dist keys b b s) in
  (encoder_q t = encoder_q s /\ val_queue t = val_queue s /\
   val_queue_ptr t = val_queue_ptr s) /\
  (encoder_q v = encoder_q s /\ encoder_k v = encoder_k s /\
   queue v = queue s /\ queue_ptr v = queue_ptr s) /\
  (encoder_q e = encoder_q s /\ encoder_k e = encoder_k s /\
   forall b', b' <> b ->
     get_queue b' e = get_queue b' s /\ get_ptr b' e = get_ptr b' s).
Proof.
  intros t v e. split; [|split].
  - apply (training_step_preserves hp trainer encoder_apply encoder_kmeans
             cross_entropy precision_at_k
             (fun s' => encoder_q s' = encoder_q s /\
                        val_queue s' = val_queue s /\
                        val_queue_ptr s' = val_queue_ptr s)); [done| |done].
    intros d k. apply enqueue_preserves.
    + intros m s' Hs'. exact Hs'.
    + intros s' Hs' _. exact Hs'.
  - apply (validation_step_preserves hp trainer encoder_apply encoder_kmeans
             cross_entropy precision_at_k
             (fun s' => encoder_q s' = encoder_q s /\
                        encoder_k s' = encoder_k s /\
                        queue s' = queue s /\
                        queue_ptr s' = queue_ptr s)); [|done].
    intros d k. apply enqueue_preserves.
    + intros m s' Hs'. exact Hs'.
    + intros s' Hs' _. exact Hs'.
  - by apply (enqueue_frame dist keys b s s).
Qed.
End Buffers.

Lemma queues_keep_shape_witness :
  let s := final (training_step hp_queue single mock_encoder mock_kmeans
                    mock_cross_entropy mock_precision_at_k alone
                    views_1 views_2 model0) in
  has_shape (queue s) 2 4 /\ has_shape (val_queue s) 2 4.
Proof.
  intros s.
  apply (queues_keep_shape hp_queue single mock_encoder mock_kmeans
           mock_cross_entropy mock_precision_at_k
           [[0%Q; 0%Q]]
           [[1%Q; 0%Q; 1%Q; 0%Q]; [0%Q; 1%Q; 0%Q; 1%Q]]
           [[(-1)%Q; 0%Q; (-1)%Q; 0%Q]; [0%Q; (-1)%Q; 0%Q; (-1)%Q]]
           2%nat 4%nat s).
  - split; [reflexivity|]. repeat constructor.
  - split; [reflexivity|]. repeat constructor.
  - apply reach_training_step. apply reach_init.
Defined.

Lemma enqueue_overflow_raises_witness :
  let s := set_ptr Train 3 model0 in
  _dequeue_and_enqueue hp_queue single alone [[1%Q; 0%Q]; [0%Q; 1%Q]]
                       Train Train s
  = MkOut (inl RuntimeError) s [CallDequeueAndEnqueue Train Train].
Proof.
  intros s.
  apply (enqueue_overflow_raises hp_queue single alone
           [[1%Q; 0%Q]; [0%Q; 1%Q]] Train Train s 2%nat).
  - reflexivity.
  - split; [reflexivity|]. repeat constructor.
  - lia.
  - cbn. lia.
  - cbn. lia.
Defined.

Lemma enqueue_returns_when_divisible_witness :
  let s := final (training_step hp_queue single mock_encoder mock_kmeans
                    mock_cross_entropy mock_precision_at_k alone
                    views_1 views_2 model0) in
  result (_dequeue_and_enqueue hp_queue single alone
            [[1%Q; 0%Q]; [0%Q; 1%Q]] Val Val s) = inr tt.
Proof.
  intros s.
  apply (enqueue_returns_when_divisible hp_queue single mock_encoder
           mock_kmeans mock_cross_entropy mock_precision_at_k
           [[0%Q; 0%Q]]
           [[1%Q; 0%Q; 1%Q; 0%Q]; [0%Q; 1%Q; 0%Q; 1%Q]]
           [[(-1)%Q; 0%Q; (-1)%Q; 0%Q]; [0%Q; (-1)%Q; 0%Q; (-1)%Q]]
           2%nat s alone [[1%Q; 0%Q]; [0%Q; 1%Q]] Val).
  - reflexivity.
  - reflexivity.
  - exists 2%Z. reflexivity.
  - lia.
  - split; [reflexivity|]. repeat constructor.
  - split; [reflexivity|]. repeat constructor.
  - apply reach_training_step. apply reach_init.
  - repeat constructor.
Defined.


(** ** The queue as a ring buffer *)

Section Ring.
Context `{Scalar}.
Local Open Scope real_scope.
Context {Img : Type} (hp : HParams) (trainer : Trainer).

Local Abbreviation enqueue := (@_dequeue_and_enqueue _ Img hp trainer).
Local Abbreviation gathered := (@gathered_keys _ Img trainer).
Local Abbreviation enqueue_many := (@enqueue_all _ Img hp trainer).
Local Abbreviation N := (num_negatives hp).
Local Abbreviation bs := (batch_size hp).

Lemma entry_write_columns (queue keys : Mat) D W ptr i c :
  has_shape queue D W -> (ptr + length keys <= W)%nat ->
  (i < D)%nat -> (c < W)%nat ->
  entry (write_columns queue ptr keys) i c =
  if decide (ptr <= c < ptr + length keys)%nat
  then (fun k => nth i k f0) <$> keys !! (c - ptr)%nat
  else entry queue i c.
Proof.
  intros Hq Hfit Hi Hc.
  destruct (lookup_lt_is_Some_2 queue i) as [row Hrow].
  { destruct Hq as [-> _]. exact Hi. }
  destruct (write_columns_lookup queue keys D W ptr i c row Hq Hfit Hrow Hc)
    as (row' & Hrow' & Hc').
  unfold entry. rewrite Hrow', Hrow. cbn. exact Hc'.
Qed.

(** The pointer after the enqueue that follows [n0] others. *)
Lemma ring_next (n0 Q : nat) (b : Z) :
  (0 < b)%Z -> (0 < Q)%nat ->
  ((Z.of_nat (n0 mod Q) * b + b) mod (Z.of_nat Q * b))%Z
  = (Z.of_nat ((n0 + 1) mod Q) * b)%Z.
Proof.
  intros Hb HQ.
  replace (Z.of_nat (n0 mod Q) * b + b)%Z
    with ((Z.of_nat (n0 mod Q) + 1) * b)%Z by lia.
  rewrite Z.mul_mod_distr_r by lia. f_equal.
  rewrite !Nat2Z.inj_mod, Nat2Z.inj_add. cbn.
  by rewrite Zplus_mod_idemp_l.
Qed.

Lemma slot_of_column (r bn j : nat) : (j < bn)%nat -> ((r * bn + j) / bn = r)%nat.
Proof.
  intros Hj. rewrite Nat.div_add_l by lia. rewrite Nat.div_small by done. lia.
Qed.

Lemma column_outside_slot (c r bn : nat) :
  (c / bn <> r)%nat -> ~ (r * bn <= c < r * bn + bn)%nat.
Proof.
  intros Hne Hin. apply Hne.
  replace c with (r * bn + (c - r * bn))%nat by lia.
  apply slot_of_column. lia.
Qed.

Lemma mod_shift_ne (a d Q : nat) :
  (0 < d < Q)%nat -> ((a + d) mod Q <> a mod Q)%nat.
Proof.
  intros Hd E. rewrite <- Nat.Div0.add_mod_idemp_l in E.
  pose proof (Nat.mod_upper_bound a Q ltac:(lia)) as Hr.
  set (r := (a mod Q)%nat) in *.
  destruct (decide (r + d < Q)%nat) as [Hlt|Hge].
  - rewrite Nat.mod_small in E by done. lia.
  - replace (r + d)%nat with ((r + d - Q) + 1 * Q)%nat in E by lia.
    rewrite Nat.Div0.mod_add, Nat.mod_small in E by lia. lia.
Qed.

(** [batches] enqueued after [n0] earlier batches, on a queue of [Q]
    slots of one batch each. *)
Lemma enqueue_all_ring b D Q batches : forall n0 s,
  (0 < bs)%Z -> (0 < Q)%nat -> N = (Z.of_nat Q * bs)%Z -> (0 < D)%nat ->
  get_ptr b s = (Z.of_nat (n0 mod Q) * bs)%Z ->
  has_shape (get_queue b s) D (Z.to_nat N) ->
  Forall (fun dk : Dist * Mat =>
            Z.of_nat (length (gathered dk.1 dk.2)) = bs /\
            Forall (fun k => length k = D) (gathered dk.1 dk.2)) batches ->
  result (enqueue_many b batches s) = inr tt /\
  has_shape (get_queue b (final (enqueue_many b batches s))) D (Z.to_nat N) /\
  (forall t dist keys j k i,
     batches !! t = Some (dist, keys) -> (length batches <= t + Q)%nat ->
     gathered dist keys !! j = Some k -> (i < D)%nat ->
     entry (get_queue b (final (enqueue_many b batches s))) i
           (((n0 + t) mod Q) * Z.to_nat bs + j) = k !! i) /\
  (forall i c, (i < D)%nat -> (c < Z.to_nat N)%nat ->
     (forall t, (t < length batches)%nat ->
                (c / Z.to_nat bs <> (n0 + t) mod Q)%nat) ->
     entry (get_queue b (final (enqueue_many b batches s))) i c
     = entry (get_queue b s) i c).
Proof.
  induction batches as [|[dist keys] rest IH];
    intros n0 s Hb HQ HN HD Hp Hq Hf.
  - cbn. split; [reflexivity|]. split; [exact Hq|]. split; [|done].
    intros t dist keys j k i Ht. done.
  - inversion Hf as [|? ? [Hfull Hw] Hrest]; subst. cbn [fst snd] in Hfull, Hw.
    set (ks := gathered dist keys) in *.
    set (bn := Z.to_nat bs).
    assert (Hlen : length ks = bn) by (unfold bn; lia).
    pose proof (Nat.mod_upper_bound n0 Q ltac:(lia)) as Hr.
    set (r := (n0 mod Q)%nat) in *.
    assert (HNn : Z.to_nat N = (Q * bn)%nat).
    { rewrite HN. unfold bn. rewrite Z2Nat.inj_mul, Nat2Z.id by lia. done. }
    assert (Hpn : Z.to_nat (get_ptr b s) = (r * bn)%nat).
    { rewrite Hp. unfold bn. rewrite Z2Nat.inj_mul, Nat2Z.id by lia. done. }
    assert (Hfit : (get_ptr b s + bs <= N)%Z) by (rewrite Hp, HN; nia).
    assert (Hfitn : (r * bn + length ks <= Q * bn)%nat) by (rewrite Hlen; nia).
    pose proof (enqueue_writes hp trainer dist keys b b s D ltac:(nia) Hfull Hq
                  HD Hw ltac:(lia) Hfit) as E.
    fold ks in E. rewrite Hpn in E.
    set (s1 := set_ptr b ((get_ptr b s + bs) mod N)%Z
                 (set_queue b (write_columns (get_queue b s) (r * bn) ks) s))
      in *.
    assert (Hq1 : get_queue b s1
                  = write_columns (get_queue b s) (r * bn) ks).
    { unfold s1. by rewrite get_queue_set_ptr, get_queue_set_queue, decide_True. }
    assert (Hp1 : get_ptr b s1 = (Z.of_nat ((n0 + 1) mod Q) * bs)%Z).
    { unfold s1. rewrite get_ptr_set_ptr, decide_True by done.
      rewrite Hp, HN. by apply ring_next. }
    assert (Hsh1 : has_shape (get_queue b s1) D (Z.to_nat N)).
    { rewrite Hq1. apply write_columns_shape; [done|]. by rewrite HNn. }
    destruct (IH (n0 + 1)%nat s1 Hb HQ HN HD Hp1 Hsh1 Hrest)
      as (IHr & IHs & IHa & IHb).
    cbn [enqueue_all].
    rewrite (run_bind_ok _ _ _ tt) by (by rewrite E). rewrite E.
    cbn [result final calls].
    split; [exact IHr|]. split; [exact IHs|]. split.
    + intros t dist' keys' j k i Ht HB Hj Hi.
      destruct t as [|t]; cbn in Ht.
      * injection Ht as <- <-. fold ks in Hj. cbn [length] in HB.
        assert (Hjb : (j < bn)%nat).
        { rewrite <- Hlen. by eapply lookup_lt_Some. }
        rewrite Nat.add_0_r. fold r. fold bn.
        rewrite IHb; [|done| |].
        -- rewrite Hq1, (entry_write_columns _ _ D (Z.to_nat N));
             [|done|by rewrite HNn|done|rewrite HNn; nia].
           rewrite decide_True by lia.
           replace (r * bn + j - r * bn)%nat with j by lia.
           rewrite Hj. cbn.
           destruct (lookup_lt_is_Some_2 k i) as [x Hx].
           { rewrite Forall_forall in Hw. rewrite (Hw k); [done|].
             by eapply list_elem_of_lookup_2. }
           rewrite Hx. f_equal. by apply nth_lookup_Some.
        -- rewrite HNn. nia.
        -- intros t' Ht'. fold bn. rewrite slot_of_column by done.
           unfold r. replace (n0 + 1 + t')%nat with (n0 + (1 + t'))%nat by lia.
           intros Eq. symmetry in Eq. revert Eq. apply mod_shift_ne. lia.
      * replace (n0 + S t)%nat with (n0 + 1 + t)%nat by lia.
        apply (IHa t dist' keys' j k i Ht); [|done|done].
        cbn [length] in HB. lia.
    + intros i c Hi Hc Hslots.
      rewrite IHb; [|done|done|].
      * rewrite Hq1, (entry_write_columns _ _ D (Z.to_nat N));
          [|done|by rewrite HNn|done|done].
        rewrite decide_False; [done|]. rewrite Hlen.
        apply column_outside_slot. fold bn in Hslots.
        specialize (Hslots 0%nat ltac:(cbn; lia)).
        by rewrite Nat.add_0_r in Hslots.
      * intros t Ht. replace (n0 + 1 + t)%nat with (n0 + S t)%nat by lia.
        apply Hslots. cbn. lia.
Qed.

(** X6.  The queue is a ring buffer of [Q = N / batch_size] slots of one
    batch each.  After [B] full batches enqueued from pointer 0, each of
    the last [Q] batches sits in its slot: key [j] of batch [t] is column
    [(t mod Q) * batch_size + j], coordinate by coordinate; older batches
    have been overwritten by the batch that came [Q] enqueues later, and
    the columns no batch has reached yet hold what they held before. *)
Theorem queue_is_ring_buffer b D Q (batches : list (Dist * Mat)) s :
  (0 < bs)%Z -> (0 < Q)%nat -> N = (Z.of_nat Q * bs)%Z -> (0 < D)%nat ->
  get_ptr b s = 0%Z ->
  has_shape (get_queue b s) D (Z.to_nat N) ->
  Forall (fun dk : Dist * Mat =>
            Z.of_nat (length (gathered dk.1 dk.2)) = bs /\
            Forall (fun k => length k = D) (gathered dk.1 dk.2)) batches ->
  let after := get_queue b (final (enqueue_many b batches s)) in
  (forall t dist keys j k i,
     batches !! t = Some (dist, keys) -> (length batches <= t + Q)%nat ->
     gathered dist keys !! j = Some k -> (i < D)%nat ->
     entry after i ((t mod Q) * Z.to_nat bs + j) = k !! i) /\
  (forall i c, (i < D)%nat ->
     (length batches * Z.to_nat bs <= c < Z.to_nat N)%nat ->
     entry after i c = entry (get_queue b s) i c).
Proof.
  intros Hb HQ HN HD Hp Hq Hf after. subst after.
  destruct (enqueue_all_ring b D Q batches 0%nat s Hb HQ HN HD)
    as (_ & _ & HA & HB); [|done|done|].
  { rewrite Nat.Div0.mod_0_l. lia. }
  split; [exact HA|].
  intros i c Hi [Hlo Hhi]. apply HB; [done|done|].
  intros t Ht. cbn [Nat.add].
  assert (HNn : Z.to_nat N = (Q * Z.to_nat bs)%nat).
  { rewrite HN, Z2Nat.inj_mul, Nat2Z.id by lia. done. }
  assert (length batches <= c / Z.to_nat bs)%nat.
  { apply Nat.div_le_lower_bound; lia. }
  assert (c / Z.to_nat bs < Q)%nat.
  { apply Nat.Div0.div_lt_upper_bound. lia. }
  rewrite Nat.mod_small by lia. lia.
Qed.
End Ring.

Lemma queue_is_ring_buffer_witness :
  let batches : list (Dist * Mat) :=
    [(alone, [[1%Q; 0%Q]; [0%Q; 1%Q]]); (alone, [[2%Q; 3%Q]; [4%Q; 5%Q]]);
     (alone, [[5%Q; 6%Q]; [7%Q; 8%Q]])] in
  entry (get_queue Train
           (final (enqueue_all hp_queue single Train batches model0)))
        0 ((2 mod 2) * Z.to_nat 2 + 1)
  = [7%Q; 8%Q] !! 0%nat.
Proof.
  intros batches.
  apply (proj1 (queue_is_ring_buffer hp_queue single Train 2%nat 2%nat
                  batches model0 eq_refl ltac:(lia) eq_refl ltac:(lia)
                  eq_refl
                  ltac:(split; [reflexivity|repeat constructor])
                  ltac:(repeat constructor))
               2%nat alone [[5%Q; 6%Q]; [7%Q; 8%Q]] 1%nat [7%Q; 8%Q] 0%nat).
  - reflexivity.
  - cbn. lia.
  - reflexivity.
  - lia.
Defined.


(** ** The negative logits of the two paths *)

Section Logits.
Context `{Scalar}.
Local Open Scope real_scope.
Context {Img : Type} (hp : HParams) (trainer : Trainer).
Context (encoder_apply : Params -> list Img -> Mat).

Local Abbreviation fwd := (forward hp trainer encoder_apply).
Local Abbreviation T := (softmax_temperature hp).

(** Row [n] of the logits, from the positive logit and the row of
    negatives. *)
Lemma logits_row (query key l_neg : Mat) n q k ng :
  query !! n = Some q -> key !! n = Some k -> l_neg !! n = Some ng ->
  div_scalar (zip_with app (unsqueeze_last (zip_with dot query key)) l_neg) T
    !! n
  = Some ((dot q k ⊘ T) :: map (fun x => x ⊘ T) ng).
Proof.
  intros Hq Hk Hng. unfold div_scalar, unsqueeze_last.
  rewrite list_lookup_fmap, lookup_zip_with, list_lookup_fmap,
    lookup_zip_with, Hq.
  cbn. rewrite Hk. cbn. rewrite Hng. reflexivity.
Qed.

(** X7.  On the queue path ([use_knn] off) every query is scored against
    every column of the queue [forward] was given: when [forward]
    returns, row [n] of the logits is the positive logit followed by one
    entry per column [c] of that queue, the dot product of query [n] with
    column [c], all divided by the temperature.  The logits have one row
    per query and [1 + N] columns. *)
Theorem queue_logits_are_dot_products (dist : Dist) img_q img_k b s
    logits labels query key :
  use_knn hp = false ->
  result (fwd dist img_q img_k b s) = inr (logits, labels, query, key) ->
  length logits = length query /\
  forall n q k, query !! n = Some q -> key !! n = Some k ->
    logits !! n =
    Some ((dot q k ⊘ T) ::
          map (fun c => dot q (col c (get_queue b s)) ⊘ T)
              (seq 0 (ncols (get_queue b s)))).
Proof.
  intros E Hr.
  apply forward_inr in Hr as (_ & Hlen & _ & l_neg & Hl & -> & Hneg & _).
  rewrite E in Hneg. cbn in Hneg. unfold einsum_nc_ck_nk in Hneg.
  destruct (forallb _ query); [|discriminate]. injection Hneg as <-.
  split.
  - unfold div_scalar, unsqueeze_last.
    rewrite length_map, length_zip_with, length_map, length_zip_with,
      length_map. lia.
  - intros n q k Hq Hk.
    rewrite (logits_row _ _ _ n q k (map (dot q) (transpose (get_queue b s))))
      by (done || by rewrite list_lookup_fmap, Hq).
    unfold transpose. by rewrite !map_map.
Qed.

(** X8.  On the KNN path every row of the negative block has one entry per
    embedding coordinate, whatever [topk] is: when [forward] returns, row
    [n] of the logits is the positive logit followed, for each coordinate
    [c] of query [n], by [query[n][c]] times coordinate [c] of each
    neighbour [knn_approx] returned for that query, summed over the
    neighbours, all divided by the temperature.  A row has [1 + D]
    entries, [D] being the width of the query. *)
Theorem knn_logits_sum_over_neighbours (dist : Dist) img_q img_k b s
    logits labels query key :
  use_knn hp = true ->
  result (fwd dist img_q img_k b s) = inr (logits, labels, query, key) ->
  exists neg,
    result (knn_approx hp query s) = inr neg /\
    length neg = length query /\
    forall n q k nbs,
      query !! n = Some q -> key !! n = Some k -> neg !! n = Some nbs ->
      exists row,
        logits !! n = Some row /\
        row = (dot q k ⊘ T) ::
              imap (fun c x => fsum (map (fun nb => x ⊗ nth c nb f0) nbs) ⊘ T)
                   q /\
        length row = S (length q).
Proof.
  intros E Hr.
  apply forward_inr in Hr as (_ & Hlen & _ & l_neg & Hl & -> & Hneg & _).
  rewrite E in Hneg.
  apply bind_ok_inv in Hneg as (neg & Hknn & Hein & _).
  cbn in Hein. unfold einsum_nc_njc_nc, same_len in Hein.
  destruct (Nat.eqb_spec (length query) (length neg)) as [Hln|];
    [|discriminate].
  destruct (forallb _ _); [|discriminate]. cbn in Hein.
  injection Hein as <-.
  exists neg. split; [exact Hknn|]. split; [done|].
  intros n q k nbs Hq Hk Hn. eexists. split; [|split; [reflexivity|]].
  - rewrite (logits_row _ _ _ n q k
               (imap (fun c x => fsum (map (fun nb => x ⊗ nth c nb f0) nbs)) q)).
    + by rewrite fmap_imap.
    + done.
    + done.
    + by rewrite lookup_zip_with, Hq; cbn; rewrite Hn.
  - cbn. by rewrite length_imap.
Qed.
End Logits.

Section Neighbours.
Context `{Scalar}.
Local Open Scope real_scope.
Context (hp : HParams).

(** X9.  The neighbours come from the training queue: when [knn_approx]
    returns, it holds for each query [topk] columns of [self.queue]; and
    when [topk] is at most the number of columns of the queue, they are
    taken at [topk] different positions. *)
Theorem knn_neighbours_are_queue_columns query s t :
  result (knn_approx hp query s) = inr t ->
  length t = length query /\
  forall n nbs, t !! n = Some nbs ->
    exists idx : list nat,
      length idx = Z.to_nat (topk hp) /\
      Forall (fun c => (c < ncols (queue s))%nat) idx /\
      nbs = map (fun c => col c (queue s)) idx /\
      ((topk hp <= Z.of_nat (ncols (queue s)))%Z -> NoDup idx).
Proof.
  unfold knn_approx. run.
  destruct (distance (metric hp)) as [d|]; [|discriminate].
  destruct (_ && _); [|discriminate].
  destruct (topk hp <? 0)%Z; [discriminate|].
  destruct (topk hp =? 0)%Z; [discriminate|].
  destruct (length query =? 0)%nat; [discriminate|]. cbn.
  intros Et. apply traverse_inr_lookup in Et as [Hl Hrows].
  rewrite length_map in Hl. split; [exact Hl|].
  intros n nbs Hn.
  destruct (lookup_lt_is_Some_2 query n) as [x Hx].
  { rewrite <- Hl. by eapply lookup_lt_Some. }
  set (queue' := transpose (queue s)) in *.
  set (idx := argKmin (Z.to_nat (topk hp)) (map (d x) queue')).
  destruct (Hrows n idx) as (nbs' & Hn' & Ei).
  { by rewrite list_lookup_fmap, Hx. }
  rewrite Hn in Hn'. injection Hn' as <-.
  assert (Hlq : length queue' = ncols (queue s)).
  { unfold queue', transpose. by rewrite length_map, length_seq. }
  apply traverse_inr_lookup in Ei as [Hln Hnb].
  assert (Hlt : Forall (fun c => (c < ncols (queue s))%nat) idx).
  { apply Forall_lookup. intros j c Hc.
    destruct (Hnb j c Hc) as (nb & _ & Hitem). unfold item in Hitem.
    destruct (queue' !! c) as [r|] eqn:Er; [|discriminate].
    rewrite <- Hlq. by eapply lookup_lt_Some. }
  exists idx. split; [apply argKmin_length|]. split; [exact Hlt|]. split.
  - apply list_eq. intros j. rewrite list_lookup_fmap.
    destruct (idx !! j) as [c|] eqn:Ec; cbn.
    + destruct (Hnb j c Ec) as (nb & Hnbj & Hitem).
      rewrite Hnbj. unfold item in Hitem.
      destruct (queue' !! c) as [r|] eqn:Er; [|discriminate].
      injection Hitem as <-. f_equal.
      unfold queue', transpose in Er. rewrite list_lookup_fmap in Er.
      destruct (seq 0 (ncols (queue s)) !! c) as [c'|] eqn:Es; [|discriminate].
      apply lookup_seq in Es as [-> _]. cbn in Er. by injection Er as <-.
    + apply lookup_ge_None. rewrite Hln. by apply lookup_ge_None.
  - intros Hk. apply argKmin_NoDup. rewrite length_map, Hlq. lia.
Qed.
End Neighbours.

Lemma queue_logits_are_dot_products_witness :
  [[6 # 5; (-2)%Q; 0%Q; (-2)%Q; 0%Q]; [2%Q; 0%Q; (-2)%Q; 0%Q; (-2)%Q]] !! 1%nat
  = Some (fdiv (dot [0%Q; 1%Q] [0%Q; 1%Q]) (1 # 2)%Q ::
          map (fun c => fdiv (dot [0%Q; 1%Q] (col c (get_queue Val model0)))
                             (1 # 2)%Q)
              (seq 0 (ncols (get_queue Val model0)))).
Proof.
  apply (proj2 (queue_logits_are_dot_products hp_queue single mock_encoder
                  alone views_1 views_2 Val model0
                  _ [0%Q; 0%Q] [[1%Q; 0%Q]; [0%Q; 1%Q]]
                  [[3 # 5; 4 # 5]; [0%Q; 1%Q]] eq_refl
                  ltac:(vm_compute; reflexivity))
               1%nat [0%Q; 1%Q] [0%Q; 1%Q]).
  - reflexivity.
  - reflexivity.
Defined.

Lemma knn_logits_sum_over_neighbours_witness :
  exists neg,
    result (knn_approx hp_knn [[1%Q; 0%Q]; [0%Q; 1%Q]] model0) = inr neg /\
    length neg = 2%nat /\
    forall n q k nbs,
      [[1%Q; 0%Q]; [0%Q; 1%Q]] !! n = Some q ->
      [[3 # 5; 4 # 5]; [0%Q; 1%Q]] !! n = Some k ->
      neg !! n = Some nbs ->
      exists row,
        [[6 # 5; 2%Q; 0%Q]; [2%Q; 0%Q; 2%Q]] !! n = Some row /\
        row = fdiv (dot q k) (1 # 2)%Q ::
              imap (fun c x =>
                      fdiv (fsum (map (fun nb => fmul x (nth c nb f0)) nbs))
                           (1 # 2)%Q) q /\
        length row = S (length q).
Proof.
  apply (knn_logits_sum_over_neighbours hp_knn single mock_encoder
           alone views_1 views_2 Train model0
           _ [0%Q; 0%Q] [[1%Q; 0%Q]; [0%Q; 1%Q]]
           [[3 # 5; 4 # 5]; [0%Q; 1%Q]] eq_refl).
  vm_compute. reflexivity.
Defined.

Lemma knn_neighbours_are_queue_columns_witness :
  length [[[1%Q; 0%Q]]; [[0%Q; 1%Q]]] = 2%nat /\
  forall n nbs, [[[1%Q; 0%Q]]; [[0%Q; 1%Q]]] !! n = Some nbs ->
    exists idx : list nat,
      length idx = 1%nat /\
      Forall (fun c => (c < 4)%nat) idx /\
      nbs = map (fun c => col c (queue model0)) idx /\
      ((1 <= 4)%Z -> NoDup idx).
Proof.
  apply (knn_neighbours_are_queue_columns hp_knn
           [[1%Q; 0%Q]; [0%Q; 1%Q]] model0).
  vm_compute. reflexivity.
Defined.


(** ** What the two steps return *)

Section Steps.
Context `{Scalar}.
Local Open Scope real_scope.
Context {Img : Type} (hp : HParams) (trainer : Trainer).
Context (encoder_apply : Params -> list Img -> Mat).
Context (encoder_kmeans : Mat -> Mat).
Context (cross_entropy : Mat -> Vec -> exn + real).
Context (precision_at_k : Mat -> Vec -> exn + real * real).

Local Abbreviation enqueue := (@_dequeue_and_enqueue _ Img hp trainer).
Local Abbreviation gathered := (@gathered_keys _ Img trainer).
Local Abbreviation fwd := (forward hp trainer encoder_apply).
Local Abbreviation train_step :=
  (training_step hp trainer encoder_apply encoder_kmeans cross_entropy
                 precision_at_k).
Local Abbreviation val_step :=
  (validation_step hp trainer encoder_apply encoder_kmeans cross_entropy
                   precision_at_k).
Local Abbreviation bs := (batch_size hp).

(** The loss of a step once the cross-entropy [ce] is known. *)
Lemma step_loss_inr ce query keys s loss :
  result ((if use_kmeans hp
           then l ← kmeans_loss hp encoder_kmeans query keys; mret (ce ⊕ l)
           else mret ce) s) = inr loss ->
  if use_kmeans hp
  then exists l, (forall s', result (kmeans_loss hp encoder_kmeans query keys s')
                             = inr l) /\ loss = ce ⊕ l
  else loss = ce.
Proof.
  destruct (use_kmeans hp).
  - intros Hr. apply bind_ok_inv in Hr as (l & Hl & Hr & _).
    cbn in Hr. injection Hr as <-. exists l. split; [|done].
    intros s'. exact Hl.
  - cbn. by intros [= <-].
Qed.

(** X10.  The loss a training step returns is the cross-entropy of the
    logits of [forward] against the all-zero labels, plus the clustering
    loss of the queries and keys when [use_kmeans] is on.  [forward] ran
    on the module as the momentum update left it, the enqueue and both
    metric functions returned, and the accuracies were only logged. *)
Theorem training_step_loss (dist : Dist) img_1 img_2 s loss :
  result (train_step dist img_1 img_2 s) = inr loss ->
  let s1 := final (_momentum_update_key_encoder hp s) in
  exists output query keys ce acc,
    result (fwd dist img_1 img_2 Train s1)
    = inr (output, zeros (length output), query, keys) /\
    result (enqueue dist keys Train Train s1) = inr tt /\
    cross_entropy output (zeros (length output)) = inr ce /\
    precision_at_k output (zeros (length output)) = inr acc /\
    if use_kmeans hp
    then exists l, (forall s', result (kmeans_loss hp encoder_kmeans query keys s')
                               = inr l) /\ loss = ce ⊕ l
    else loss = ce.
Proof.
  intros Hr s1. unfold training_step in Hr.
  apply bind_ok_inv in Hr as ([] & _ & Hr & _). fold s1 in Hr.
  apply bind_ok_inv in Hr as ([[[output target] query] keys] & Hf & Hr & _).
  rewrite (forward_preserves hp trainer encoder_apply (fun s' => s' = s1)
             dist img_1 img_2 Train s1 eq_refl) in Hr.
  apply bind_ok_inv in Hr as ([] & He & Hr & _).
  apply bind_ok_inv in Hr as ([] & _ & Hr & _).
  apply bind_ok_inv in Hr as (ce & Hce & Hr & _). cbn in Hce.
  apply bind_ok_inv in Hr as (loss1 & Hk & Hr & _).
  apply bind_ok_inv in Hr as ([] & _ & Hr & _).
  apply bind_ok_inv in Hr as ([acc1 acc5] & Hacc & Hr & _). cbn in Hacc.
  apply bind_ok_inv in Hr as ([] & _ & Hr & _).
  cbn in Hr. injection Hr as <-.
  pose proof Hf as Hf'.
  apply forward_inr in Hf' as (_ & _ & -> & _).
  exists output, query, keys, ce, (acc1, acc5).
  split; [exact Hf|]. split; [exact He|]. split; [exact Hce|].
  split; [exact Hacc|]. by apply step_loss_inr in Hk.
Qed.

Lemma validation_calls_elem e :
  e ∈ validation_calls hp -> e <> CallMomentumUpdate /\ e <> CallLogDict.
Proof.
  unfold validation_calls. destruct (use_knn hp), (use_kmeans hp); cbn;
    rewrite ?elem_of_cons, elem_of_nil; intros Hin; split; intros ->;
    repeat (destruct Hin as [Hin|Hin]; try discriminate); done.
Qed.

Lemma validation_step_run (dist : Dist) img_1 img_2 s :
  let o := val_step dist img_1 img_2 s in
  calls o `prefix_of` validation_calls hp /\
  (forall loss acc1 acc5, result o = inr (loss, acc1, acc5) ->
     calls o = validation_calls hp /\
     exists output query keys ce,
       result (fwd dist img_1 img_2 Val s)
       = inr (output, zeros (length output), query, keys) /\
       result (enqueue dist keys Val Val s) = inr tt /\
       final o = final (enqueue dist keys Val Val s) /\
       cross_entropy output (zeros (length output)) = inr ce /\
       precision_at_k output (zeros (length output)) = inr (acc1, acc5) /\
       if use_kmeans hp
       then exists l,
              (forall s', result (kmeans_loss hp encoder_kmeans query keys s')
                          = inr l) /\ loss = ce ⊕ l
       else loss = ce).
Proof.
  intros o. subst o. unfold validation_step, validation_calls.
  rewrite run_bind.
  destruct (forward_calls hp trainer encoder_apply dist img_1 img_2 Val s)
    as (l & Ec2 & Hpre & Hfull).
  pose proof (forward_preserves hp trainer encoder_apply (fun s' => s' = s)
                dist img_1 img_2 Val s eq_refl) as Ef2.
  rewrite Ec2, Ef2.
  destruct (result (fwd dist img_1 img_2 Val s))
    as [e|[[[output target] query] keys]] eqn:E2; cbn [result final calls].
  { split; [|discriminate]. cbn. apply prefix_cons. by apply prefix_app_r. }
  rewrite (Hfull _ eq_refl). clear Hpre Hfull Ec2 l.
  pose proof E2 as E2'. apply forward_inr in E2' as (_ & _ & -> & _).
  rewrite run_bind, (enqueue_calls hp trainer dist keys Val Val s).
  destruct (result (enqueue dist keys Val Val s)) as [e|[]] eqn:E3;
    cbn [result final calls].
  { split; [|discriminate]. cbn. apply prefix_cons.
    apply prefix_app, prefix_cons, prefix_nil. }
  set (s3 := final (enqueue dist keys Val Val s)).
  rewrite run_bind. cbn [result final calls emit].
  rewrite run_bind. cbn [result final calls lift].
  destruct (cross_entropy output (zeros (length output))) as [e|ce] eqn:Ece;
    cbn [result final calls].
  { split; [|discriminate]. cbn. apply prefix_cons.
    apply prefix_app. do 2 apply prefix_cons. apply prefix_nil. }
  rewrite run_bind.
  assert (Hk : exists loss1,
    (if use_kmeans hp
     then l ← kmeans_loss hp encoder_kmeans query keys; mret (ce ⊕ l)
     else mret ce) s3
    = MkOut (inr loss1) s3 (if use_kmeans hp then [CallKmeansLoss] else [])).
  { destruct (use_kmeans hp); eexists; reflexivity. }
  destruct Hk as [loss1 Hk].
  pose proof (f_equal result Hk) as Hk'. cbn [result] in Hk'.
  apply step_loss_inr in Hk'.
  rewrite Hk. cbn [result final calls].
  rewrite run_bind. cbn [result final calls emit].
  rewrite run_bind. cbn [result final calls lift].
  destruct (precision_at_k output (zeros (length output)))
    as [e|[acc1 acc5]] eqn:Eacc; cbn [result final calls].
  { split; [|discriminate]. cbn. apply prefix_cons.
    apply prefix_app. do 2 apply prefix_cons.
    apply prefix_app, prefix_cons, prefix_nil. }
  split.
  - cbn. rewrite ?app_nil_r. reflexivity.
  - intros loss a1 a5 [= <- <- <-]. split.
    { cbn. by rewrite ?app_nil_r. }
    exists output, query, keys, ce. repeat split; try done.
Qed.

(** X11.  A validation step calls [forward] on the validation queue, the
    enqueue on the validation queue and pointer, the cross-entropy, the
    clustering loss when it is enabled and [precision_at_k], in this
    order (a prefix of it when it raises); it never runs the momentum
    update and never logs.  It returns the loss (the cross-entropy of the
    logits against all-zero labels, plus the clustering loss when
    enabled) and the two accuracies, [forward] having read the module as
    the step found it. *)
Theorem validation_step_order (dist : Dist) img_1 img_2 s :
  let o := val_step dist img_1 img_2 s in
  calls o `prefix_of` validation_calls hp /\
  (CallMomentumUpdate ∉ calls o) /\ (CallLogDict ∉ calls o) /\
  (forall loss acc1 acc5, result o = inr (loss, acc1, acc5) ->
     calls o = validation_calls hp /\
     exists output query keys ce,
       result (fwd dist img_1 img_2 Val s)
       = inr (output, zeros (length output), query, keys) /\
       result (enqueue dist keys Val Val s) = inr tt /\
       final o = final (enqueue dist keys Val Val s) /\
       cross_entropy output (zeros (length output)) = inr ce /\
       precision_at_k output (zeros (length output)) = inr (acc1, acc5) /\
       if use_kmeans hp
       then exists l,
              (forall s', result (kmeans_loss hp encoder_kmeans query keys s')
                          = inr l) /\ loss = ce ⊕ l
       else loss = ce).
Proof.
  intros o. destruct (validation_step_run dist img_1 img_2 s) as [Hpre Hret].
  fold o in Hpre, Hret.
  split; [exact Hpre|]. split; [|split; [|exact Hret]].
  - intros Hin. eapply elem_of_prefix in Hin; [|exact Hpre].
    by apply validation_calls_elem in Hin as [? _].
  - intros Hin. eapply elem_of_prefix in Hin; [|exact Hpre].
    by apply validation_calls_elem in Hin as [_ ?].
Qed.

(** X12.  Under DDP the enqueue counts the keys of all workers: with [W]
    workers that contribute [L] keys each, the batch it compares with
    [hparams.batch_size] has [W * L] rows.  When that differs from
    [hparams.batch_size] nothing is written; in particular, when
    [hparams.batch_size] is the batch size of one worker and there are at
    least two workers, the enqueue returns with queue and pointer
    untouched. *)
Theorem ddp_enqueue_counts_global_batch (dist : Dist) keys qp q s L :
  _use_ddp_or_ddp2 trainer = true ->
  (rank dist < length (world_keys dist))%nat ->
  Forall (fun k : Mat => length k = L) (world_keys dist) ->
  length keys = L ->
  length (gathered dist keys) = (length (world_keys dist) * L)%nat /\
  (Z.of_nat (length (world_keys dist) * L) <> bs ->
   enqueue dist keys qp q s = MkOut (inr tt) s [CallDequeueAndEnqueue qp q]) /\
  (Z.of_nat L = bs -> (0 < L)%nat -> (2 <= length (world_keys dist))%nat ->
   enqueue dist keys qp q s = MkOut (inr tt) s [CallDequeueAndEnqueue qp q]).
Proof.
  intros Hddp Hr Hw Hk.
  assert (Hg : length (gathered dist keys)
               = (length (world_keys dist) * L)%nat).
  { unfold gathered_keys, concat_all_gather. rewrite Hddp.
    rewrite (concat_same_length _ L) by (by apply Forall_insert).
    by rewrite length_insert. }
  split; [exact Hg|]. split.
  - intros Hne. apply enqueue_other_size. by rewrite Hg.
  - intros HL HLpos HW. apply enqueue_other_size. rewrite Hg. nia.
Qed.
End Steps.

Lemma training_step_loss_witness :
  exists output query keys ce acc,
    result (forward hp_queue single mock_encoder alone views_1 views_2 Train
              (final (_momentum_update_key_encoder hp_queue model0)))
    = inr (output, zeros (length output), query, keys) /\
    result (_dequeue_and_enqueue hp_queue single alone keys Train Train
              (final (_momentum_update_key_encoder hp_queue model0)))
    = inr tt /\
    mock_cross_entropy output (zeros (length output)) = inr ce /\
    mock_precision_at_k output (zeros (length output)) = inr acc /\
    (56 # 5)%Q = ce.
Proof.
  apply (training_step_loss hp_queue single mock_encoder mock_kmeans
           mock_cross_entropy mock_precision_at_k alone views_1 views_2
           model0 (56 # 5)%Q).
  vm_compute. reflexivity.
Defined.

Lemma ddp_enqueue_counts_global_batch_witness :
  let dist : @Dist QScalar (list Q) :=
    {| rank := 0; world_img_k := [[]; []]; randperm := [];
       world_key := [[]; []];
       world_keys := [[[1%Q; 1%Q]; [1%Q; 1%Q]]; [[0%Q; 1%Q]; [1%Q; 0%Q]]] |} in
  let keys : Mat := [[1%Q; 0%Q]; [0%Q; 1%Q]] in
  length (gathered_keys ddp dist keys) = (2 * 2)%nat /\
  (Z.of_nat (2 * 2) <> batch_size hp_queue ->
   _dequeue_and_enqueue hp_queue ddp dist keys Train Train model0
   = MkOut (inr tt) model0 [CallDequeueAndEnqueue Train Train]) /\
  (Z.of_nat 2 = batch_size hp_queue -> (0 < 2)%nat -> (2 <= 2)%nat ->
   _dequeue_and_enqueue hp_queue ddp dist keys Train Train model0
   = MkOut (inr tt) model0 [CallDequeueAndEnqueue Train Train]).
Proof.
  intros dist keys.
  apply (ddp_enqueue_counts_global_batch hp_queue ddp dist keys Train Train
           model0 2%nat).
  - reflexivity.
  - unfold dist. cbn. lia.
  - unfold dist. cbn. repeat constructor.
  - reflexivity.
Defined.

Lemma validation_step_order_witness :
  calls (validation_step hp_queue single mock_encoder mock_kmeans
           mock_cross_entropy mock_precision_at_k alone views_1 views_2
           model0)
  = [CallForward Val; CallDequeueAndEnqueue Val Val; CallCrossEntropy;
     CallPrecisionAtK].
Proof.
  apply (proj1 (proj2 (proj2 (proj2
           (validation_step_order hp_queue single mock_encoder mock_kmeans
              mock_cross_entropy mock_precision_at_k alone views_1 views_2
              model0)))
           (-24 # 5)%Q 0%Q 0%Q ltac:(vm_compute; reflexivity))).
Defined.


(** ** The shuffle, all workers at once *)

Section Deal.
Context {X : Type}.
Implicit Types (xs : list (list X)) (idx : list nat).

(** The selections of all workers: their concatenation is the gathered
    batch read through [idx]. *)
Lemma select_all xs L idx :
  (0 < L)%nat -> Forall (fun x => length x = L) xs ->
  length idx = (length xs * L)%nat ->
  Forall (fun j => (j < length xs * L)%nat) idx ->
  exists ys : list (list X),
    length ys = length xs /\ Forall (fun y => length y = L) ys /\
    (forall r x, xs !! r = Some x ->
       exists y, ys !! r = Some y /\
                 _batch_unshuffle_ddp xs r x idx = inr y) /\
    (forall k, (k < length xs * L)%nat ->
       exists j, idx !! k = Some j /\ concat ys !! k = concat xs !! j).
Proof.
  intros HL Hxs Hidx Hlt.
  pose (out := fun r =>
    match xs !! r with
    | Some x => match _batch_unshuffle_ddp xs r x idx with
                | inr y => y
                | inl _ => []
                end
    | None => []
    end).
  assert (Hout : forall r x, xs !! r = Some x ->
    _batch_unshuffle_ddp xs r x idx = inr (out r) /\
    length (out r) = L /\
    forall i, (i < L)%nat ->
      exists j, idx !! (r * L + i)%nat = Some j /\
                out r !! i = concat xs !! j).
  { intros r x Hx.
    destruct (unshuffle_run xs L r x idx HL Hxs Hx Hidx Hlt) as (y & Ey & Hy).
    unfold out. rewrite Hx, Ey. by split. }
  set (ys := out <$> seq 0 (length xs)).
  assert (Hys : forall r x, xs !! r = Some x -> ys !! r = Some (out r)).
  { intros r x Hx. unfold ys.
    rewrite list_lookup_fmap, lookup_seq_lt by (by eapply lookup_lt_Some).
    reflexivity. }
  assert (Hysl : Forall (fun y => length y = L) ys).
  { apply Forall_lookup. intros r y Hy. unfold ys in Hy.
    rewrite list_lookup_fmap in Hy.
    destruct (seq 0 (length xs) !! r) as [r'|] eqn:Er; [|done].
    apply lookup_seq in Er as [-> Hr]. cbn in Hy. injection Hy as <-.
    destruct (lookup_lt_is_Some_2 xs r Hr) as [x Hx].
    by destruct (Hout r x Hx) as (_ & ? & _). }
  exists ys. split; [unfold ys; by rewrite length_fmap, length_seq|].
  split; [exact Hysl|]. split.
  - intros r x Hx. exists (out r). split; [by eapply Hys|].
    by destruct (Hout r x Hx) as (? & _).
  - intros k Hk.
    pose proof (Nat.div_mod_eq k L) as Hdm.
    pose proof (Nat.mod_upper_bound k L ltac:(lia)) as Hmod.
    set (r := (k / L)%nat) in *. set (i := (k mod L)%nat) in *.
    assert (Hr : (r < length xs)%nat) by nia.
    destruct (lookup_lt_is_Some_2 xs r Hr) as [x Hx].
    destruct (Hout r x Hx) as (_ & _ & Ho).
    destruct (Ho i Hmod) as (j & Hj & Hji).
    replace k with (r * L + i)%nat by lia.
    exists j. split; [exact Hj|].
    rewrite (concat_lookup ys L r i Hysl Hmod), (Hys r x Hx). exact Hji.
Qed.

Lemma omap_id_Some (l : list X) : omap id (Some <$> l) = l.
Proof. induction l as [|x l IH]; [done|]. cbn. by f_equal. Qed.

(** Read through a permutation of its positions, a list is permuted. *)
Lemma read_through_permutation (l l' : list X) (perm : list nat) :
  perm ≡ₚ seq 0 (length l) ->
  length l' = length l ->
  (forall k, (k < length l)%nat ->
     exists j, perm !! k = Some j /\ l' !! k = l !! j) ->
  l' ≡ₚ l.
Proof.
  intros Hp Hl Hread.
  assert (Hlp : length perm = length l).
  { apply Permutation_length in Hp. by rewrite length_seq in Hp. }
  assert (E1 : Some <$> l' = (fun j => l !! j) <$> perm).
  { apply list_eq. intros k. rewrite !list_lookup_fmap.
    destruct (decide (k < length l)%nat) as [Hk|Hk].
    - destruct (Hread k Hk) as (j & Hj & Hkj). rewrite Hj. cbn.
      destruct (lookup_lt_is_Some_2 l' k) as [v Hv]; [lia|].
      rewrite Hv. cbn. by rewrite <- Hkj, Hv.
    - by rewrite !lookup_ge_None_2 by lia. }
  assert (E2 : (fun j => l !! j) <$> seq 0 (length l) = Some <$> l).
  { apply list_eq. intros k. rewrite !list_lookup_fmap.
    destruct (decide (k < length l)%nat) as [Hk|Hk].
    - rewrite lookup_seq_lt by done. cbn.
      destruct (lookup_lt_is_Some_2 l k Hk) as [v Hv]. by rewrite Hv.
    - rewrite lookup_seq_ge by lia. by rewrite lookup_ge_None_2 by lia. }
  rewrite <- (omap_id_Some l'), <- (omap_id_Some l), E1, <- E2.
  by rewrite Hp.
Qed.

(** X13.  The shuffle deals the global batch out to the workers: with [W]
    workers of [L >= 1] rows each and a permutation broadcast to all,
    worker [r] receives [L] rows, its row [i] being row [perm[r*L + i]] of
    the gathered batch, and the rows received by all workers together are
    the gathered batch in another order, no row lost and none handed out
    twice. *)
Theorem shuffle_deals_the_global_batch xs L (perm : list nat) :
  (0 < L)%nat -> Forall (fun x => length x = L) xs ->
  perm ≡ₚ seq 0 (length xs * L) ->
  exists ys : list (list X),
    length ys = length xs /\
    (forall r x, xs !! r = Some x ->
       exists y, ys !! r = Some y /\
         _batch_shuffle_ddp xs r perm x = inr (y, argsort perm) /\
         length y = L /\
         forall i, (i < L)%nat ->
           exists j, perm !! (r * L + i)%nat = Some j /\
                     y !! i = concat xs !! j) /\
    concat ys ≡ₚ concat xs.
Proof.
  intros HL Hxs Hp.
  assert (Hlp : length perm = (length xs * L)%nat).
  { apply Permutation_length in Hp. by rewrite length_seq in Hp. }
  assert (Hplt : Forall (fun j => (j < length xs * L)%nat) perm).
  { rewrite Hp. apply Forall_forall. intros j Hj.
    apply elem_of_seq in Hj. lia. }
  destruct (select_all xs L perm HL Hxs Hlp Hplt)
    as (ys & Hlys & Hysl & Hsel & Hcat).
  exists ys. split; [exact Hlys|]. split.
  - intros r x Hx. destruct (Hsel r x Hx) as (y & Hy & Ey).
    exists y. split; [exact Hy|]. split.
    { rewrite shuffle_as_unshuffle, Ey. reflexivity. }
    split.
    { rewrite Forall_forall in Hysl. apply Hysl.
      by eapply list_elem_of_lookup_2. }
    intros i Hi.
    pose proof (lookup_lt_Some _ _ _ Hx) as Hr.
    destruct (Hcat (r * L + i)%nat) as (j & Hj & Hji); [nia|].
    exists j. split; [exact Hj|].
    by rewrite (concat_lookup ys L r i Hysl Hi), Hy in Hji.
  - apply (read_through_permutation _ _ perm).
    + by rewrite (concat_same_length _ L Hxs).
    + by rewrite (concat_same_length _ L Hxs), (concat_same_length _ L Hysl),
        Hlys.
    + intros k Hk. apply Hcat. by rewrite <- (concat_same_length _ L Hxs).
Qed.

(** The round trip with a row-wise function applied between shuffle and
    unshuffle on every worker. *)
Lemma select_then_inverse {Y} (f : X -> Y) xs (ys : list (list X)) L
    (perm : list nat) r x y :
  (0 < L)%nat -> Forall (fun x => length x = L) xs ->
  perm ≡ₚ seq 0 (length xs * L) ->
  length ys = length xs -> Forall (fun y => length y = L) ys ->
  (forall k, (k < length xs * L)%nat ->
     exists j, perm !! k = Some j /\ concat ys !! k = concat xs !! j) ->
  xs !! r = Some x -> ys !! r = Some y ->
  _batch_unshuffle_ddp (map (map f) ys) r (map f y) (argsort perm)
  = inr (map f x).
Proof.
  intros HL Hxs Hp Hlys Hysl Hcat Hx Hy.
  set (n := (length xs * L)%nat) in *.
  destruct (argsort_spec perm n Hp) as [Hlinv Hinv].
  pose proof (argsort_bound perm n Hp) as Hilt.
  pose proof (lookup_lt_Some _ _ _ Hx) as Hr.
  assert (Hxl : length x = L).
  { rewrite Forall_forall in Hxs. apply Hxs. by eapply list_elem_of_lookup_2. }
  set (zs := map (map f) ys).
  assert (Hzsl : Forall (fun z => length z = L) zs).
  { unfold zs. apply Forall_fmap. eapply Forall_impl; [exact Hysl|].
    intros y' Hy'. cbn. by rewrite length_map. }
  assert (Hlzs : length zs = length xs) by (unfold zs; by rewrite length_map).
  assert (Hz : zs !! r = Some (map f y)).
  { unfold zs. by rewrite list_lookup_fmap, Hy. }
  destruct (unshuffle_run zs L r (map f y) (argsort perm) HL Hzsl Hz)
    as (z & Ez & Hlz & Hrows); [by rewrite Hlzs|by rewrite Hlzs|].
  rewrite Ez. f_equal. apply list_eq. intros i.
  destruct (decide (i < L)%nat) as [Hi|Hi]; cycle 1.
  { rewrite !lookup_ge_None_2; [done|rewrite length_map; lia|lia]. }
  destruct (Hrows i Hi) as (j & Hj & ->).
  destruct (Hinv (r * L + i)%nat) as (j' & Hj' & Hpj); [unfold n; nia|].
  rewrite Hj in Hj'. injection Hj' as <-.
  assert (Hjn : (j < n)%nat).
  { rewrite Forall_forall in Hilt. apply Hilt.
    by eapply list_elem_of_lookup_2. }
  destruct (Hcat j Hjn) as (k & Hk & Hjk).
  rewrite Hpj in Hk. injection Hk as <-.
  unfold zs. rewrite <- concat_map, !list_lookup_fmap, Hjk.
  by rewrite (concat_lookup xs L r i Hxs Hi), Hx.
Qed.
End Deal.

Section Ddp.
Context `{Scalar}.
Local Open Scope real_scope.
Context {Img : Type} (hp : HParams).
Context (encoder_apply : Params -> list Img -> Mat).

(** [forward] depends on the trainer and on the other workers through its
    keys only. *)
Lemma forward_key_determines trainer trainer' (dist dist' : Dist)
    img_q img_k b s :
  forward_key trainer encoder_apply dist img_k s
  = forward_key trainer' encoder_apply dist' img_k s ->
  forward hp trainer encoder_apply dist img_q img_k b s
  = forward hp trainer' encoder_apply dist' img_q img_k b s.
Proof.
  intros E. unfold forward.
  rewrite !(run_bind (emit (CallForward b))). cbn [result final calls emit].
  rewrite !(run_bind get). cbn [result final calls get].
  rewrite !run_bind.
  rewrite !(key_block_run _ encoder_apply). cbn [result final calls].
  by rewrite E.
Qed.

(** Under DDP, with an encoder that treats every image on its own and
    peers that play their part, the keys are the keys of the images of the
    worker, in their order. *)
Lemma forward_key_rowwise trainer (enc : Params -> Img -> Vec)
    (dist : Dist) img_k s L :
  _use_ddp_or_ddp2 trainer = true ->
  (forall p imgs, encoder_apply p imgs = map (enc p) imgs) ->
  (0 < L)%nat ->
  Forall (fun x => length x = L) (world_img_k dist) ->
  world_img_k dist !! rank dist = Some img_k ->
  randperm dist ≡ₚ seq 0 (length (world_img_k dist) * L) ->
  length (world_key dist) = length (world_img_k dist) ->
  (forall r x y inv,
     r <> rank dist -> world_img_k dist !! r = Some x ->
     _batch_shuffle_ddp (world_img_k dist) r (randperm dist) x = inr (y, inv) ->
     world_key dist !! r = Some (normalize (encoder_apply (encoder_k s) y))) ->
  forward_key trainer encoder_apply dist img_k s
  = inr (normalize (encoder_apply (encoder_k s) img_k)).
Proof.
  intros Hddp Henc HL Hxs Hown Hp Hlk Hpeers.
  set (xs := world_img_k dist) in *. set (perm := randperm dist) in *.
  set (f := fun img => normalize_row (enc (encoder_k s) img)).
  assert (Hf : forall imgs,
            normalize (encoder_apply (encoder_k s) imgs) = map f imgs).
  { intros imgs. rewrite Henc. unfold normalize. by rewrite map_map. }
  assert (Hlp : length perm = (length xs * L)%nat).
  { apply Permutation_length in Hp. by rewrite length_seq in Hp. }
  assert (Hplt : Forall (fun j => (j < length xs * L)%nat) perm).
  { rewrite Hp. apply Forall_forall. intros j Hj.
    apply elem_of_seq in Hj. lia. }
  destruct (select_all xs L perm HL Hxs Hlp Hplt)
    as (ys & Hlys & Hysl & Hsel & Hcat).
  destruct (Hsel _ _ Hown) as (y & Hy & Ey).
  unfold forward_key. rewrite Hddp. fold xs perm.
  rewrite shuffle_as_unshuffle, Ey.
  cbn [mbind sum_exn_bind mret sum_exn_ret].
  rewrite unshuffle_own_slot, !Hf.
  replace (<[rank dist := map f y]> (world_key dist))
    with (map (map f) ys).
  { by apply (select_then_inverse f xs ys L perm (rank dist) img_k y). }
  apply list_eq. intros r.
  destruct (decide (r = rank dist)) as [->|Hr].
  - rewrite list_lookup_insert_eq
      by (rewrite Hlk; by eapply lookup_lt_Some).
    by rewrite list_lookup_fmap, Hy.
  - rewrite list_lookup_insert_ne by done.
    rewrite list_lookup_fmap.
    destruct (xs !! r) as [x'|] eqn:Ex'.
    + destruct (Hsel r x' Ex') as (y' & Hy' & Ey').
      rewrite Hy'. cbn. rewrite <- Hf.
      symmetry. apply (Hpeers r x' y' (argsort perm) Hr Ex').
      fold xs perm. by rewrite shuffle_as_unshuffle, Ey'.
    + apply lookup_ge_None in Ex'.
      rewrite !lookup_ge_None_2; [done|lia|lia].
Qed.

(** X14.  Under DDP [forward] returns what it returns on one device, when
    the encoder treats every image on its own and the other workers play
    their part: they hold batches of the same size [L >= 1], they apply
    the same key encoder to the batch the shuffle gave them, and the
    broadcast index is a permutation.  The shuffle and the unshuffle then
    cancel around the encoder, and key [n] is the key of image [n]. *)
Theorem ddp_forward_matches_single_device trainer trainer1
    (enc : Params -> Img -> Vec) (dist dist1 : Dist) img_q img_k b s L :
  _use_ddp_or_ddp2 trainer = true -> _use_ddp_or_ddp2 trainer1 = false ->
  (forall p imgs, encoder_apply p imgs = map (enc p) imgs) ->
  (0 < L)%nat ->
  Forall (fun x => length x = L) (world_img_k dist) ->
  world_img_k dist !! rank dist = Some img_k ->
  randperm dist ≡ₚ seq 0 (length (world_img_k dist) * L) ->
  length (world_key dist) = length (world_img_k dist) ->
  (forall r x y inv,
     r <> rank dist -> world_img_k dist !! r = Some x ->
     _batch_shuffle_ddp (world_img_k dist) r (randperm dist) x = inr (y, inv) ->
     world_key dist !! r = Some (normalize (encoder_apply (encoder_k s) y))) ->
  forward_key trainer encoder_apply dist img_k s
  = inr (normalize (encoder_apply (encoder_k s) img_k)) /\
  forward hp trainer encoder_apply dist img_q img_k b s
  = forward hp trainer1 encoder_apply dist1 img_q img_k b s.
Proof.
  intros Hddp Hsingle Henc HL Hxs Hown Hp Hlk Hpeers.
  pose proof (forward_key_rowwise trainer enc dist img_k s L Hddp Henc HL Hxs
                Hown Hp Hlk Hpeers) as Hkey.
  split; [exact Hkey|].
  apply forward_key_determines. rewrite Hkey.
  symmetry. by apply forward_key_single.
Qed.
End Ddp.

(** ** The positive logit *)

Section Positive.
Context `{Scalar}.
Local Open Scope real_scope.
Context {Img : Type} (hp : HParams) (trainer : Trainer).
Context (encoder_apply : Params -> list Img -> Mat).

Local Abbreviation fwd := (forward hp trainer encoder_apply).
Local Abbreviation T := (softmax_temperature hp).

(** C6.  When [forward] returns, the queries are the normalised output
    of the query encoder on [img_q], the keys are the ones the key block
    computes from [img_k] with the key encoder, there is one key per
    query, every entry of the target vector is 0, the logits are the
    concatenation [positive | negatives] with every entry divided by the
    softmax temperature, and column 0 of row [n] is the dot product of
    query row [n] with key row [n], divided by the temperature.  The keys
    are the normalised output of the key encoder on [img_k]: on one
    device always, under DDP when the encoder treats every image on its
    own and the peers play their part.  And [forward] does return, on both
    paths, when the query encoder gives a [batch x D] matrix, the
    negatives have width [D] (on the KNN path the batch is not empty), and
    the keys are a [batch x D] matrix: on one device when the key encoder
    gives one, under DDP when the workers contribute equal shares and the
    broadcast index is a permutation. *)
Theorem forward_positive_first (dist : Dist) img_q img_k b s :
  (forall logits labels query key,
     result (fwd dist img_q img_k b s) = inr (logits, labels, query, key) ->
     query = normalize (encoder_apply (encoder_q s) img_q) /\
     forward_key trainer encoder_apply dist img_k s = inr key /\
     length query = length key /\
     labels = replicate (length logits) f0 /\
     length logits = length query /\
     (exists l_neg,
        logits = div_scalar
                   (zip_with app (unsqueeze_last (zip_with dot query key))
                             l_neg) T) /\
     forall n q k,
       query !! n = Some q -> key !! n = Some k ->
       exists row, logits !! n = Some row /\
                   row !! 0%nat = Some (dot q k ⊘ T)) /\
  (_use_ddp_or_ddp2 trainer = false ->
   forward_key trainer encoder_apply dist img_k s
   = inr (normalize (encoder_apply (encoder_k s) img_k))) /\
  (forall (enc : Params -> Img -> Vec) L,
     _use_ddp_or_ddp2 trainer = true ->
     (forall p imgs, encoder_apply p imgs = map (enc p) imgs) ->
     (0 < L)%nat ->
     Forall (fun x => length x = L) (world_img_k dist) ->
     world_img_k dist !! rank dist = Some img_k ->
     randperm dist ≡ₚ seq 0 (length (world_img_k dist) * L) ->
     length (world_key dist) = length (world_img_k dist) ->
     (forall r x y inv,
        r <> rank dist -> world_img_k dist !! r = Some x ->
        _batch_shuffle_ddp (world_img_k dist) r (randperm dist) x
        = inr (y, inv) ->
        world_key dist !! r
        = Some (normalize (encoder_apply (encoder_k s) y))) ->
     forward_key trainer encoder_apply dist img_k s
     = inr (normalize (encoder_apply (encoder_k s) img_k))) /\
  (forall B D,
     has_shape (encoder_apply (encoder_q s) img_q) B D ->
     (if use_knn hp
      then (0 < B)%nat /\ In (metric hp) supported_metrics /\ (0 < D)%nat /\
           exists N, has_shape (queue s) D N /\
                     (0 < topk hp <= Z.of_nat N)%Z
      else length (get_queue b s) = D) ->
     (_use_ddp_or_ddp2 trainer = false /\
      has_shape (encoder_apply (encoder_k s) img_k) B D) \/
     (_use_ddp_or_ddp2 trainer = true /\
      (0 < B)%nat /\ length img_k = B /\
      (rank dist < length (world_img_k dist))%nat /\
      Forall (fun x => length x = B) (world_img_k dist) /\
      randperm dist ≡ₚ seq 0 (length (world_img_k dist) * B) /\
      length (world_key dist) = length (world_img_k dist) /\
      Forall (fun k => has_shape k B D) (world_key dist) /\
      (forall imgs, length imgs = B ->
                    has_shape (encoder_apply (encoder_k s) imgs) B D)) ->
     exists logits labels key,
       result (fwd dist img_q img_k b s)
       = inr (logits, labels,
              normalize (encoder_apply (encoder_q s) img_q), key) /\
       forward_key trainer encoder_apply dist img_k s = inr key /\
       has_shape key B D).
Proof.
  split; [|split; [|split]].
  - intros logits labels query key Hr.
    pose proof (forward_inr_key hp trainer encoder_apply dist img_q img_k b s
                  _ _ _ _ Hr) as Hkey.
    apply forward_inr in Hr as (Hquery & Hlen & -> & l_neg & Hl & -> & _ & _).
    assert (Hrows : length (div_scalar
              (zip_with app (unsqueeze_last (zip_with dot query key)) l_neg) T)
            = length query).
    { unfold div_scalar, unsqueeze_last.
      rewrite length_map, length_zip_with, length_map, length_zip_with. lia. }
    split; [exact Hquery|]. split; [exact Hkey|]. split; [exact Hlen|].
    split; [reflexivity|]. split; [exact Hrows|]. split; [by exists l_neg|].
    intros n q k Hq Hk.
    destruct (lookup_lt_is_Some_2 l_neg n) as [ng Hng].
    { rewrite Hl. by eapply lookup_lt_Some. }
    exists (map (fun x => x ⊘ T) ([dot q k] ++ ng)). split; [|reflexivity].
    unfold div_scalar, unsqueeze_last.
    rewrite list_lookup_fmap, lookup_zip_with, list_lookup_fmap,
      lookup_zip_with, Hq.
    cbn. rewrite Hk. cbn. rewrite Hng. reflexivity.
  - intros Hone. by apply forward_key_single.
  - intros enc L Hddp Henc HL Hxs Hown Hp Hlk Hpeers.
    by apply (forward_key_rowwise encoder_apply trainer enc dist img_k s L).
  - intros B D Hq Hpath Hkeys.
    assert (Hkey : exists key,
      forward_key trainer encoder_apply dist img_k s = inr key /\
      has_shape key B D).
    { destruct Hkeys as [[Hddp Hk]|(Hddp & HB & Hi & Hr & Hw & Hp & Hl & Hk & He)].
      - exists (normalize (encoder_apply (encoder_k s) img_k)).
        split; [by apply forward_key_single|by apply normalize_shape].
      - by apply forward_key_ddp. }
    destruct Hkey as (key & Ekey & Hk).
    destruct (forward_returns hp trainer encoder_apply dist img_q img_k b s
                B D key Ekey Hq Hk Hpath) as (logits & labels & E).
    by exists logits, labels, key.
Qed.
End Positive.

Lemma forward_positive_first_witness :
  forward_key single mock_encoder alone views_2 model0
  = inr [[3 # 5; 4 # 5]; [0%Q; 1%Q]] /\
  exists row,
    [[6 # 5; (-2)%Q; 0%Q; (-2)%Q; 0%Q]; [2%Q; 0%Q; (-2)%Q; 0%Q; (-2)%Q]] !! 1%nat
    = Some row /\
    row !! 0%nat = Some (fdiv (dot [0%Q; 1%Q] [0%Q; 1%Q]) (1 # 2)%Q).
Proof.
  destruct (proj1 (forward_positive_first hp_queue single mock_encoder alone
                     views_1 views_2 Val model0)
                  [[6 # 5; (-2)%Q; 0%Q; (-2)%Q; 0%Q];
                   [2%Q; 0%Q; (-2)%Q; 0%Q; (-2)%Q]]
                  [0%Q; 0%Q] [[1%Q; 0%Q]; [0%Q; 1%Q]]
                  [[3 # 5; 4 # 5]; [0%Q; 1%Q]]
                  ltac:(vm_compute; reflexivity))
    as (_ & Hkey & _ & _ & _ & _ & Hrow).
  split; [exact Hkey|].
  exact (Hrow 1%nat [0%Q; 1%Q] [0%Q; 1%Q] eq_refl eq_refl).
Defined.

Lemma shuffle_deals_the_global_batch_witness :
  exists ys : list (list nat),
    length ys = 2%nat /\
    (forall r x, [[10; 11]; [12; 13]] !! r = Some x ->
       exists y, ys !! r = Some y /\
         _batch_shuffle_ddp [[10; 11]; [12; 13]] r [2; 0; 3; 1] x
         = inr (y, argsort [2; 0; 3; 1]) /\
         length y = 2%nat /\
         forall i, (i < 2)%nat ->
           exists j, [2; 0; 3; 1] !! (r * 2 + i)%nat = Some j /\
                     y !! i = concat [[10; 11]; [12; 13]] !! j) /\
    concat ys ≡ₚ concat [[10; 11]; [12; 13]].
Proof.
  apply (shuffle_deals_the_global_batch [[10; 11]; [12; 13]] 2
           [2; 0; 3; 1])%nat.
  - lia.
  - repeat constructor.
  - apply (bool_decide_unpack _). vm_compute. exact I.
Defined.

Lemma ddp_forward_matches_single_device_witness :
  let dist : @Dist QScalar (list Q) :=
    {| rank := 0;
       world_img_k := [views_2; [[0%Q; 1%Q]; [1%Q; 0%Q]]];
       randperm := [2; 0; 3; 1]%nat;
       world_key := [[[1%Q; 1%Q]; [1%Q; 1%Q]]; [[1%Q; 0%Q]; [0%Q; 1%Q]]];
       world_keys := [[]; []] |} in
  forward_key ddp mock_encoder dist views_2 model0
  = inr (normalize (mock_encoder (encoder_k model0) views_2)) /\
  forward hp_queue ddp mock_encoder dist views_1 views_2 Train model0
  = forward hp_queue single mock_encoder alone views_1 views_2 Train model0.
Proof.
  intros dist.
  apply (ddp_forward_matches_single_device hp_queue mock_encoder ddp single
           (fun p img => zip_with (fun x b => Qred (x + b)) img (nth 0%nat p []))
           dist alone views_1 views_2 Train model0 2%nat).
  - reflexivity.
  - reflexivity.
  - reflexivity.
  - lia.
  - unfold dist. cbn. repeat constructor.
  - reflexivity.
  - apply (bool_decide_unpack _). vm_compute. exact I.
  - reflexivity.
  - intros r x y inv Hr Hx Hs.
    destruct r as [|[|r]]; [done| |discriminate Hx].
    cbn in Hx. injection Hx as <-.
    vm_compute in Hs. injection Hs as <- _.
    vm_compute. reflexivity.
Defined.


(** ** A training step from end to end *)

Section EndToEnd.
Context `{Scalar}.
Local Open Scope real_scope.
Context {Img : Type} (hp : HParams) (trainer : Trainer).
Context (encoder_apply : Params -> list Img -> Mat).
Context (encoder_kmeans : Mat -> Mat).
Context (cross_entropy : Mat -> Vec -> exn + real).
Context (precision_at_k : Mat -> Vec -> exn + real * real).

Local Abbreviation enqueue := (@_dequeue_and_enqueue _ Img hp trainer).
Local Abbreviation gathered := (@gathered_keys _ Img trainer).
Local Abbreviation fwd := (forward hp trainer encoder_apply).
Local Abbreviation train_step :=
  (training_step hp trainer encoder_apply encoder_kmeans cross_entropy
                 precision_at_k).
Local Abbreviation val_step :=
  (validation_step hp trainer encoder_apply encoder_kmeans cross_entropy
                   precision_at_k).
Local Abbreviation momentum := (_momentum_update_key_encoder hp).
Local Abbreviation N := (num_negatives hp).
Local Abbreviation bs := (batch_size hp).
Local Abbreviation T := (softmax_temperature hp).

Lemma final_bind_readonly {A B} (m : M A) (f : A -> M B) s :
  (forall a s', final (f a s') = s') -> final ((m ≫= f) s) = final (m s).
Proof.
  intros Hf. rewrite run_bind. destruct (result (m s)); cbn; [done|apply Hf].
Qed.

(** The state a training step leaves is the one its enqueue leaves, or
    the one the momentum update leaves when the step stops before the
    enqueue. *)
Lemma training_step_final (dist : Dist) img_1 img_2 s :
  let s1 := final (momentum s) in
  final (train_step dist img_1 img_2 s) =
  match result (momentum s) with
  | inl _ => s1
  | inr _ =>
      match result (fwd dist img_1 img_2 Train s1) with
      | inl _ => s1
      | inr (_, _, _, keys) => final (enqueue dist keys Train Train s1)
      end
  end.
Proof.
  intros s1. unfold training_step. rewrite run_bind. fold s1.
  destruct (result (momentum s)) as [e|[]]; cbn [final]; [done|].
  rewrite run_bind.
  rewrite (forward_preserves hp trainer encoder_apply (fun s' => s' = s1)
             dist img_1 img_2 Train s1 eq_refl).
  destruct (result (fwd dist img_1 img_2 Train s1))
    as [e|[[[output target] query] keys]]; cbn [final]; [done|].
  apply final_bind_readonly. intros [] s'.
  apply (preserves_bind (fun x => x = s')); [apply preserves_emit| |done].
  intros []. apply preserves_bind; [apply preserves_lift|]. intros ce.
  apply preserves_bind.
  { destruct (use_kmeans hp); [|apply preserves_ret].
    apply preserves_bind; [apply kmeans_loss_preserves|].
    intros; apply preserves_ret. }
  intros loss. apply preserves_bind; [apply preserves_emit|]. intros [].
  apply preserves_bind; [apply preserves_lift|]. intros [acc1 acc5].
  apply preserves_bind; [apply preserves_emit|]. intros [].
  apply preserves_ret.
Qed.

Lemma momentum_update_run s :
  Forall (fun p : Vec * Vec => length p.1 = length p.2)
         (zip (encoder_q s) (encoder_k s)) ->
  momentum s =
  MkOut (inr tt)
        (set_encoder_k (blend_all (encoder_momentum hp) (encoder_q s)
                                  (encoder_k s)) s)
        [CallMomentumUpdate].
Proof.
  intros Hs. unfold _momentum_update_key_encoder.
  rewrite run_bind. cbn [result final calls emit].
  rewrite run_bind. cbn [result final calls get].
  pose proof (momentum_loop_run hp (encoder_q s) (encoder_k s) [] s eq_refl Hs)
    as E.
  change (length (@nil Vec)) with 0%nat in E. rewrite E. reflexivity.
Qed.

(** X15.  One training step on one device, from end to end.  When the
    step returns, the module it leaves is the module it found with three
    writes: the key encoder blended with the query encoder, the columns
    [ptr, ptr + batch_size) of the training queue overwritten by the keys
    (the normalised output of the blended key encoder on the second
    view), and the pointer advanced by the batch size modulo [N].  The
    logits were computed before the write: on the queue path their
    negatives are the dot products with the columns of the queue as the
    step found it, so a key is never a negative in its own step. *)
Theorem training_step_end_to_end (dist : Dist) img_1 img_2 s loss D :
  _use_ddp_or_ddp2 trainer = false ->
  Forall (fun p : Vec * Vec => length p.1 = length p.2)
         (zip (encoder_q s) (encoder_k s)) ->
  (0 < D)%nat -> has_shape (queue s) D (Z.to_nat N) ->
  (0 <= queue_ptr s < N)%Z ->
  let ek := blend_all (encoder_momentum hp) (encoder_q s) (encoder_k s) in
  let query := normalize (encoder_apply (encoder_q s) img_1) in
  let keys := normalize (encoder_apply ek img_2) in
  Z.of_nat (length keys) = bs -> Forall (fun k => length k = D) keys ->
  result (train_step dist img_1 img_2 s) = inr loss ->
  final (train_step dist img_1 img_2 s)
  = set_ptr Train ((queue_ptr s + bs) mod N)%Z
      (set_queue Train
         (write_columns (queue s) (Z.to_nat (queue_ptr s)) keys)
         (set_encoder_k ek s)) /\
  exists output,
    result (fwd dist img_1 img_2 Train (set_encoder_k ek s))
    = inr (output, zeros (length output), query, keys) /\
    (use_knn hp = false ->
     forall n q k, query !! n = Some q -> keys !! n = Some k ->
       output !! n =
       Some ((dot q k ⊘ T) ::
             map (fun c => dot q (col c (queue s)) ⊘ T)
                 (seq 0 (ncols (queue s))))).
Proof.
  intros Hone Hs HD Hq Hp ek query keys Hfull Hw Hr.
  pose proof (training_step_final dist img_1 img_2 s) as Hfin.
  cbn zeta in Hfin.
  unfold training_step in Hr.
  apply bind_ok_inv in Hr as ([] & Hm & Hr & _).
  rewrite Hm in Hfin.
  rewrite (momentum_update_run s Hs) in Hr, Hfin. cbn [final] in Hr, Hfin.
  fold ek in Hr, Hfin. set (s1 := set_encoder_k ek s) in *.
  apply bind_ok_inv in Hr as ([[[output target] query'] keys'] & Hf & Hr & _).
  rewrite Hf in Hfin.
  rewrite (forward_preserves hp trainer encoder_apply (fun s' => s' = s1)
             dist img_1 img_2 Train s1 eq_refl) in Hr.
  apply bind_ok_inv in Hr as ([] & He & _).
  pose proof Hf as Hf'.
  apply forward_inr in Hf' as (Hquery & _ & -> & l_neg & _ & Hout & Hneg & Hkey).
  specialize (Hkey Hone).
  change (encoder_q s1) with (encoder_q s) in Hquery.
  change (encoder_k s1) with ek in Hkey.
  fold query in Hquery. fold keys in Hkey. subst query' keys'.
  assert (Hg : gathered dist keys = keys).
  { unfold gathered_keys. by rewrite Hone. }
  assert (Hfull' : Z.of_nat (length (gathered dist keys)) = bs)
    by (by rewrite Hg).
  assert (Hfit : (queue_ptr s + bs <= N)%Z).
  { rewrite (enqueue_full_batch hp trainer dist keys Train Train s1 Hfull')
      in He. cbn zeta in He.
    destruct (assign_columns_T _ _ _ _) as [e|m] eqn:Ea; [discriminate|].
    rewrite <- Hfull' in Ea.
    apply (assign_columns_T_only_fits _ _ _ D (Z.to_nat N)) in Ea;
      [|done|done|change (get_ptr Train s1) with (queue_ptr s); lia].
    change (get_ptr Train s1) with (queue_ptr s) in Ea. lia. }
  split.
  - rewrite Hfin.
    rewrite (enqueue_writes hp trainer dist keys Train Train s1 D);
      [|lia|done|done|done|by rewrite Hg|apply Hp|exact Hfit].
    cbn [final]. by rewrite Hg.
  - exists output. split; [exact Hf|].
    intros Eknn n q k Hqn Hkn. rewrite Hout.
    rewrite Eknn in Hneg. cbn in Hneg. unfold einsum_nc_ck_nk in Hneg.
    destruct (forallb _ query); [|discriminate]. injection Hneg as <-.
    change (div_scalar
              (zip_with app (unsqueeze_last (zip_with dot query keys))
                 (map (fun row => map (dot row) (transpose (queue s))) query))
              T !! n
            = Some ((dot q k ⊘ T) ::
                    map (fun c => dot q (col c (queue s)) ⊘ T)
                        (seq 0 (ncols (queue s))))).
    rewrite (logits_row hp _ _ _ n q k (map (dot q) (transpose (queue s))))
      by (done || by rewrite list_lookup_fmap, Hqn).
    unfold transpose. by rewrite !map_map.
Qed.

Lemma knn_approx_unsupported query s :
  ~ In (metric hp) supported_metrics ->
  knn_approx hp query s = MkOut (inl UnboundLocalError) s [CallKnnApprox].
Proof.
  intros Hn. unfold knn_approx. run.
  by rewrite (distance_unsupported _ Hn).
Qed.

Lemma forward_unsupported (dist : Dist) img_q img_k b s B D :
  use_knn hp = true -> ~ In (metric hp) supported_metrics ->
  _use_ddp_or_ddp2 trainer = false ->
  has_shape (encoder_apply (encoder_q s) img_q) B D ->
  has_shape (encoder_apply (encoder_k s) img_k) B D ->
  fwd dist img_q img_k b s
  = MkOut (inl UnboundLocalError) s [CallForward b; CallKnnApprox].
Proof.
  intros Eknn Hn Hone Hq Hk. unfold forward.
  rewrite run_bind. cbn [result final calls emit].
  rewrite run_bind. cbn [result final calls get].
  rewrite run_bind, (key_block_run trainer encoder_apply).
  rewrite (forward_key_single trainer encoder_apply) by done.
  cbn [result final calls].
  rewrite run_bind. cbn [result final calls lift].
  rewrite (einsum_nc_nc_n_ok _ _ B D)
    by (by apply (normalize_shape)). cbn [result final calls].
  rewrite run_bind, Eknn, run_bind, knn_approx_unsupported by done.
  reflexivity.
Qed.

(** X16.  With the KNN path on and a metric name that has no branch in
    [knn_approx], no step gets past [forward] (one device, encoders that
    give [batch x D] matrices): a validation step raises
    [UnboundLocalError] and leaves the module as it was; a training step
    raises it after its momentum update, so the key encoder has already
    been blended while queue and pointer are untouched. *)
Theorem unsupported_metric_fails_the_steps (dist : Dist) img_1 img_2 s B D :
  use_knn hp = true -> ~ In (metric hp) supported_metrics ->
  _use_ddp_or_ddp2 trainer = false ->
  (has_shape (encoder_apply (encoder_q s) img_1) B D ->
   has_shape (encoder_apply (encoder_k s) img_2) B D ->
   val_step dist img_1 img_2 s
   = MkOut (inl UnboundLocalError) s [CallForward Val; CallKnnApprox]) /\
  (let s1 := final (momentum s) in
   result (momentum s) = inr tt ->
   has_shape (encoder_apply (encoder_q s1) img_1) B D ->
   has_shape (encoder_apply (encoder_k s1) img_2) B D ->
   train_step dist img_1 img_2 s
   = MkOut (inl UnboundLocalError) s1
           [CallMomentumUpdate; CallForward Train; CallKnnApprox] /\
   queue s1 = queue s /\ queue_ptr s1 = queue_ptr s).
Proof.
  intros Eknn Hn Hone. split.
  - intros Hq Hk. unfold validation_step.
    rewrite run_bind, (forward_unsupported dist img_1 img_2 Val s B D) by done.
    reflexivity.
  - intros s1 Hm Hq Hk. split.
    + unfold training_step. rewrite run_bind, Hm. fold s1.
      rewrite (momentum_update_calls hp s). cbn [result final calls].
      rewrite run_bind,
        (forward_unsupported dist img_1 img_2 Train s1 B D) by done.
      reflexivity.
    + apply (momentum_update_preserves hp
               (fun s' => queue s' = queue s /\ queue_ptr s' = queue_ptr s));
        done.
Qed.
End EndToEnd.

Lemma training_step_end_to_end_witness :
  let o := training_step hp_queue single mock_encoder mock_kmeans
             mock_cross_entropy mock_precision_at_k alone views_1 views_2
             model0 in
  let keys : Mat := [[3 # 5; 4 # 5]; [0%Q; 1%Q]] in
  queue (final o) = write_columns (queue model0) 0 keys /\
  queue_ptr (final o) = 2%Z.
Proof.
  intros o keys.
  destruct (training_step_end_to_end hp_queue single mock_encoder mock_kmeans
              mock_cross_entropy mock_precision_at_k alone views_1 views_2
              model0 (56 # 5)%Q 2%nat eq_refl
              ltac:(repeat constructor) ltac:(lia)
              ltac:(split; [reflexivity|repeat constructor])
              ltac:(cbn; lia) eq_refl
              ltac:(repeat constructor)
              ltac:(vm_compute; reflexivity)) as [E _].
  fold o in E. rewrite E. split; reflexivity.
Defined.

Lemma unsupported_metric_fails_the_steps_witness :
  validation_step hp_cosine single mock_encoder mock_kmeans
    mock_cross_entropy mock_precision_at_k alone views_1 views_2 model0
  = MkOut (inl UnboundLocalError) model0 [CallForward Val; CallKnnApprox].
Proof.
  apply (proj1 (unsupported_metric_fails_the_steps hp_cosine single
                  mock_encoder mock_kmeans mock_cross_entropy
                  mock_precision_at_k alone views_1 views_2 model0
                  2%nat 2%nat eq_refl
                  ltac:(cbn; intros [E|[E|[E|[E|[E|[]]]]]]; discriminate E)
                  eq_refl)).
  - split; [reflexivity|]. repeat constructor.
  - split; [reflexivity|]. repeat constructor.
Defined.
